(** * libmypaint-pyqt5 demo: undo/redo history and scaled placement

    A shallow embedding of the two pieces of logic of the demo application
    and the properties its design document states about them:

    - [pydemo/util/canvas.py]: class [Canvas], the undo/redo history kept
      over the image of a drawing surface;
    - [pydemo/util/get_scaled_placement.py] and
      [pydemo/util/fixed_aspect_graphics_view.py]: the placement of a
      fixed-aspect content rectangle inside a widget;
    - [pydemo/mypaint_canvas.py]: class [MypaintCanvas], strokes and
      visibility over an abstract brush engine;
    - [pydemo/brush_picker.py]: the icon placement, the grid iterator and
      the reading of the brush order file;
    - [pydemo/util/contrast_color.py].

    Python statements are modelled in a state-and-exception monad: a raised
    exception stops the method and leaves the object as mutated so far. *)

From Stdlib Require Import ZArith QArith Qabs Qround Qpower List Bool Lia Lqa.
From Stdlib Require Floats.
From Stdlib Require Ascii String.
Import ListNotations.

Local Open Scope Z_scope.

(** ** Python run-time: exceptions, lists *)

Module Py.

Inductive exn : Type :=
| AttributeError
| IndexError
| TypeError
| ZeroDivisionError
| AssertionError
| ValueError
| RuntimeError
| OverflowError.

Inductive result (A : Type) : Type :=
| Ok (a : A)
| Raise (e : exn).
Arguments Ok {A} a.
Arguments Raise {A} e.

(** A method of an object with state [S]: the value returned or the
    exception raised, and the object afterwards. *)
Definition M (S A : Type) : Type := S -> result A * S.

Definition ret {S A} (a : A) : M S A := fun s => (Ok a, s).

Definition bind {S A B} (m : M S A) (k : A -> M S B) : M S B :=
  fun s =>
    match m s with
    | (Ok a, s') => k a s'
    | (Raise e, s') => (Raise e, s')
    end.

Definition raise {S A} (e : exn) : M S A := fun s => (Raise e, s).

Definition lift {S A} (r : result A) : M S A := fun s => (r, s).

(** Sequencing for code that has no object to thread. *)
Definition rbind {A B} (r : result A) (k : A -> result B) : result B :=
  match r with
  | Ok a => k a
  | Raise e => Raise e
  end.

Definition gets {S A} (f : S -> A) : M S A := fun s => (Ok (f s), s).

Definition modify {S} (f : S -> S) : M S unit := fun s => (Ok tt, f s).

(** [len(l)] *)
Definition len {A} (l : list A) : Z := Z.of_nat (length l).

(** [l.append(x)]: Python lists grow at the end. *)
Definition append {A} (l : list A) (x : A) : list A := l ++ [x].

(** [l.pop()]: removes and returns the last item; [IndexError] on [[]]. *)
Definition pop {A} (l : list A) : result (A * list A) :=
  match rev l with
  | [] => Raise IndexError
  | x :: r => Ok (x, rev r)
  end.

(** [l[i]], with Python's negative indices. *)
Definition index {A} (l : list A) (i : Z) : result A :=
  let j := if i <? 0 then i + len l else i in
  if (j <? 0) || (len l <=? j) then Raise IndexError
  else match nth_error l (Z.to_nat j) with
       | Some x => Ok x
       | None => Raise IndexError
       end.

(** [l[i:]], with Python's clamping of the start. *)
Definition slice_from {A} (l : list A) (i : Z) : list A :=
  let j := if i <? 0 then Z.max 0 (i + len l) else i in
  skipn (Z.to_nat j) l.

End Py.

Import Py.

Declare Scope py_scope.
Delimit Scope py_scope with py.
Notation "x <- m ;; k" := (bind m (fun x => k))
  (at level 100, m at next level, right associativity) : py_scope.
Notation "m ;; k" := (bind m (fun _ => k))
  (at level 100, right associativity) : py_scope.

Declare Scope pyexpr_scope.
Delimit Scope pyexpr_scope with pyexpr.
Notation "x <- r ;; k" := (rbind r (fun x => k))
  (at level 100, r at next level, right associativity) : pyexpr_scope.

(** ** The Qt value types the program uses

    Qt keeps sizes and coordinates as C [int]s. The fields are integers
    here; a Python [int] handed to a Qt constructor goes through the
    binding's range check ([to_c_int] below), and the properties that
    depend on the range of a field say so. *)

Record QSize : Type := mkQSize { sz_width : Z; sz_height : Z }.

Record QPoint : Type := mkQPoint { pt_x : Z; pt_y : Z }.

(** [QRect(x, y, width, height)] *)
Record QRect : Type := mkQRect { rc_x : Z; rc_y : Z; rc_width : Z; rc_height : Z }.

Definition QSize_eqb (a b : QSize) : bool :=
  (sz_width a =? sz_width b) && (sz_height a =? sz_height b).

(** [QRect.size()] *)
Definition QRect_size (r : QRect) : QSize := mkQSize (rc_width r) (rc_height r).

(** [QRect.contains(QPoint)]: Qt stores the corners [x1 = x], [x2 = x + w - 1]
    and swaps them when the width is negative (likewise for y). *)
Definition QRect_contains (r : QRect) (p : QPoint) : bool :=
  let x1 := rc_x r in
  let x2 := rc_x r + rc_width r - 1 in
  let y1 := rc_y r in
  let y2 := rc_y r + rc_height r - 1 in
  let '(l, rt) := if x2 <? x1 - 1 then (x2, x1) else (x1, x2) in
  let '(t, b) := if y2 <? y1 - 1 then (y2, y1) else (y1, y2) in
  negb ((pt_x p <? l) || (rt <? pt_x p)) && negb ((pt_y p <? t) || (b <? pt_y p)).

(** [QColor(r, g, b, a)]; Qt's default-constructed colour is invalid. *)
Inductive QColor : Type :=
| QColor_rgba (r g b a : Z)
| QColor_invalid.

(** A [QImage]: its size and its scanlines, top to bottom. *)
Record QImage : Type := mkQImage {
  img_width : Z;
  img_height : Z;
  scanlines : list (list QColor)
}.

(** The pixel data of a well-formed image fills its size. *)
Definition QImage_wf (i : QImage) : Prop :=
  0 <= img_width i /\ 0 <= img_height i /\
  len (scanlines i) = img_height i /\
  Forall (fun row => len row = img_width i) (scanlines i).

(** [QImage.size()] *)
Definition QImage_size (i : QImage) : QSize := mkQSize (img_width i) (img_height i).

(** [QImage.rect()] *)
Definition QImage_rect (i : QImage) : QRect := mkQRect 0 0 (img_width i) (img_height i).

(** [QImage.copy()]: a deep copy; images are values here, so the copy is
    the image itself and later changes of the surface cannot reach it. *)
Definition QImage_copy (i : QImage) : QImage := i.

(** [QImage.pixelColor(QPoint)]: the stored pixel, and an invalid colour for
    a position outside the image. *)
Definition QImage_pixelColor (i : QImage) (p : QPoint) : QColor :=
  if (pt_x p <? 0) || (img_width i <=? pt_x p) || (pt_y p <? 0) || (img_height i <=? pt_y p)
  then QColor_invalid
  else match nth_error (scanlines i) (Z.to_nat (pt_y p)) with
       | Some row =>
           match nth_error row (Z.to_nat (pt_x p)) with
           | Some c => c
           | None => QColor_invalid
           end
       | None => QColor_invalid
       end.

(** A point lies in the image when it names one of its pixels. *)
Definition in_image (i : QImage) (p : QPoint) : Prop :=
  0 <= pt_x p < img_width i /\ 0 <= pt_y p < img_height i.

(** ** [pydemo/util/canvas.py]: class [Canvas] *)

(** [Canvas.UndoState]: a timestamped image. *)
Record UndoState : Type := mkUndoState { image : QImage; timestamp : Z }.

(** The objects that [undo] and [redo] take off the stacks and call methods
    on. Python looks the method up on the object at run time. *)
Inductive PyObject : Type :=
| ObjQImage (i : QImage)
| ObjUndoState (u : UndoState).

(** [obj.size()]: a [QImage] has the method, an [UndoState] has only the
    attributes [image] and [timestamp]. *)
Definition call_size (o : PyObject) : result QSize :=
  match o with
  | ObjQImage i => Ok (QImage_size i)
  | ObjUndoState _ => Raise AttributeError
  end.

(** What class [Canvas] leaves to its surroundings: the methods its
    subclasses implement ([get_qimage], [set_image], [size]) over the
    drawing surface they own, Qt's [QImage.scaled], and the wall clock
    ([now n] is the [n]-th reading of [datetime.now().timestamp()]). *)
Class Host (Surface : Type) : Type := {
  get_qimage : Surface -> QImage;
  set_image : QImage -> Surface -> Surface;
  size : Surface -> QSize;
  scaled : QImage -> QSize -> QImage;
  now : nat -> Z
}.

(** [Canvas.MAX_UNDO] *)
Definition MAX_UNDO : Z := 30.

(** What [l[-MAX_UNDO:]] keeps once the list is longer than [MAX_UNDO]. *)
Definition trim {A} (l : list A) : list A :=
  if MAX_UNDO <? len l then slice_from l (- MAX_UNDO) else l.

(** A [Canvas] object: the subclass's surface, the two stacks (lists of
    [UndoState], oldest first), and the number of clock readings so far. *)
Record Canvas (Surface : Type) : Type := mkCanvas {
  surface : Surface;
  _undo_stack : list UndoState;
  _redo_stack : list UndoState;
  clock_reads : nat
}.
Arguments mkCanvas {Surface}.
Arguments surface {Surface}.
Arguments _undo_stack {Surface}.
Arguments _redo_stack {Surface}.
Arguments clock_reads {Surface}.

Section CanvasMethods.

Context {Surface : Type} `{H : Host Surface}.

Local Open Scope py_scope.

Local Abbreviation Self := (Canvas Surface).

Definition set_undo_stack (l : list UndoState) (c : Self) : Self :=
  mkCanvas (surface c) l (_redo_stack c) (clock_reads c).

Definition set_redo_stack (l : list UndoState) (c : Self) : Self :=
  mkCanvas (surface c) (_undo_stack c) l (clock_reads c).

Definition set_surface (s : Surface) (c : Self) : Self :=
  mkCanvas s (_undo_stack c) (_redo_stack c) (clock_reads c).

(** [Canvas.__init__]: both stacks start empty. *)
Definition Canvas_init (s : Surface) : Self := mkCanvas s [] [] 0%nat.

(** [Canvas.UndoState(image)]: stamps the image with the current time. *)
Definition UndoState_init (i : QImage) : M Self UndoState :=
  fun c =>
    (Ok (mkUndoState i (now (clock_reads c))),
     mkCanvas (surface c) (_undo_stack c) (_redo_stack c) (S (clock_reads c))).

(** [self.get_qimage()] *)
Definition self_get_qimage : M Self QImage := gets (fun c => get_qimage (surface c)).

(** [self.size()] *)
Definition self_size : M Self QSize := gets (fun c => size (surface c)).

(** [self.set_image(obj)]: implementations take a [QImage] (or a size, a
    path, a PIL image) and raise [TypeError] on anything else. *)
Definition self_set_image (o : PyObject) : M Self unit :=
  match o with
  | ObjQImage i => modify (fun c => set_surface (set_image i (surface c)) c)
  | ObjUndoState _ => raise TypeError
  end.

(** [obj.scaled(size)] *)
Definition call_scaled (o : PyObject) (s : QSize) : result PyObject :=
  match o with
  | ObjQImage i => Ok (ObjQImage (scaled i s))
  | ObjUndoState _ => Raise AttributeError
  end.

(** [Canvas._save_undo_state(clear_redo_stack=True)] *)
Definition _save_undo_state (clear_redo_stack : bool) : M Self unit :=
  img <- self_get_qimage ;;
  st <- UndoState_init (QImage_copy img) ;;
  modify (fun c => set_undo_stack (append (_undo_stack c) st) c) ;;
  (fun c =>
     if MAX_UNDO <? len (_undo_stack c)
     then modify (set_undo_stack (slice_from (_undo_stack c) (- MAX_UNDO))) c
     else ret tt c) ;;
  if clear_redo_stack then modify (set_redo_stack []) else ret tt.

(** [Canvas.undo] *)
Definition undo : M Self unit :=
  fun c =>
    if len (_undo_stack c) =? 0 then ret tt c
    else
      (img <- self_get_qimage ;;
       st <- UndoState_init (QImage_copy img) ;;
       modify (fun c => set_redo_stack (append (_redo_stack c) st) c) ;;
       popped <- (fun c => lift (pop (_undo_stack c)) c) ;;
       modify (set_undo_stack (snd popped)) ;;
       let new_image := image (fst popped) in
       sz <- self_size ;;
       let new_image :=
         if negb (QSize_eqb (QImage_size new_image) sz)
         then scaled new_image sz else new_image in
       self_set_image (ObjQImage new_image)) c.

(** [Canvas.redo]: the object popped is the [UndoState] itself. *)
Definition redo : M Self unit :=
  fun c =>
    if len (_redo_stack c) =? 0 then ret tt c
    else
      (_save_undo_state false ;;
       popped <- (fun c => lift (pop (_redo_stack c)) c) ;;
       modify (set_redo_stack (snd popped)) ;;
       let popped_obj := ObjUndoState (fst popped) in
       isz <- lift (call_size popped_obj) ;;
       sz <- self_size ;;
       obj <- (if negb (QSize_eqb isz sz)
               then lift (call_scaled popped_obj sz) else ret popped_obj) ;;
       self_set_image obj) c.

(** [Canvas.undo_count] *)
Definition undo_count : M Self Z := gets (fun c => len (_undo_stack c)).

(** [Canvas.redo_count]: as written, [return len(self._undo_stack)]. *)
Definition redo_count : M Self Z := gets (fun c => len (_undo_stack c)).

(** [Canvas.last_undo_timestamp]: [None] when there is nothing to undo. *)
Definition last_undo_timestamp : M Self (option Z) :=
  n <- undo_count ;;
  if n =? 0 then ret None
  else st <- (fun c => lift (index (_undo_stack c) (-1)) c) ;;
       ret (Some (timestamp st)).

(** [Canvas.last_redo_timestamp]: guarded by [redo_count()], then
    [self._redo_stack[-1]]. *)
Definition last_redo_timestamp : M Self (option Z) :=
  n <- redo_count ;;
  if n =? 0 then ret None
  else st <- (fun c => lift (index (_redo_stack c) (-1)) c) ;;
       ret (Some (timestamp st)).

(** [Canvas.clear_undo_history] *)
Definition clear_undo_history : M Self unit :=
  modify (set_undo_stack []) ;;
  modify (set_redo_stack []).

(** [Canvas.get_color_at_point] *)
Definition get_color_at_point (point : QPoint) : M Self QColor :=
  img <- self_get_qimage ;;
  if QRect_contains (QImage_rect img) point
  then img' <- self_get_qimage ;; ret (QImage_pixelColor img' point)
  else ret (QColor_rgba 0 0 0 0).

(** [Canvas.start_stroke], [Canvas.fill], [Canvas.clear]: the base class
    part of each, which subclasses call before they change the surface. *)
Definition start_stroke : M Self unit := _save_undo_state true.

Definition fill (unused_color : QColor) : M Self unit := _save_undo_state true.

Definition clear : M Self unit := _save_undo_state true.

(** *** Sequences of operations, for stating the history properties *)

(** The state [_save_undo_state] pushes. *)
Definition snapshot (c : Self) : UndoState :=
  mkUndoState (get_qimage (surface c)) (now (clock_reads c)).

(** The image [undo] installs: the popped one, rescaled on a size mismatch. *)
Definition fitted (i : QImage) (s : Surface) : QImage :=
  if negb (QSize_eqb (QImage_size i) (size s)) then scaled i (size s) else i.

(** The [n] most recent items of a list that grows at its end. *)
Definition most_recent {A} (n : nat) (l : list A) : list A :=
  skipn (length l - n) l.

(** One logical edit as a subclass performs it: the base class saves the
    undo state, then the subclass changes the surface. *)
Definition save_then_edit (step : bool * (Surface -> Surface)) : M Self unit :=
  _save_undo_state (fst step) ;;
  modify (fun c => set_surface (snd step (surface c)) c).

Fixpoint save_all (steps : list (bool * (Surface -> Surface))) : M Self unit :=
  match steps with
  | [] => ret tt
  | step :: rest => save_then_edit step ;; save_all rest
  end.

(** The states those saves push, in push order: the image of the surface
    at the time of each save, with the clock reading taken for it. *)
Fixpoint pushed (steps : list (bool * (Surface -> Surface)))
    (s : Surface) (reads : nat) : list UndoState :=
  match steps with
  | [] => []
  | step :: rest =>
      mkUndoState (get_qimage s) (now reads) :: pushed rest (snd step s) (S reads)
  end.

(** The operations a user interface triggers on a canvas. *)
Inductive HistoryOp : Type :=
| DoSaveThenEdit (clear_redo_stack : bool) (edit : Surface -> Surface)
| DoUndo
| DoRedo
| DoClearHistory.

Definition run_op (o : HistoryOp) : M Self unit :=
  match o with
  | DoSaveThenEdit b f => save_then_edit (b, f)
  | DoUndo => undo
  | DoRedo => redo
  | DoClearHistory => clear_undo_history
  end.

(** The canvas after a series of operations; an operation that raises
    leaves the canvas as it was at the raise, and the next one runs on it. *)
Fixpoint run_ops (ops : list HistoryOp) (c : Self) : Self :=
  match ops with
  | [] => c
  | o :: rest => run_ops rest (snd (run_op o c))
  end.

End CanvasMethods.

(** ** Python floats

    A Python [float] is an IEEE 754 binary64 number and every operation
    rounds the exact result to the nearest one, ties to even. The program
    is written once over the arithmetic it uses and read in two ways:
    [binary64] computes with rationals and an explicit rounding function
    (all theorems are about this reading), [hardware] with the kernel's
    primitive binary64 floats (concrete runs are repeated on it). *)

Record FloatArith : Type := mkFloatArith {
  num : Type;
  (** [float(n)] for an [int] *)
  of_int : Z -> num;
  fadd : num -> num -> num;
  fsub : num -> num -> num;
  fmul : num -> num -> num;
  (** [x / y]; [ZeroDivisionError] when [y] is zero *)
  fdiv : num -> num -> result num;
  (** [x < y] *)
  fltb : num -> num -> bool;
  (** [int(x)]: truncation towards zero *)
  trunc : num -> result Z
}.

Module Float64.

Local Open Scope Q_scope.

Definition pow2 (e : Z) : Q := 2 ^ e.

(** For [q > 0], the [e] with [2^e <= q < 2^(e+1)]. *)
Definition floor_log2 (q : Q) : Z :=
  let k := (Z.log2 (Qnum q) - Z.log2 (Zpos (Qden q)))%Z in
  if Qle_bool (pow2 k) q then k else (k - 1)%Z.

(** The exponent of the unit in the last place: 53 significant bits, and
    the fixed spacing [2^-1074] of the subnormal numbers. *)
Definition ulp_exponent (q : Q) : Z := Z.max (floor_log2 q - 52) (-1074).

(** The nearest integer, the even one of two that are equally near. *)
Definition round_half_even (x : Q) : Z :=
  let f := Qfloor x in
  match Qcompare (x - inject_Z f) (1 # 2) with
  | Lt => f
  | Gt => (f + 1)%Z
  | Eq => if Z.even f then f else (f + 1)%Z
  end.

(** Rounding to the multiples of [2^ex]. *)
Definition grid (ex : Z) (q : Q) : Q :=
  inject_Z (round_half_even (q / pow2 ex)) * pow2 ex.

Definition round_pos (q : Q) : Q := Qred (grid (ulp_exponent q) q).

(** Rounding to binary64. Overflow to infinity is left out: the numbers of
    this program are built from C [int]s by a handful of operations and
    stay far below [2^1024]. *)
Definition rnd64 (q : Q) : Q :=
  match Qcompare q 0 with
  | Eq => 0
  | Gt => round_pos q
  | Lt => - round_pos (- q)
  end.

(** [int(x)] *)
Definition truncate (q : Q) : Z := Z.quot (Qnum q) (Zpos (Qden q)).

Definition lt_bool (x y : Q) : bool :=
  match Qcompare x y with Lt => true | _ => false end.

End Float64.

Definition binary64 : FloatArith := {|
  num := Q;
  of_int := fun z => Float64.rnd64 (inject_Z z);
  fadd := fun x y => Float64.rnd64 (x + y);
  fsub := fun x y => Float64.rnd64 (x - y);
  fmul := fun x y => Float64.rnd64 (x * y);
  fdiv := fun x y =>
    if Qeq_bool y 0 then Raise ZeroDivisionError else Ok (Float64.rnd64 (x / y));
  fltb := Float64.lt_bool;
  trunc := fun x => Ok (Float64.truncate x)
|}.

Module Hardware.

Import Floats.

(** Exact for [|z| < 2^53], which covers every C [int]. *)
Definition of_int (z : Z) : PrimFloat.float :=
  if z <? 0 then PrimFloat.opp (PrimFloat.of_uint63 (Uint63.of_Z (- z)))
  else PrimFloat.of_uint63 (Uint63.of_Z z).

Definition div (x y : PrimFloat.float) : result PrimFloat.float :=
  if PrimFloat.eqb y PrimFloat.zero then Raise ZeroDivisionError
  else Ok (PrimFloat.div x y).

Definition trunc (x : PrimFloat.float) : result Z :=
  match FloatOps.Prim2SF x with
  | SpecFloat.S754_zero _ => Ok 0
  | SpecFloat.S754_finite s m e =>
      let v := if 0 <=? e then Z.pos m * 2 ^ e else Z.pos m / 2 ^ (- e) in
      Ok (if s then - v else v)
  | SpecFloat.S754_infinity _ => Raise OverflowError
  | SpecFloat.S754_nan => Raise ValueError
  end.

(** The rational a finite float stands for. *)
Definition to_Q (x : PrimFloat.float) : option Q :=
  match FloatOps.Prim2SF x with
  | SpecFloat.S754_zero _ => Some 0%Q
  | SpecFloat.S754_finite s m e =>
      Some (Qred (inject_Z (if s then Z.neg m else Z.pos m) * Float64.pow2 e))
  | _ => None
  end.

End Hardware.

Definition hardware : FloatArith := {|
  num := PrimFloat.float;
  of_int := Hardware.of_int;
  fadd := PrimFloat.add;
  fsub := PrimFloat.sub;
  fmul := PrimFloat.mul;
  fdiv := Hardware.div;
  fltb := PrimFloat.ltb;
  trunc := Hardware.trunc
|}.

(** ** Python [int]s on their way into Qt *)

(** A C [int], which is what Qt's sizes and coordinates are. *)
Definition c_int (z : Z) : Prop := (- 2 ^ 31 <= z < 2 ^ 31)%Z.

(** A Python [int] passed where Qt takes an [int]: PyQt5 checks the range
    and raises [OverflowError] outside it. *)
Definition to_c_int (z : Z) : result Z :=
  if (- 2 ^ 31 <=? z) && (z <? 2 ^ 31) then Ok z else Raise OverflowError.

(** Arithmetic that Qt does on its own [int]s wraps around at 32 bits. *)
Definition wrap_c_int (z : Z) : Z := (z + 2 ^ 31) mod 2 ^ 32 - 2 ^ 31.

(** [QSize(w, h)] called from Python. *)
Definition QSize_new (w h : Z) : result QSize :=
  rbind (to_c_int w) (fun w =>
  rbind (to_c_int h) (fun h =>
  Ok (mkQSize w h))).

(** [QRect(x, y, w, h)] called from Python. *)
Definition QRect_new (x y w h : Z) : result QRect :=
  rbind (to_c_int x) (fun x =>
  rbind (to_c_int y) (fun y =>
  rbind (to_c_int w) (fun w =>
  rbind (to_c_int h) (fun h =>
  Ok (mkQRect x y w h))))).

(** ** [pydemo/util/get_scaled_placement.py] *)

(** [QSize - QSize], computed by Qt. *)
Definition QSize_sub (a b : QSize) : QSize :=
  mkQSize (wrap_c_int (sz_width a - sz_width b)) (wrap_c_int (sz_height a - sz_height b)).

Section Placement.

Variable A : FloatArith.

Local Open Scope pyexpr_scope.

(** A Python number: [x] and [y] start as [int]s and become [float]s when
    an offset is added. *)
Inductive PyNum : Type :=
| PInt (z : Z)
| PFloat (x : num A).

(** [int(v)] *)
Definition py_int (v : PyNum) : result Z :=
  match v with
  | PInt z => Ok z
  | PFloat x => trunc A x
  end.

(** [a / b] on two [int]s: the quotient rounded once, for operands of up to
    53 bits, which every C [int] is. *)
Definition int_truediv (a b : Z) : result (num A) :=
  fdiv A (of_int A a) (of_int A b).

(** [min(a, b)] on floats: the first, unless the second is smaller. *)
Definition py_min (a b : num A) : num A := if fltb A b a then b else a.

(** The position along one axis, as the function computes it for [x] and
    for [y]: [o] is the container's origin plus the margin, [c] the
    container's length less both margins, [i] the inner length. *)
Definition axis (o c i : Z) (scale : num A) : result PyNum :=
  if fltb A (fmul A (of_int A i) scale) (of_int A c)
  then
    half <- fdiv A (fsub A (of_int A c) (fmul A (of_int A i) scale)) (of_int A 2) ;;
    Ok (PFloat (fadd A (of_int A o) half))
  else Ok (PInt o).

Definition get_scaled_placement
    (container_rect : QRect) (inner_size : QSize) (margin_width : Z) : result QRect :=
  margins <- QSize_new (margin_width * 2) (margin_width * 2) ;;
  let container_size := QSize_sub (QRect_size container_rect) margins in
  sx <- int_truediv (sz_width container_size) (Z.max (sz_width inner_size) 1) ;;
  sy <- int_truediv (sz_height container_size) (Z.max (sz_height inner_size) 1) ;;
  let scale := py_min sx sy in
  let x := rc_x container_rect + margin_width in
  let y := rc_y container_rect + margin_width in
  x <- (if fltb A (fmul A (of_int A (sz_width inner_size)) scale)
                  (of_int A (sz_width container_size))
        then
          half <- fdiv A (fsub A (of_int A (sz_width container_size))
                                 (fmul A (of_int A (sz_width inner_size)) scale))
                         (of_int A 2) ;;
          Ok (PFloat (fadd A (of_int A x) half))
        else Ok (PInt x)) ;;
  y <- (if fltb A (fmul A (of_int A (sz_height inner_size)) scale)
                  (of_int A (sz_height container_size))
        then
          half <- fdiv A (fsub A (of_int A (sz_height container_size))
                                 (fmul A (of_int A (sz_height inner_size)) scale))
                         (of_int A 2) ;;
          Ok (PFloat (fadd A (of_int A y) half))
        else Ok (PInt y)) ;;
  rx <- py_int x ;;
  ry <- py_int y ;;
  rw <- trunc A (fmul A (of_int A (sz_width inner_size)) scale) ;;
  rh <- trunc A (fmul A (of_int A (sz_height inner_size)) scale) ;;
  QRect_new rx ry rw rh.

End Placement.

Arguments PInt {A} z.
Arguments PFloat {A} x.
Arguments py_int {A} v.

(** *** Vocabulary for the placement properties *)

Section PlacementSpec.

Import Float64.
Local Open Scope Q_scope.

(** [float(z)] in the binary64 reading. *)
Definition fl (z : Z) : Q := rnd64 (inject_Z z).

(** Bounds on the relative and the absolute error of one rounding. *)
Definition eps : Q := 1 # 9007199254740992.
Definition eta : Q := 1 # 1152921504606846976.

(** The inputs for which the function is meant. The container is a
    [QRect] and the inner size a [QSize] that is not negative, so their
    fields are C [int]s; twice the margin is a C [int], as [QSize(...)]
    asks; the container is not smaller than its two margins; and the
    container less its margins, from its near corner
    [(x + m, y + m)] to its far corner [(x + w - m, y + h - m)], has C
    [int] coordinates and lengths. *)
Record placement_pre (container_rect : QRect) (inner_size : QSize) (m : Z) : Prop := {
  pre_x : c_int (rc_x container_rect);
  pre_y : c_int (rc_y container_rect);
  pre_w : c_int (rc_width container_rect);
  pre_h : c_int (rc_height container_rect);
  pre_margins : c_int (m * 2);
  pre_fit_w : (0 <= rc_width container_rect - m * 2 < 2 ^ 31)%Z;
  pre_fit_h : (0 <= rc_height container_rect - m * 2 < 2 ^ 31)%Z;
  pre_left : c_int (rc_x container_rect + m);
  pre_right : c_int (rc_x container_rect + rc_width container_rect - m);
  pre_top : c_int (rc_y container_rect + m);
  pre_bottom : c_int (rc_y container_rect + rc_height container_rect - m);
  pre_iw : (0 <= sz_width inner_size < 2 ^ 31)%Z;
  pre_ih : (0 <= sz_height inner_size < 2 ^ 31)%Z
}.

(** [r] lies in [outer]. *)
Definition rect_within (r outer : QRect) : Prop :=
  (0 <= rc_width r /\ 0 <= rc_height r /\
   rc_x outer <= rc_x r /\ rc_x r + rc_width r <= rc_x outer + rc_width outer /\
   rc_y outer <= rc_y r /\ rc_y r + rc_height r <= rc_y outer + rc_height outer)%Z.

(** [scale] as the function computes it. *)
Definition scale_of (container_rect : QRect) (inner_size : QSize) (m : Z) : Q :=
  py_min binary64
    (rnd64 (fl (rc_width container_rect - m * 2) / fl (Z.max (sz_width inner_size) 1)))
    (rnd64 (fl (rc_height container_rect - m * 2) / fl (Z.max (sz_height inner_size) 1))).

End PlacementSpec.

(** ** [pydemo/util/fixed_aspect_graphics_view.py]: class [FixedAspectGraphicsView]

    The part the placement goes through. The scene rectangle and the
    [QTransform] that [resizeEvent] hands to Qt, and [mapToScene], which
    [widget_to_scene_coords] calls, live inside Qt and are not modelled. *)

Record FixedAspectGraphicsView : Type := mkView {
  (** [self.size()]: the widget's size *)
  view_size : QSize;
  _content_size : option QSize;
  _content_rect : option QRect
}.

Section ViewMethods.

Variable A : FloatArith.

Local Open Scope py_scope.

(** [FixedAspectGraphicsView._border_size]; [//] rounds down. *)
Definition _border_size (v : FixedAspectGraphicsView) : Z :=
  Z.min (sz_width (view_size v)) (sz_height (view_size v)) / 40 + 1.

(** [FixedAspectGraphicsView.resizeEvent] *)
Definition resizeEvent : M FixedAspectGraphicsView unit :=
  fun v =>
    match _content_size v with
    | None => raise RuntimeError v
    | Some content_size =>
        (let border_size := _border_size v in
         rect <- lift (get_scaled_placement A
                         (mkQRect 0 0 (sz_width (view_size v)) (sz_height (view_size v)))
                         content_size border_size) ;;
         modify (fun v => mkView (view_size v) (_content_size v) (Some rect)) ;;
         x_scale <- lift (int_truediv A (rc_width rect) (sz_width content_size)) ;;
         y_scale <- lift (int_truediv A (rc_height rect) (sz_height content_size)) ;;
         ret tt) v
    end.

(** [FixedAspectGraphicsView.scene_to_widget_coords]: the [QPointF]
    returned, as its two coordinates. *)
Definition scene_to_widget_coords (point : QPoint) :
    M FixedAspectGraphicsView (num A * num A) :=
  fun v =>
    match _content_rect v, _content_size v with
    | Some content_rect, Some content_size =>
        (x_scale <- lift (int_truediv A (rc_width content_rect) (sz_width content_size)) ;;
         y_scale <- lift (int_truediv A (rc_height content_rect) (sz_height content_size)) ;;
         let x0 := rc_x content_rect in
         let y0 := rc_y content_rect in
         ret (fadd A (of_int A x0) (fmul A (of_int A (pt_x point)) x_scale),
              fadd A (of_int A y0) (fmul A (of_int A (pt_y point)) y_scale))) v
    | _, _ => raise AssertionError v
    end.

End ViewMethods.

(** ** A small host for concrete runs

    The surface is the image itself, as with a canvas that paints into a
    [QImage]: [set_image] replaces it and [get_qimage] returns it.
    Rescaling takes the nearest pixel; the clock ticks once per reading. *)

Module Demo.

Definition nearest (n m k : Z) : nat := Z.to_nat (k * n / Z.max m 1).

Definition nearest_scaled (i : QImage) (s : QSize) : QImage :=
  let pick_row y := nth (nearest (img_height i) (sz_height s) y) (scanlines i) [] in
  let pick x row := nth (nearest (img_width i) (sz_width s) x) row QColor_invalid in
  let xs := map Z.of_nat (seq 0 (Z.to_nat (sz_width s))) in
  let ys := map Z.of_nat (seq 0 (Z.to_nat (sz_height s))) in
  mkQImage (sz_width s) (sz_height s)
    (map (fun y => map (fun x => pick x (pick_row y)) xs) ys).

#[global] Instance host : Host QImage := {|
  get_qimage := fun s => s;
  set_image := fun i _ => i;
  size := QImage_size;
  scaled := nearest_scaled;
  now := fun n => 1700000000 + Z.of_nat n
|}.

Definition red : QColor := QColor_rgba 255 0 0 255.
Definition blue : QColor := QColor_rgba 0 0 255 255.
Definition blank : QColor := QColor_rgba 0 0 0 0.

(** A 2 by 2 image of one colour. *)
Definition solid (c : QColor) : QImage := mkQImage 2 2 [[c; c]; [c; c]].

(** The user paints the surface with one colour: [fill] on a subclass,
    which calls the base class first and then replaces the image. *)
Definition paint (c : QColor) : M (Canvas QImage) unit :=
  bind (fill c) (fun _ => modify (set_surface (solid c))).

(** The object left by a method, and what it returned. *)
Definition after {A} (m : M (Canvas QImage) A) (c : Canvas QImage) : Canvas QImage :=
  snd (m c).

Definition fresh : Canvas QImage := Canvas_init (solid blank).

(** One stroke in red on the fresh canvas. *)
Definition painted_red : Canvas QImage := after (paint red) fresh.

(** Then one in blue. *)
Definition painted_blue : Canvas QImage := after (paint blue) painted_red.

End Demo.

(** ** What an implementation of the canvas methods is expected to do

    [undo] hands an image to [set_image] and later [get_qimage] reads the
    content back. A subclass that keeps the image it is given, at the size
    it is given, satisfies these three laws. *)

Class HostLaws (Surface : Type) `{H : Host Surface} : Prop := {
  get_qimage_set_image :
    forall (i : QImage) (s : Surface), get_qimage (set_image i s) = i;
  size_set_image :
    forall (i : QImage) (s : Surface), size (set_image i s) = QImage_size i;
  get_qimage_size :
    forall s : Surface, QImage_size (get_qimage s) = size s
}.

Section HistoryRuns.

Context {Surface : Type} `{H : Host Surface}.

(** [undo()] called [n] times, whatever each call does. *)
Definition undo_times (n : nat) (c : Canvas Surface) : Canvas Surface :=
  run_ops (repeat DoUndo n) c.

(** Every change in a series of edits keeps the size of the surface. *)
Definition keeps_size (steps : list (bool * (Surface -> Surface))) : Prop :=
  Forall (fun step => forall s : Surface, size (snd step s) = size s) steps.

End HistoryRuns.

(** Painting every pixel of an image with one colour, for concrete runs. *)
Definition recolour (c : QColor) (i : QImage) : QImage :=
  mkQImage (img_width i) (img_height i) (map (map (fun _ => c)) (scanlines i)).

(** ** More of [FixedAspectGraphicsView], and the brush icons that use the
    placement *)

Section ViewMore.

Variable A : FloatArith.

Local Open Scope py_scope.

(** [new_size == self.content_size]: a size never equals [None]. *)
Definition same_content_size (new_size : QSize) (v : FixedAspectGraphicsView) : bool :=
  match _content_size v with
  | Some old => QSize_eqb new_size old
  | None => false
  end.

(** The setter of [FixedAspectGraphicsView.content_size]. The cache that
    [resetCachedContent] drops is Qt's. *)
Definition set_content_size (new_size : QSize) : M FixedAspectGraphicsView unit :=
  fun v =>
    if same_content_size new_size v then ret tt v
    else
      (modify (fun v => mkView (view_size v) (Some new_size) (_content_rect v)) ;;
       resizeEvent A) v.

(** [FixedAspectGraphicsView.displayed_content_size] *)
Definition displayed_content_size (v : FixedAspectGraphicsView) : option QSize :=
  match _content_rect v with
  | None => None
  | Some r => Some (QRect_size r)
  end.

(** [_IconButton.resizeEvent] of [pydemo/brush_picker.py]: the icon's
    rectangle in a widget of the given width and height, with the default
    margin of 0. *)
Definition IconButton_resizeEvent (width height : Z) (image_size : QSize) : result QRect :=
  get_scaled_placement A (mkQRect 0 0 width height) image_size 0.

End ViewMore.

(** One coordinate of [scene_to_widget_coords] in binary64: the placement's
    origin [o] and extent, the content's extent, and the scene coordinate
    [a], as [o + a * (extent / content)] with each operation rounded. *)
Definition widget_coord (o extent content a : Z) : Q :=
  Float64.rnd64 (fl o + Float64.rnd64 (fl a * Float64.rnd64 (fl extent / fl content))).

(** A window of 800 x 600 showing content of 1024 x 1024, once placed. *)
Definition placed_view : FixedAspectGraphicsView :=
  mkView (mkQSize 800 600) (Some (mkQSize 1024 1024)) (Some (mkQRect 116 16 568 568)).

(** ** [pydemo/brush_picker.py]: class [_GridIter]

    The iterator that lays the brushes of a group out on a grid five
    columns wide. *)

Record GridIter (T : Type) : Type := mkGridIter {
  _list : list T;
  _i : Z;
  _x : Z;
  _y : Z
}.
Arguments mkGridIter {T} _ _ _ _.
Arguments _list {T} _.
Arguments _i {T} _.
Arguments _x {T} _.
Arguments _y {T} _.

(** What a call of [__next__] does: it returns a column, a row and an
    item, or raises [StopIteration], or raises something else. *)
Inductive Next (T : Type) : Type :=
| Item (x y : Z) (item : T)
| StopIteration
| Raised (e : exn).
Arguments Item {T} x y item.
Arguments StopIteration {T}.
Arguments Raised {T} e.

Section GridIterMethods.

Context {T : Type}.

(** [_GridIter.WIDTH] *)
Definition WIDTH : Z := 5.

(** [_GridIter.__init__] *)
Definition GridIter_init (item_list : list T) (i : Z) : GridIter T :=
  mkGridIter item_list i 0 0.

(** [_GridIter.__iter__]; [%] and [//] round down, as [mod] and [/] on [Z]
    do for a positive divisor. *)
Definition GridIter_iter (g : GridIter T) : GridIter T :=
  mkGridIter (_list g) (_i g) (_i g mod WIDTH) (_i g / WIDTH).

(** [_GridIter.__next__]: the position is advanced before the item is
    read. *)
Definition GridIter_next (g : GridIter T) : Next T * GridIter T :=
  let x := _x g in
  let y := _y g in
  let i := x + y * WIDTH in
  if len (_list g) <=? i then (StopIteration, g)
  else
    let g := mkGridIter (_list g) (_i g) (_x g + 1) (_y g) in
    let g := if WIDTH <=? _x g
             then mkGridIter (_list g) (_i g) 0 (_y g + 1)
             else g in
    match index (_list g) i with
    | Ok item => (Item x y item, g)
    | Raise e => (Raised e, g)
    end.

(** [next] until it raises: the items returned, in order, the exception
    that ended the run unless it was [StopIteration], and the iterator
    afterwards. *)
Fixpoint drain (fuel : nat) (g : GridIter T) :
    option (list (Z * Z * T) * option exn * GridIter T) :=
  match fuel with
  | O => None
  | S fuel =>
      match GridIter_next g with
      | (StopIteration, g) => Some ([], None, g)
      | (Raised e, g) => Some ([], Some e, g)
      | (Item x y item, g) =>
          match drain fuel g with
          | Some (items, e, g) => Some ((x, y, item) :: items, e, g)
          | None => None
          end
      end
  end.

(** [for x, y, item in g: ...], as far as the iterator goes: [iter(g)]
    once, then [next] for every turn of the loop. *)
Definition for_loop (fuel : nat) (g : GridIter T) :
    option (list (Z * Z * T) * option exn * GridIter T) :=
  drain fuel (GridIter_iter g).

(** The items of a list numbered from [start] on, each with the column and
    the row of its number. *)
Fixpoint grid_cells (start : Z) (items : list T) : list (Z * Z * T) :=
  match items with
  | [] => []
  | item :: rest => (start mod WIDTH, start / WIDTH, item) :: grid_cells (start + 1) rest
  end.

(** The iterator at position [k]: column [k mod 5] of row [k / 5]. *)
Definition at_position (l : list T) (i k : Z) : GridIter T :=
  mkGridIter l i (k mod WIDTH) (k / WIDTH).

End GridIterMethods.

(** ** [pydemo/mypaint_canvas.py]: class [MypaintCanvas] *)

(** [QLine(x1, y1, x2, y2)] *)
Record QLine : Type := mkQLine { ln_x1 : Z; ln_y1 : Z; ln_x2 : Z; ln_y2 : Z }.

Module Mypaint.

(** What the class leaves to its surroundings. [brushlib] is the C++
    extension [libmypaint_pyqt5.MPBrushLib], one engine for the whole
    process: its state [B] holds the surface and the brush, and the calls
    the class makes on it are taken to return. [F] is a Python [float] as
    the engine receives it, and [log_half size] is [math.log(size / 2)]
    where that is defined. The rest is Qt's: [QImage.scaled], and
    [qt_filled size color], the new [QImage(size, Format_ARGB32)] once
    [QPainter.fillRect] has gone over all of it (an opaque colour replaces
    every pixel; a translucent one is blended over whatever the new image
    held); and the wall clock. *)
Class Engine (B F : Type) : Type := {
  surface_size : B -> QSize;
  set_surface_size : QSize -> B -> B;
  clear_surface : B -> B;
  load_image : QImage -> B -> B;
  render_image : B -> QImage;
  brushlib_start_stroke : B -> B;
  brushlib_end_stroke : B -> B;
  stroke_to : Z -> Z -> F -> B -> B;
  basic_stroke_to : Z -> Z -> B -> B;
  set_brush_color : QColor -> B -> B;
  set_radius_log : F -> B -> B;
  log_half : Z -> F;
  qt_scaled : QImage -> QSize -> QImage;
  qt_filled : QSize -> QColor -> QImage;
  clock : nat -> Z
}.

(** A [MypaintCanvas] object: the fields of class [Canvas], whose surface
    is the engine, and its own. [_scale] stays [1.0] and is left out. *)
Record MypaintCanvas (B : Type) : Type := mkMypaintCanvas {
  base : Canvas B;
  _brush_size : Z;
  _enabled : bool;
  _visible : bool;
  _size : QSize;
  _drawing : bool;
  _has_sketch : bool;
  _saved_brush_size : option Z;
  _saved_image : option QImage
}.
Arguments mkMypaintCanvas {B}.
Arguments base {B}.
Arguments _brush_size {B}.
Arguments _enabled {B}.
Arguments _visible {B}.
Arguments _size {B}.
Arguments _drawing {B}.
Arguments _has_sketch {B}.
Arguments _saved_brush_size {B}.
Arguments _saved_image {B}.

(** A position to draw at: a [QPoint] or a [QLine]. *)
Inductive Pos : Type :=
| AtPoint (p : QPoint)
| AlongLine (l : QLine).

Section Methods.

Context {B F : Type} `{E : Engine B F}.

Local Open Scope py_scope.

(** [MypaintCanvas.size] *)
Definition size (b : B) : QSize := surface_size b.

(** [MypaintCanvas.get_qimage] *)
Definition get_qimage (b : B) : QImage :=
  let image := render_image b in
  if negb (QSize_eqb (QImage_size image) (size b)) then qt_scaled image (size b) else image.

(** [MypaintCanvas.set_image] on a [QImage]. An image here has no pixel
    format; the conversion to ARGB32 is part of what [load_image] gets. *)
Definition set_image (image_data : QImage) (b : B) : B :=
  let b := clear_surface b in
  let b := if negb (QSize_eqb (size b) (QImage_size image_data))
           then set_surface_size (QImage_size image_data) b else b in
  load_image image_data b.

(** The methods class [Canvas] calls on [self]. *)
Definition host : Host B := Build_Host B get_qimage set_image size qt_scaled clock.

Local Abbreviation Self := (MypaintCanvas B).

Definition set_base (x : Canvas B) (c : Self) : Self :=
  mkMypaintCanvas x (_brush_size c) (_enabled c) (_visible c) (_size c) (_drawing c)
    (_has_sketch c) (_saved_brush_size c) (_saved_image c).

Definition set__brush_size (x : Z) (c : Self) : Self :=
  mkMypaintCanvas (base c) x (_enabled c) (_visible c) (_size c) (_drawing c)
    (_has_sketch c) (_saved_brush_size c) (_saved_image c).

Definition set__enabled (x : bool) (c : Self) : Self :=
  mkMypaintCanvas (base c) (_brush_size c) x (_visible c) (_size c) (_drawing c)
    (_has_sketch c) (_saved_brush_size c) (_saved_image c).

Definition set__visible (x : bool) (c : Self) : Self :=
  mkMypaintCanvas (base c) (_brush_size c) (_enabled c) x (_size c) (_drawing c)
    (_has_sketch c) (_saved_brush_size c) (_saved_image c).

Definition set__drawing (x : bool) (c : Self) : Self :=
  mkMypaintCanvas (base c) (_brush_size c) (_enabled c) (_visible c) (_size c) x
    (_has_sketch c) (_saved_brush_size c) (_saved_image c).

Definition set__has_sketch (x : bool) (c : Self) : Self :=
  mkMypaintCanvas (base c) (_brush_size c) (_enabled c) (_visible c) (_size c) (_drawing c)
    x (_saved_brush_size c) (_saved_image c).

Definition set__saved_brush_size (x : option Z) (c : Self) : Self :=
  mkMypaintCanvas (base c) (_brush_size c) (_enabled c) (_visible c) (_size c) (_drawing c)
    (_has_sketch c) x (_saved_image c).

Definition set__saved_image (x : option QImage) (c : Self) : Self :=
  mkMypaintCanvas (base c) (_brush_size c) (_enabled c) (_visible c) (_size c) (_drawing c)
    (_has_sketch c) (_saved_brush_size c) x.

(** [super().method(...)]: a method of class [Canvas] run on this object. *)
Definition super {A} (m : M (Canvas B) A) : M Self A :=
  fun c => let '(r, x) := m (base c) in (r, set_base x c).

(** [brushlib.call(...)] *)
Definition brushlib (f : B -> B) : M Self unit :=
  modify (fun c => set_base (set_surface (f (surface (base c))) (base c)) c).

(** [self.set_image(image)] and [self.get_qimage()] *)
Definition self_set_image (image_data : QImage) : M Self unit := brushlib (set_image image_data).

Definition self_get_qimage : M Self QImage := gets (fun c => get_qimage (surface (base c))).

(** [Canvas.brush_size] *)
Definition brush_size : M Self Z := gets _brush_size.

(** [MypaintCanvas.has_sketch] *)
Definition has_sketch : M Self bool := gets _has_sketch.

(** The first [int] whose half is too large for a float: [size / 2]
    raises [OverflowError] from there on, and from its negative down. *)
Definition FLOAT_LIMIT : Z := 2 ^ 1025 - 2 ^ 971.

(** [MypaintCanvas.set_brush_size]: [Canvas.set_brush_size] records the
    size first; [size / 2] raises [OverflowError] when the quotient, of
    either sign, does not fit a float, and [math.log] raises [ValueError]
    unless its argument is above 0. *)
Definition set_brush_size (size : Z) : M Self unit :=
  modify (set__brush_size size) ;;
  if (FLOAT_LIMIT <=? size) || (size <=? - FLOAT_LIMIT) then raise OverflowError
  else if size <=? 0 then raise ValueError
  else brushlib (set_radius_log (log_half size)).

(** [MypaintCanvas.start_stroke] *)
Definition start_stroke : M Self unit :=
  fun c =>
    if negb (_visible c) then ret tt c
    else
      (super (@start_stroke B host) ;;
       brushlib brushlib_start_stroke ;;
       modify (set__drawing true)) c.

(** [MypaintCanvas.end_stroke] *)
Definition end_stroke : M Self unit :=
  fun c =>
    if negb (_visible c) then ret tt c
    else
      (brushlib brushlib_end_stroke ;;
       modify (set__drawing false) ;;
       (fun c =>
          match _saved_brush_size c with
          | Some saved =>
              (set_brush_size saved ;;
               modify (set__saved_brush_size None)) c
          | None => ret tt c
          end)) c.

(** [brushlib.basic_stroke_to(x, y)] without a pressure value, and
    [brushlib.stroke_to(x, y, size_multiplier, 0.0, 0.0)] with one. *)
Definition stroke_towards (x y : Z) (size_multiplier : option F) : M Self unit :=
  match size_multiplier with
  | None => brushlib (basic_stroke_to x y)
  | Some pressure => brushlib (stroke_to x y pressure)
  end.

(** [MypaintCanvas._draw] *)
Definition _draw (pos : Pos) (color : QColor) (size_multiplier : option F)
    (size_override : option Z) : M Self unit :=
  fun c =>
    if negb (_visible c) then ret tt c
    else
      ((match size_override with
        | Some override =>
            (fun c =>
               match _saved_brush_size c with
               | None => (current <- brush_size ;;
                          modify (set__saved_brush_size (Some current))) c
               | Some _ => ret tt c
               end) ;;
            set_brush_size override
        | None => ret tt
        end) ;;
       modify (set__has_sketch true) ;;
       brushlib (set_brush_color color) ;;
       (fun c =>
          if negb (_drawing c)
          then (start_stroke ;;
                match pos with
                | AlongLine l => stroke_towards (ln_x1 l) (ln_y1 l) size_multiplier
                | AtPoint _ => ret tt
                end) c
          else ret tt c) ;;
       match pos with
       | AlongLine l => stroke_towards (ln_x2 l) (ln_y2 l) size_multiplier
       | AtPoint p => stroke_towards (pt_x p) (pt_y p) size_multiplier
       end) c.

(** [MypaintCanvas.draw_point] *)
Definition draw_point (point : QPoint) (color : QColor) (size_multiplier : option F)
    (size_override : option Z) : M Self unit :=
  fun c =>
    if negb (_visible c) then ret tt c
    else _draw (AtPoint point) color size_multiplier size_override c.

(** [MypaintCanvas.draw_line] *)
Definition draw_line (line : QLine) (color : QColor) (size_multiplier : option F)
    (size_override : option Z) : M Self unit :=
  fun c =>
    if negb (_visible c) then ret tt c
    else _draw (AlongLine line) color size_multiplier size_override c.

(** The image of the given size with every pixel of one colour. *)
Definition filled_image (size : QSize) (color : QColor) : QImage :=
  mkQImage (sz_width size) (sz_height size)
    (repeat (repeat color (Z.to_nat (sz_width size))) (Z.to_nat (sz_height size))).

(** [MypaintCanvas.fill] *)
Definition fill (color : QColor) : M Self unit :=
  fun c =>
    if negb (_visible c) then ret tt c
    else
      (super (@fill B host color) ;;
       modify (set__has_sketch true) ;;
       size <- gets (fun c => size (surface (base c))) ;;
       self_set_image (qt_filled size color)) c.

(** [MypaintCanvas.clear] *)
Definition clear : M Self unit :=
  super (@clear B host) ;;
  modify (set__has_sketch false) ;;
  brushlib clear_surface.

(** [MypaintCanvas.setVisible] *)
Definition setVisible (visible : bool) : M Self unit :=
  fun c =>
    if Bool.eqb visible (_visible c) then ret tt c
    else
      (modify (set__visible visible) ;;
       (fun c =>
          if _visible c
          then
            match _saved_image c with
            | Some saved =>
                (self_set_image saved ;;
                 modify (set__saved_image None)) c
            | None => ret tt c
            end
          else
            (image <- self_get_qimage ;;
             modify (set__saved_image (Some image)) ;;
             clear) c)) c.

(** [Canvas.set_enabled] on a [MypaintCanvas], which has [setVisible]; the
    signal emitted at the end is Qt's. *)
Definition set_enabled (enabled : bool) : M Self unit :=
  fun c =>
    if negb (Bool.eqb enabled (_enabled c))
    then (modify (set__enabled enabled) ;; setVisible enabled) c
    else ret tt c.

(** [MypaintCanvas.set_image] on a [QSize]: the surface is cleared, and
    resized if the size differs. *)
Definition set_image_size (size_data : QSize) (b : B) : B :=
  let b := clear_surface b in
  if negb (QSize_eqb (size b) size_data) then set_surface_size size_data b else b.

(** [MypaintCanvas.__init__], on the engine as it finds it:
    [Canvas.__init__] sets the brush size, the stacks and, through
    [set_image(size)], the surface. *)
Definition MypaintCanvas_init (size : QSize) (b : B) : Self :=
  let b := set_image_size size b in
  let b := set_surface_size size b in
  let b := set_image_size size b in
  mkMypaintCanvas (@Canvas_init B b) 1 true true size false false None None.

(** [Canvas.undo], [Canvas.redo] and [Canvas.get_color_at_point],
    inherited. *)
Definition undo : M Self unit := super (@undo B host).

Definition redo : M Self unit := super (@redo B host).

Definition get_color_at_point (point : QPoint) : M Self QColor :=
  super (@get_color_at_point B host point).

(** *** A stroke, as [CanvasWidget] drives it *)

(** One call of [draw_point] or [draw_line]. *)
Inductive DrawCall : Type :=
| DrawPoint (point : QPoint) (color : QColor) (size_multiplier : option F)
    (size_override : option Z)
| DrawLine (line : QLine) (color : QColor) (size_multiplier : option F)
    (size_override : option Z).

Definition size_override_of (d : DrawCall) : option Z :=
  match d with
  | DrawPoint _ _ _ o => o
  | DrawLine _ _ _ o => o
  end.

Definition draw (d : DrawCall) : M Self unit :=
  match d with
  | DrawPoint p color m o => draw_point p color m o
  | DrawLine l color m o => draw_line l color m o
  end.

Fixpoint draw_all (ds : list DrawCall) : M Self unit :=
  match ds with
  | [] => ret tt
  | d :: rest => draw d ;; draw_all rest
  end.

(** Mouse press, moves and release: [start_stroke], the drawing calls,
    [end_stroke]. *)
Definition stroke (ds : list DrawCall) : M Self unit :=
  start_stroke ;; draw_all ds ;; end_stroke.

(** A size that [set_brush_size] accepts. *)
Definition size_fits (size : Z) : Prop := 0 < size < FLOAT_LIMIT.

Definition override_fits (d : DrawCall) : Prop :=
  match size_override_of d with
  | Some size => size_fits size
  | None => True
  end.

(** Between [start_stroke] and [end_stroke]: the canvas is drawing, the
    stacks and the clock stand still, and the brush size to come back to
    is either the current one or the saved one. *)
Definition mid_stroke (u r : list UndoState) (n : nat) (b0 : Z) (c : Self) : Prop :=
  _visible c = true /\ _drawing c = true /\
  _undo_stack (base c) = u /\ _redo_stack (base c) = r /\
  clock_reads (base c) = n /\
  ((_saved_brush_size c = None /\ _brush_size c = b0) \/
   _saved_brush_size c = Some b0).

(** The calls that a hidden canvas answers by returning at once. *)
Inductive GuardedCall : Type :=
| CallStartStroke
| CallEndStroke
| CallDraw (d : DrawCall)
| CallFill (color : QColor).

Definition run_call (k : GuardedCall) : M Self unit :=
  match k with
  | CallStartStroke => start_stroke
  | CallEndStroke => end_stroke
  | CallDraw d => draw d
  | CallFill color => fill color
  end.

Fixpoint run_calls (ks : list GuardedCall) : M Self unit :=
  match ks with
  | [] => ret tt
  | k :: rest => run_call k ;; run_calls rest
  end.

End Methods.

End Mypaint.

(** ** A small brush engine for concrete runs

    The surface is an image; a stroke paints the pixel it moves to with
    the brush colour, and a fill takes the colour as it is. *)

Module DemoEngine.

(** A float as far as these runs need one: a pen pressure, or the
    logarithm [math.log(size / 2)], kept as written. *)
Inductive float : Type :=
| Pressure (q : Q)
| LogHalf (size : Z).

Record lib : Type := mkLib {
  pixels : QImage;
  colour : QColor;
  radius_log : option float;
  stroking : bool
}.

Definition with_pixels (i : QImage) (l : lib) : lib :=
  mkLib i (colour l) (radius_log l) (stroking l).

Fixpoint replace_nth {A} (n : nat) (x : A) (l : list A) : list A :=
  match l, n with
  | [], _ => []
  | _ :: rest, O => x :: rest
  | a :: rest, S n => a :: replace_nth n x rest
  end.

Definition paint_pixel (x y : Z) (c : QColor) (i : QImage) : QImage :=
  if (x <? 0) || (y <? 0) then i
  else
    match nth_error (scanlines i) (Z.to_nat y) with
    | Some row =>
        mkQImage (img_width i) (img_height i)
          (replace_nth (Z.to_nat y) (replace_nth (Z.to_nat x) c row) (scanlines i))
    | None => i
    end.

Definition engine : Mypaint.Engine lib float := {|
  Mypaint.surface_size := fun l => QImage_size (pixels l);
  Mypaint.set_surface_size := fun s l => with_pixels (Demo.nearest_scaled (pixels l) s) l;
  Mypaint.clear_surface := fun l => with_pixels (recolour Demo.blank (pixels l)) l;
  Mypaint.load_image := fun i l => with_pixels i l;
  Mypaint.render_image := pixels;
  Mypaint.brushlib_start_stroke := fun l => mkLib (pixels l) (colour l) (radius_log l) true;
  Mypaint.brushlib_end_stroke := fun l => mkLib (pixels l) (colour l) (radius_log l) false;
  Mypaint.stroke_to := fun x y _ l => with_pixels (paint_pixel x y (colour l) (pixels l)) l;
  Mypaint.basic_stroke_to := fun x y l => with_pixels (paint_pixel x y (colour l) (pixels l)) l;
  Mypaint.set_brush_color := fun c l => mkLib (pixels l) c (radius_log l) (stroking l);
  Mypaint.set_radius_log := fun v l => mkLib (pixels l) (colour l) (Some v) (stroking l);
  Mypaint.log_half := LogHalf;
  Mypaint.qt_scaled := Demo.nearest_scaled;
  Mypaint.qt_filled := fun s c => Mypaint.filled_image s c;
  Mypaint.clock := fun n => 1700000000 + Z.of_nat n
|}.

(** The engine before the program starts, and a new 2 by 2 canvas on it. *)
Definition idle : lib := mkLib (mkQImage 0 0 []) Demo.blank None false.

Definition fresh : Mypaint.MypaintCanvas lib :=
  @Mypaint.MypaintCanvas_init lib float engine (mkQSize 2 2) idle.

(** Press, two moves with the right button (size 1), release. *)
Definition scribble : list (@Mypaint.DrawCall float) :=
  [Mypaint.DrawPoint (mkQPoint 0 0) Demo.red None (Some 1);
   Mypaint.DrawLine (mkQLine 0 0 1 0) Demo.red (Some (Pressure (1 # 2))) (Some 1);
   Mypaint.DrawLine (mkQLine 1 0 1 1) Demo.blue (Some (Pressure 1)) None].

End DemoEngine.

(** ** [pydemo/util/contrast_color.py] *)

(** [QColor.red()], [green()], [blue()]; an invalid colour reads as 0. *)
Definition QColor_red (c : QColor) : Z :=
  match c with QColor_rgba r _ _ _ => r | QColor_invalid => 0 end.

Definition QColor_green (c : QColor) : Z :=
  match c with QColor_rgba _ g _ _ => g | QColor_invalid => 0 end.

Definition QColor_blue (c : QColor) : Z :=
  match c with QColor_rgba _ _ b _ => b | QColor_invalid => 0 end.

(** What [contrast_color] is called with: a [QWidget], of which only the
    palette's foreground colour matters, a [QColor], or anything else. *)
Inductive ContrastSource : Type :=
| OfWidget (foreground : QColor)
| OfColor (c : QColor)
| OfOther.

(** What it returns: the widget's colour, or [Qt.black] or [Qt.white]. *)
Inductive Contrast : Type :=
| PaletteColor (c : QColor)
| Qt_black
| Qt_white.

Section ContrastColor.

Local Open Scope Q_scope.
Local Open Scope pyexpr_scope.

(** [x ** y] on floats, as the C library computes it. *)
Variable pow : Q -> Q -> Q.

(** A decimal literal of the source: the nearest binary64 number. *)
Definition literal (q : Q) : Q := Float64.rnd64 q.

(** [adjust_component], the function local to [contrast_color] *)
Definition adjust_component (c : Q) : result Q :=
  if Qle_bool c (literal (3928 # 100000))
  then fdiv binary64 c (literal (1292 # 100))
  else
    x <- fdiv binary64 (fadd binary64 c (literal (55 # 1000))) (literal (1055 # 1000)) ;;
    Ok (pow x (literal (24 # 10))).

(** [contrast_color] *)
Definition contrast_color (source : ContrastSource) : result Contrast :=
  match source with
  | OfWidget foreground => Ok (PaletteColor foreground)
  | OfColor c =>
      cr <- int_truediv binary64 (QColor_red c) 255 ;;
      r <- adjust_component cr ;;
      cg <- int_truediv binary64 (QColor_green c) 255 ;;
      g <- adjust_component cg ;;
      cb <- int_truediv binary64 (QColor_blue c) 255 ;;
      b <- adjust_component cb ;;
      let relative_luminance :=
        fadd binary64
          (fadd binary64 (fmul binary64 (literal (2126 # 10000)) r)
                         (fmul binary64 (literal (7152 # 10000)) g))
          (fmul binary64 (literal (722 # 10000)) b) in
      if fltb binary64 relative_luminance (literal (179 # 1000))
      then Ok Qt_black else Ok Qt_white
  | OfOther => Raise ValueError
  end.

End ContrastColor.

(** The largest channel that takes the first branch of
    [adjust_component], 10, as [10 / 255], and its adjusted value. *)
Definition c10 : Q := Eval vm_compute in Float64.rnd64 (fl 10 / fl 255).

Definition a10 : Q := Eval vm_compute in Float64.rnd64 (c10 / literal (1292 # 100)).

(** ** [pydemo/brush_picker.py]: [BrushPicker._read_order_file]

    A Python [str] is a [String.string] here, the bytes of its UTF-8
    form: the characters the method looks for are ASCII and occur in no
    other character's bytes. *)

Module OrderFile.

Import Ascii String.

(** [s.split(sep)] for a separator of one character. *)
Fixpoint split (sep : ascii) (s : string) : list string :=
  match s with
  | EmptyString => [EmptyString]
  | String c rest =>
      if Ascii.eqb c sep then EmptyString :: split sep rest
      else match split sep rest with
           | first :: others => String c first :: others
           | [] => [String c EmptyString]
           end
  end.

(** [sep in s] *)
Fixpoint contains (sep : ascii) (s : string) : bool :=
  match s with
  | EmptyString => false
  | String c rest => Ascii.eqb c sep || contains sep rest
  end.

(** The number of times [sep] occurs in [s]. *)
Fixpoint occurrences (sep : ascii) (s : string) : nat :=
  match s with
  | EmptyString => O
  | String c rest => ((if Ascii.eqb c sep then 1 else 0) + occurrences sep rest)%nat
  end.

(** What is left of [s] after the prefix [p], if [s] starts with it. *)
Fixpoint after_prefix (p s : string) : option string :=
  match p, s with
  | EmptyString, _ => Some s
  | String a p', String b s' => if Ascii.eqb a b then after_prefix p' s' else None
  | String _ _, EmptyString => None
  end.

(** The longest prefix without [#]: what [[^#]+] takes, greedily. *)
Fixpoint until_hash (s : string) : string :=
  match s with
  | EmptyString => EmptyString
  | String c rest => if Ascii.eqb c "#" then EmptyString else String c (until_hash rest)
  end.

(** [re.search(r'^Group: ([^#]+)', line)] and its [group(1)]: without
    [re.MULTILINE], [^] is the start of the string. *)
Definition group_match (line : string) : option string :=
  match after_prefix "Group: " line with
  | Some rest =>
      match until_hash rest with
      | EmptyString => None
      | name => Some name
      end
  | None => None
  end.

(** A [dict] from group names to brush lists. *)
Definition dict : Type := list (string * list string).

(** [key in d] *)
Definition dict_in (key : string) (d : dict) : bool :=
  existsb (fun kv => String.eqb (fst kv) key) d.

(** [d[key] = value] *)
Definition dict_set (key : string) (value : list string) (d : dict) : dict :=
  if dict_in key d
  then map (fun kv => if String.eqb (fst kv) key then (fst kv, value) else kv) d
  else d ++ [(key, value)].

(** [d[key].append(x)], for a key that is there. *)
Definition dict_append (key : string) (x : string) (d : dict) : dict :=
  map (fun kv => if String.eqb (fst kv) key then (fst kv, snd kv ++ [x]) else kv) d.

(** [d[key]] *)
Definition dict_get (key : string) (d : dict) : option (list string) :=
  match find (fun kv => String.eqb (fst kv) key) d with
  | Some kv => Some (snd kv)
  | None => None
  end.

(** The two attributes of [BrushPicker] the method writes. *)
Record BrushPicker : Type := mkBrushPicker {
  _groups : list string;
  _group_orders : dict
}.

Local Open Scope py_scope.

(** [self._groups.append(group); self._group_orders[group] = []] *)
Definition new_group (group : string) (p : BrushPicker) : BrushPicker :=
  mkBrushPicker (Py.append (_groups p) group) (dict_set group [] (_group_orders p)).

(** One turn of the loop over the lines. *)
Definition read_line (line : string) : M BrushPicker unit :=
  match group_match line with
  | Some group => modify (new_group group)
  | None =>
      if negb (contains "/" line) then ret tt
      else
        match split "/" line with
        | [group; brush] =>
            (fun p =>
               if negb (dict_in group (_group_orders p))
               then modify (new_group group) p
               else ret tt p) ;;
            modify (fun p =>
                      mkBrushPicker (_groups p)
                        (dict_append group brush (_group_orders p)))
        | _ => raise ValueError
        end
  end.

Fixpoint read_lines (lines : list string) : M BrushPicker unit :=
  match lines with
  | [] => ret tt
  | line :: rest => read_line line ;; read_lines rest
  end.

(** [BrushPicker._read_order_file]: [None] for a path that does not exist,
    else the lines of the file, each already stripped. *)
Definition _read_order_file (file : option (list string)) : M BrushPicker bool :=
  match file with
  | None => ret false
  | Some lines => read_lines lines ;; ret true
  end.

(** A line that cannot be unpacked into group and brush. *)
Definition unreadable (line : string) : Prop :=
  group_match line = None /\ (2 <= occurrences "/" line)%nat.

(** Every group listed has its order list, and the other way round. *)
Definition in_step (p : BrushPicker) : Prop :=
  forall group : string,
    In group (_groups p) <-> dict_in group (_group_orders p) = true.

End OrderFile.

(** * Properties *)

(** ** Lists and sizes *)

Lemma len_append {A} (l : list A) (x : A) : len (append l x) = len l + 1.
Proof. unfold len, append; rewrite length_app; cbn; lia. Qed.

Lemma len_append_pos {A} (l : list A) (x : A) : (len (append l x) =? 0) = false.
Proof. rewrite len_append; unfold len; apply Z.eqb_neq; lia. Qed.

Lemma pop_append {A} (l : list A) (x : A) : pop (append l x) = Ok (x, l).
Proof.
  unfold pop, append. rewrite rev_app_distr; cbn. now rewrite rev_involutive.
Qed.

Lemma index_last_append {A} (l : list A) (x : A) : index (append l x) (-1) = Ok x.
Proof.
  unfold index. rewrite len_append. cbn [Z.ltb Z.compare].
  replace (-1 + (len l + 1)) with (len l) by lia.
  assert (0 <= len l) by (unfold len; lia).
  replace (len l <? 0) with false by (symmetry; apply Z.ltb_ge; lia).
  replace (len l + 1 <=? len l) with false by (symmetry; apply Z.leb_gt; lia).
  cbn. unfold len, append. rewrite Nat2Z.id, nth_error_app2 by lia.
  now rewrite Nat.sub_diag.
Qed.

Lemma index_nil {A} (i : Z) : index (@nil A) i = Raise IndexError.
Proof.
  unfold index, len; cbn. destruct (i <? 0) eqn:E.
  - rewrite Z.add_0_r, E; reflexivity.
  - replace (0 <=? i) with true by (symmetry; apply Z.leb_le, Z.ltb_ge, E).
    now rewrite orb_true_r.
Qed.

Lemma trim_most_recent {A} (l : list A) : trim l = most_recent 30 l.
Proof.
  unfold trim, most_recent, slice_from, MAX_UNDO, len.
  destruct (30 <? Z.of_nat (length l)) eqn:E.
  - apply Z.ltb_lt in E. cbn [Z.opp Z.ltb Z.compare].
    f_equal. lia.
  - apply Z.ltb_ge in E. replace (length l - 30)%nat with 0%nat by lia.
    reflexivity.
Qed.

Lemma most_recent_length {A} (n : nat) (l : list A) :
  length (most_recent n l) = Nat.min n (length l).
Proof. unfold most_recent; rewrite length_skipn; lia. Qed.

Lemma most_recent_all {A} (n : nat) (l : list A) :
  (length l <= n)%nat -> most_recent n l = l.
Proof.
  intros L; unfold most_recent. now replace (length l - n)%nat with 0%nat by lia.
Qed.

Lemma most_recent_app {A} (n : nat) (l k : list A) :
  (n <= length k)%nat -> most_recent n (l ++ k) = most_recent n k.
Proof.
  intros L; unfold most_recent. rewrite length_app, skipn_app.
  replace (length l + length k - n - length l)%nat with (length k - n)%nat by lia.
  rewrite skipn_all2 by lia. reflexivity.
Qed.

Lemma exists_last_or_nil {A} (l : list A) :
  l = [] \/ exists l' x, l = l' ++ [x].
Proof.
  destruct l as [| a l]; [left; reflexivity | right].
  destruct (@exists_last _ (a :: l)) as [l' [x E]]; [discriminate |].
  exists l', x; exact E.
Qed.

(** ** The history methods, statement by statement *)

Section CanvasFacts.

Context {Surface : Type} `{H : Host Surface}.

Local Abbreviation Self := (Canvas Surface).

Lemma save_undo_state_eq (b : bool) (c : Self) :
  _save_undo_state b c =
  (Ok tt,
   mkCanvas (surface c)
     (trim (append (_undo_stack c) (snapshot c)))
     (if b then [] else _redo_stack c)
     (S (clock_reads c))).
Proof.
  unfold _save_undo_state, bind, self_get_qimage, gets, UndoState_init, modify,
    set_undo_stack, set_redo_stack, trim, snapshot, QImage_copy.
  cbn [surface _undo_stack _redo_stack clock_reads].
  destruct (MAX_UNDO <? len (append (_undo_stack c) _)); destruct b; reflexivity.
Qed.

Lemma undo_nonempty_eq (s : Surface) (l r : list UndoState) (u : UndoState) (n : nat) :
  undo (mkCanvas s (l ++ [u]) r n) =
  (Ok tt,
   mkCanvas (set_image (fitted (image u) s) s) l
     (r ++ [mkUndoState (get_qimage s) (now n)]) (S n)).
Proof.
  unfold undo. change (l ++ [u]) with (append l u).
  cbn [_undo_stack]. rewrite len_append_pos.
  unfold bind, self_get_qimage, gets, UndoState_init, modify, lift,
    set_undo_stack, set_redo_stack, self_size, self_set_image, set_surface,
    fitted, QImage_copy; cbn.
  rewrite pop_append; cbn. reflexivity.
Qed.

Lemma undo_empty_eq (c : Self) : _undo_stack c = [] -> undo c = (Ok tt, c).
Proof. intros E; unfold undo; rewrite E; reflexivity. Qed.

Lemma redo_empty_eq (c : Self) : _redo_stack c = [] -> redo c = (Ok tt, c).
Proof. intros E; unfold redo; rewrite E; reflexivity. Qed.

(** [redo] with something to redo: the undo state is saved, the entry is
    popped, and [image.size()] raises on the popped [UndoState]. *)
Lemma redo_nonempty_eq (s : Surface) (l r : list UndoState) (u : UndoState) (n : nat) :
  redo (mkCanvas s l (r ++ [u]) n) =
  (Raise AttributeError,
   mkCanvas s (trim (append l (mkUndoState (get_qimage s) (now n)))) r (S n)).
Proof.
  unfold redo. change (r ++ [u]) with (append r u).
  cbn [_redo_stack]. rewrite len_append_pos.
  unfold bind at 1. rewrite save_undo_state_eq. cbn.
  unfold bind, lift, modify, set_redo_stack; cbn.
  rewrite pop_append; cbn. reflexivity.
Qed.

(** [last_undo_timestamp] is the time of the newest entry, [None] without one. *)
Lemma last_undo_timestamp_eq (c : Self) :
  last_undo_timestamp c =
  (Ok (match rev (_undo_stack c) with [] => None | u :: _ => Some (timestamp u) end), c).
Proof.
  destruct c as [s us rs n]. destruct (exists_last_or_nil us) as [-> | [l [u ->]]].
  - reflexivity.
  - change (l ++ [u]) with (append l u).
    cbv beta iota delta [last_undo_timestamp bind undo_count gets lift ret _undo_stack].
    rewrite len_append_pos. cbv beta iota. rewrite index_last_append.
    unfold append. rewrite rev_app_distr. reflexivity.
Qed.

(** [last_redo_timestamp] tests the undo stack and then indexes the redo
    stack: with something to undo and nothing to redo it raises. *)
Lemma last_redo_timestamp_raises (s : Surface) (l : list UndoState) (u : UndoState) (n : nat) :
  last_redo_timestamp (mkCanvas s (l ++ [u]) [] n)
  = (Raise IndexError, mkCanvas s (l ++ [u]) [] n).
Proof.
  change (l ++ [u]) with (append l u).
  cbv beta iota delta [last_redo_timestamp bind redo_count gets lift ret
                       _undo_stack _redo_stack].
  rewrite len_append_pos. cbv beta iota. rewrite index_nil. reflexivity.
Qed.

End CanvasFacts.

Lemma most_recent_absorb {A} (n : nat) (l k : list A) :
  most_recent n (most_recent n l ++ k) = most_recent n (l ++ k).
Proof.
  unfold most_recent.
  destruct (Nat.le_gt_cases (length l) n) as [L | L].
  - now replace (length l - n)%nat with 0%nat by lia.
  - rewrite !length_app, length_skipn, !skipn_app, length_skipn, skipn_skipn.
    f_equal; f_equal; lia.
Qed.

Section HistoryClaims.

Context {Surface : Type} `{H : Host Surface}.

Local Abbreviation Self := (Canvas Surface).

Lemma save_then_edit_eq (step : bool * (Surface -> Surface)) (c : Self) :
  save_then_edit step c =
  (Ok tt,
   mkCanvas (snd step (surface c))
     (most_recent 30 (_undo_stack c ++ [snapshot c]))
     (if fst step then [] else _redo_stack c)
     (S (clock_reads c))).
Proof.
  unfold save_then_edit, bind. rewrite save_undo_state_eq, trim_most_recent.
  reflexivity.
Qed.

Lemma save_all_spec (steps : list (bool * (Surface -> Surface))) :
  forall c : Self,
    fst (save_all steps c) = Ok tt /\
    (steps <> [] ->
     _undo_stack (snd (save_all steps c)) =
     most_recent 30 (_undo_stack c ++ pushed steps (surface c) (clock_reads c))).
Proof.
  induction steps as [| step rest IH]; intros c.
  - split; [reflexivity | congruence].
  - cbn [save_all pushed]. unfold bind. rewrite save_then_edit_eq.
    destruct (IH (mkCanvas (snd step (surface c))
                    (most_recent 30 (_undo_stack c ++ [snapshot c]))
                    (if fst step then [] else _redo_stack c)
                    (S (clock_reads c)))) as [Hok Hstack].
    split; [exact Hok | intros _].
    destruct rest as [| step' rest'].
    + reflexivity.
    + rewrite Hstack by discriminate. cbn [surface _undo_stack clock_reads].
      rewrite most_recent_absorb, <- app_assoc. reflexivity.
Qed.

Lemma pushed_length (steps : list (bool * (Surface -> Surface))) :
  forall s n, length (pushed steps s n) = length steps.
Proof. induction steps as [| step rest IH]; intros s n; cbn; [| rewrite IH]; reflexivity. Qed.

(** C2. Over any series of saves (each followed by an arbitrary change of
    the surface), started with at most [MAX_UNDO] undo states: every save
    returns, [undo_count()] is the depth of the undo stack and stays at
    most [MAX_UNDO], and the stack holds exactly the [MAX_UNDO] most recent
    of the states that were on it or have been pushed since, in push order.
    With more than [MAX_UNDO] saves these are the last [MAX_UNDO] pushed
    states, and the count is [MAX_UNDO]. *)
Theorem undo_stack_keeps_most_recent
    (steps : list (bool * (Surface -> Surface))) (c : Self) :
  len (_undo_stack c) <= MAX_UNDO ->
  let c' := snd (save_all steps c) in
  let log := pushed steps (surface c) (clock_reads c) in
  fst (save_all steps c) = Ok tt /\
  undo_count c' = (Ok (len (_undo_stack c')), c') /\
  len (_undo_stack c') <= MAX_UNDO /\
  _undo_stack c' = most_recent (Z.to_nat MAX_UNDO) (_undo_stack c ++ log) /\
  length log = length steps /\
  (MAX_UNDO < len steps ->
   _undo_stack c' = most_recent (Z.to_nat MAX_UNDO) log /\
   len (_undo_stack c') = MAX_UNDO).
Proof.
  intros Hc c' log. change (Z.to_nat MAX_UNDO) with 30%nat.
  destruct (save_all_spec steps c) as [Hok Hstack].
  assert (Hlog : length log = length steps) by apply pushed_length.
  assert (Heq : _undo_stack c' = most_recent 30 (_undo_stack c ++ log)).
  { destruct steps as [| step rest].
    - cbn. rewrite app_nil_r, most_recent_all; [reflexivity |].
      unfold len, MAX_UNDO in Hc; lia.
    - apply Hstack; discriminate. }
  repeat split; try assumption.
  - rewrite Heq. unfold len, MAX_UNDO. rewrite most_recent_length. lia.
  - rewrite Heq. apply most_recent_app. unfold len, MAX_UNDO in *. lia.
  - rewrite Heq. unfold len, MAX_UNDO in *.
    rewrite most_recent_length, length_app. lia.
Qed.

(** The bound holds over every series of operations, not only saves. *)
Lemma run_op_bounded (o : HistoryOp) (c : Self) :
  len (_undo_stack c) <= MAX_UNDO ->
  len (_undo_stack (snd (run_op o c))) <= MAX_UNDO.
Proof.
  intros Hc. destruct o as [b f | | |]; cbn [run_op].
  - rewrite save_then_edit_eq; cbn. unfold len, MAX_UNDO.
    rewrite most_recent_length. lia.
  - destruct c as [s us rs n]. destruct (exists_last_or_nil us) as [-> | [l [u ->]]].
    + rewrite undo_empty_eq by reflexivity. exact Hc.
    + rewrite undo_nonempty_eq. cbn in *. unfold len in *.
      rewrite length_app in Hc; cbn in Hc. lia.
  - destruct c as [s us rs n]. destruct (exists_last_or_nil rs) as [-> | [l [u ->]]].
    + rewrite redo_empty_eq by reflexivity. exact Hc.
    + rewrite redo_nonempty_eq, trim_most_recent. cbn. unfold len, MAX_UNDO.
      rewrite most_recent_length. lia.
  - cbn. unfold MAX_UNDO; lia.
Qed.

Lemma run_ops_bounded (ops : list HistoryOp) :
  forall c : Self,
    len (_undo_stack c) <= MAX_UNDO ->
    len (_undo_stack (run_ops ops c)) <= MAX_UNDO.
Proof.
  induction ops as [| o rest IH]; intros c Hc; cbn [run_ops]; [exact Hc |].
  apply IH, run_op_bounded, Hc.
Qed.

(** C1. With something to undo, [undo()] followed at once by [redo()]
    does not bring the content back: [redo] pops the [UndoState] object
    itself, and [image.size()] raises [AttributeError] on it before
    anything is installed. The surface stays as [undo] left it, the entry
    is gone from the redo stack, and the undo stack has grown again. *)
Theorem undo_then_redo_raises
    (s : Surface) (l r : list UndoState) (u : UndoState) (n : nat) :
  let c := mkCanvas s (l ++ [u]) r n in
  let out := bind undo (fun _ => redo) c in
  fst out = Raise AttributeError /\
  surface (snd out) = surface (snd (undo c)) /\
  surface (snd out) = set_image (fitted (image u) s) s /\
  _redo_stack (snd out) = r.
Proof.
  intros c out. subst out c. unfold bind.
  rewrite undo_nonempty_eq, redo_nonempty_eq. cbn. repeat split.
Qed.

(** C3. After [MAX_UNDO + 5] saves on a new canvas [undo_count()] is
    [MAX_UNDO]; after one [undo()] it is [MAX_UNDO - 1] and the redo stack
    holds one entry, but [redo_count()] returns [MAX_UNDO - 1]: it reads
    the undo stack. *)
Theorem redo_count_reads_undo_stack (s : Surface) :
  let c35 := snd (save_all (repeat (true, fun x : Surface => x) 35) (Canvas_init s)) in
  let c' := snd (undo c35) in
  fst (undo_count c35) = Ok MAX_UNDO /\
  fst (undo c35) = Ok tt /\
  fst (undo_count c') = Ok (MAX_UNDO - 1) /\
  len (_redo_stack c') = 1 /\
  fst (redo_count c') = Ok (MAX_UNDO - 1) /\
  (forall c : Self, redo_count c = (Ok (len (_undo_stack c)), c)).
Proof.
  vm_compute. repeat split.
Qed.

(** C5. Two operations raise on states a user reaches at once. After the
    first stroke on a new canvas [last_redo_timestamp()] raises
    [IndexError]: [redo_count()] reports the undo stack's depth, so the
    empty redo stack is indexed. After that stroke and an [undo()],
    [redo()] raises [AttributeError]. *)
Theorem history_operations_raise (s : Surface) :
  let c1 := snd (start_stroke (Canvas_init s)) in
  fst (last_redo_timestamp c1) = Raise IndexError /\
  fst (undo c1) = Ok tt /\
  fst (redo (snd (undo c1))) = Raise AttributeError.
Proof.
  vm_compute. repeat split.
Qed.

(** C6. [undo()] with an empty undo stack and [redo()] with an empty redo
    stack return without raising and leave the canvas, surface and both
    stacks, as it was. *)
Theorem undo_redo_on_empty_stack (c : Self) :
  (_undo_stack c = [] -> undo c = (Ok tt, c)) /\
  (_redo_stack c = [] -> redo c = (Ok tt, c)).
Proof. split; [apply undo_empty_eq | apply redo_empty_eq]. Qed.

(** C7. [_save_undo_state] with [clear_redo_stack] true returns with the
    redo stack empty, whatever was on it; so do [start_stroke], [fill]
    and [clear], which call it that way. *)
Theorem save_clears_redo_stack (c : Self) (color : QColor) :
  (fst (_save_undo_state true c) = Ok tt /\
   _redo_stack (snd (_save_undo_state true c)) = []) /\
  (fst (start_stroke c) = Ok tt /\ _redo_stack (snd (start_stroke c)) = []) /\
  (fst (fill color c) = Ok tt /\ _redo_stack (snd (fill color c)) = []) /\
  (fst (clear c) = Ok tt /\ _redo_stack (snd (clear c)) = []).
Proof.
  unfold start_stroke, fill, clear. rewrite save_undo_state_eq. cbn.
  repeat split.
Qed.

Lemma rect_contains_iff (i : QImage) (p : QPoint) :
  0 <= img_width i -> 0 <= img_height i ->
  QRect_contains (QImage_rect i) p = true <-> in_image i p.
Proof.
  intros Hw Hh. unfold QRect_contains, QImage_rect, in_image; cbn.
  replace (img_width i - 1 <? -1) with false by (symmetry; apply Z.ltb_ge; lia).
  replace (img_height i - 1 <? -1) with false by (symmetry; apply Z.ltb_ge; lia).
  rewrite andb_true_iff, !negb_true_iff, !orb_false_iff, !Z.ltb_ge. lia.
Qed.

Lemma pixelColor_stored (i : QImage) (p : QPoint) :
  QImage_wf i -> in_image i p ->
  exists row px,
    nth_error (scanlines i) (Z.to_nat (pt_y p)) = Some row /\
    nth_error row (Z.to_nat (pt_x p)) = Some px /\
    QImage_pixelColor i p = px.
Proof.
  intros (Hw & Hh & Hrows & Hcols) [Hx Hy]. unfold QImage_pixelColor.
  replace (pt_x p <? 0) with false by (symmetry; apply Z.ltb_ge; lia).
  replace (img_width i <=? pt_x p) with false by (symmetry; apply Z.leb_gt; lia).
  replace (pt_y p <? 0) with false by (symmetry; apply Z.ltb_ge; lia).
  replace (img_height i <=? pt_y p) with false by (symmetry; apply Z.leb_gt; lia).
  cbn [orb]. unfold len in *.
  destruct (nth_error (scanlines i) (Z.to_nat (pt_y p))) as [row |] eqn:Er.
  - assert (Hrow : Z.of_nat (length row) = img_width i).
    { rewrite Forall_forall in Hcols. apply Hcols. eapply nth_error_In, Er. }
    destruct (nth_error row (Z.to_nat (pt_x p))) as [px |] eqn:Ep.
    + exists row, px; repeat split; auto.
    + apply nth_error_None in Ep. lia.
  - apply nth_error_None in Er. lia.
Qed.

(** C10. On a canvas whose image is well formed, [get_color_at_point]
    returns without raising and without changing the canvas: for a point
    outside the image the fully transparent [QColor(0, 0, 0, 0)], and for
    a point inside it the colour stored for that pixel. *)
Theorem get_color_at_point_in_and_out (c : Self) (point : QPoint) :
  let img := get_qimage (surface c) in
  QImage_wf img ->
  (~ in_image img point ->
   get_color_at_point point c = (Ok (QColor_rgba 0 0 0 0), c)) /\
  (in_image img point ->
   exists row px,
     nth_error (scanlines img) (Z.to_nat (pt_y point)) = Some row /\
     nth_error row (Z.to_nat (pt_x point)) = Some px /\
     get_color_at_point point c = (Ok px, c)).
Proof.
  intros img Hwf.
  assert (Hiff := rect_contains_iff img point (proj1 Hwf) (proj1 (proj2 Hwf))).
  unfold get_color_at_point, bind, self_get_qimage, gets, ret. fold img.
  destruct (QRect_contains (QImage_rect img) point) eqn:E.
  - split; [intros N; exfalso; apply N, Hiff; reflexivity | intros Hin].
    destruct (pixelColor_stored img point Hwf Hin) as (row & px & Hr & Hp & Hc).
    exists row, px. repeat split; try assumption.
    rewrite <- Hc. reflexivity.
  - split; [reflexivity | intros Hin]. apply Hiff in Hin. discriminate.
Qed.

End HistoryClaims.

(** ** Concrete runs on the small host *)

(** The content before [undo] is blue; after [undo] and [redo] it is red. *)
Example undo_redo_loses_blue :
  get_qimage (surface Demo.painted_blue) = Demo.solid Demo.blue /\
  fst (bind undo (fun _ => redo) Demo.painted_blue) = Raise AttributeError /\
  get_qimage (surface (snd (bind undo (fun _ => redo) Demo.painted_blue)))
  = Demo.solid Demo.red.
Proof. repeat split. Qed.

Lemma keeps_most_recent_witness :
  let steps := map (fun k => (true, fun _ : QImage => Demo.solid (QColor_rgba k k k 255)))
                   (map Z.of_nat (seq 0 35)) in
  let c' := snd (save_all steps Demo.fresh) in
  let log := pushed steps (surface Demo.fresh) (clock_reads Demo.fresh) in
  fst (save_all steps Demo.fresh) = Ok tt /\
  undo_count c' = (Ok (len (_undo_stack c')), c') /\
  len (_undo_stack c') <= MAX_UNDO /\
  _undo_stack c' = most_recent (Z.to_nat MAX_UNDO) (_undo_stack Demo.fresh ++ log) /\
  length log = length steps /\
  (MAX_UNDO < len steps ->
   _undo_stack c' = most_recent (Z.to_nat MAX_UNDO) log /\
   len (_undo_stack c') = MAX_UNDO).
Proof.
  apply (undo_stack_keeps_most_recent
           (map (fun k => (true, fun _ : QImage => Demo.solid (QColor_rgba k k k 255)))
                (map Z.of_nat (seq 0 35))) Demo.fresh).
  vm_compute. discriminate.
Defined.

Lemma empty_stack_witness :
  undo Demo.fresh = (Ok tt, Demo.fresh) /\ redo Demo.fresh = (Ok tt, Demo.fresh).
Proof.
  split; apply (undo_redo_on_empty_stack Demo.fresh); reflexivity.
Defined.

Lemma get_color_witness :
  get_color_at_point (mkQPoint 5 0) Demo.painted_red = (Ok (QColor_rgba 0 0 0 0), Demo.painted_red) /\
  exists row px,
    nth_error (scanlines (Demo.solid Demo.red)) 1 = Some row /\
    nth_error row 0 = Some px /\
    get_color_at_point (mkQPoint 0 1) Demo.painted_red = (Ok px, Demo.painted_red).
Proof.
  assert (Hwf : QImage_wf (get_qimage (surface Demo.painted_red))).
  { repeat split; try (cbn; lia). repeat constructor. }
  split.
  - apply (get_color_at_point_in_and_out Demo.painted_red (mkQPoint 5 0) Hwf).
    unfold in_image; cbn; lia.
  - apply (get_color_at_point_in_and_out Demo.painted_red (mkQPoint 0 1) Hwf).
    unfold in_image; cbn; lia.
Defined.

(** ** Rounding to binary64 *)

Module Float64Facts.

Import Float64.
Local Open Scope Q_scope.

Lemma pow2_pos (e : Z) : 0 < pow2 e.
Proof. apply Qpower_0_lt; reflexivity. Qed.

Lemma pow2_add (a b : Z) : pow2 (a + b) == pow2 a * pow2 b.
Proof. apply Qpower_plus; discriminate. Qed.

Lemma pow2_le (a b : Z) : (a <= b)%Z -> pow2 a <= pow2 b.
Proof. intros L; apply Qpower_le_compat_l; [exact L | discriminate]. Qed.

Lemma pow2_Z (k : Z) : (0 <= k)%Z -> pow2 k == inject_Z (2 ^ k).
Proof. intros K; unfold pow2; now rewrite Zpower_Qpower. Qed.

(** *** The binade of a positive rational *)

Lemma floor_log2_spec (q : Q) :
  0 < q -> pow2 (floor_log2 q) <= q /\ q < pow2 (floor_log2 q + 1).
Proof.
  intros Hq. destruct q as [n d]. unfold floor_log2; cbn [Qnum Qden].
  assert (Hn : (0 < n)%Z) by (unfold Qlt in Hq; cbn in Hq; lia).
  set (a := Z.log2 n). set (b := Z.log2 (Z.pos d)).
  assert (Ha : (2 ^ a <= n < 2 ^ (a + 1))%Z).
  { unfold a. rewrite Z.add_1_r. apply Z.log2_spec; exact Hn. }
  assert (Hb : (2 ^ b <= Z.pos d < 2 ^ (b + 1))%Z).
  { unfold b. rewrite Z.add_1_r. apply Z.log2_spec; reflexivity. }
  assert (Ha0 : (0 <= a)%Z) by apply Z.log2_nonneg.
  assert (Hb0 : (0 <= b)%Z) by apply Z.log2_nonneg.
  assert (Qn : pow2 a <= inject_Z n /\ inject_Z n < pow2 (a + 1)).
  { rewrite !pow2_Z by lia. rewrite <- Zle_Qle, <- Zlt_Qlt. exact Ha. }
  assert (Qd : pow2 b <= inject_Z (Z.pos d) /\ inject_Z (Z.pos d) < pow2 (b + 1)).
  { rewrite !pow2_Z by lia. rewrite <- Zle_Qle, <- Zlt_Qlt. exact Hb. }
  assert (Hd : 0 < inject_Z (Z.pos d)) by reflexivity.
  assert (Hnd : n # d == inject_Z n / inject_Z (Z.pos d)) by apply Qmake_Qdiv.
  assert (Pb := pow2_pos b). assert (Pa := pow2_pos a).
  assert (Hup : n # d < pow2 (a - b + 1)).
  { rewrite Hnd. apply Qlt_shift_div_r; [exact Hd |].
    replace (a - b + 1)%Z with ((a + 1) + (- b))%Z by ring.
    rewrite pow2_add.
    assert (E : pow2 (- b) * pow2 b == 1).
    { rewrite <- pow2_add. now replace (- b + b)%Z with 0%Z by ring. }
    assert (P' := pow2_pos (- b)). assert (P'' := pow2_pos (a + 1)).
    set (X := pow2 (a + 1) * pow2 (- b)).
    assert (HX : 0 < X) by (apply Qmult_lt_0_compat; assumption).
    assert (H1 : 0 <= X * (inject_Z (Z.pos d) - pow2 b))
      by (apply Qmult_le_0_compat; lra).
    assert (H2 : X * pow2 b == pow2 (a + 1))
      by (unfold X; rewrite <- Qmult_assoc, E; ring).
    lra. }
  assert (Hlo : pow2 (a - b - 1) <= n # d).
  { rewrite Hnd. apply Qle_shift_div_l; [exact Hd |].
    replace (a - b - 1)%Z with (a + (- (b + 1)))%Z by ring.
    rewrite pow2_add.
    assert (E : pow2 (- (b + 1)) * pow2 (b + 1) == 1).
    { rewrite <- pow2_add. now replace (- (b + 1) + (b + 1))%Z with 0%Z by ring. }
    assert (P' := pow2_pos (- (b + 1))). assert (P'' := pow2_pos (b + 1)).
    set (X := pow2 a * pow2 (- (b + 1))).
    assert (HX : 0 < X) by (apply Qmult_lt_0_compat; assumption).
    assert (H1 : 0 <= X * (pow2 (b + 1) - inject_Z (Z.pos d)))
      by (apply Qmult_le_0_compat; lra).
    assert (H2 : X * pow2 (b + 1) == pow2 a)
      by (unfold X; rewrite <- Qmult_assoc, E; ring).
    lra. }
  destruct (Qle_bool (pow2 (a - b)) (n # d)) eqn:E.
  - apply Qle_bool_iff in E. split; assumption.
  - assert (N : ~ pow2 (a - b) <= n # d).
    { intros C. apply Qle_bool_iff in C. congruence. }
    apply Qnot_le_lt in N. split; [exact Hlo |].
    now replace (a - b - 1 + 1)%Z with (a - b)%Z by ring.
Qed.

Lemma floor_log2_mono (p q : Q) :
  0 < p -> p <= q -> (floor_log2 p <= floor_log2 q)%Z.
Proof.
  intros Hp Hpq.
  assert (Hq : 0 < q) by (eapply Qlt_le_trans; eassumption).
  destruct (floor_log2_spec p Hp) as [Plo _].
  destruct (floor_log2_spec q Hq) as [_ Qhi].
  assert (L : (floor_log2 p < floor_log2 q + 1)%Z).
  { apply Qpower_lt_compat_l_inv with (q := 2); [| reflexivity].
    eapply Qle_lt_trans; [exact Plo |]. eapply Qle_lt_trans; eassumption. }
  lia.
Qed.

(** *** Rounding to the nearest integer *)

Lemma round_half_even_range (x : Q) :
  (Qfloor x <= round_half_even x <= Qfloor x + 1)%Z.
Proof.
  unfold round_half_even.
  destruct (Qcompare (x - inject_Z (Qfloor x)) (1 # 2)); [destruct (Z.even _) | |]; lia.
Qed.

Lemma round_half_even_near (x : Q) :
  x - (1 # 2) <= inject_Z (round_half_even x) <= x + (1 # 2).
Proof.
  assert (Hlo := Qfloor_le x). assert (Hhi := Qlt_floor x).
  rewrite inject_Z_plus in Hhi. change (inject_Z 1) with 1 in Hhi.
  unfold round_half_even.
  destruct (Qcompare_spec (x - inject_Z (Qfloor x)) (1 # 2)) as [E | L | G].
  - destruct (Z.even (Qfloor x)); [| rewrite inject_Z_plus; change (inject_Z 1) with 1];
      lra.
  - lra.
  - rewrite inject_Z_plus; change (inject_Z 1) with 1. lra.
Qed.

Lemma round_half_even_Z (n : Z) : round_half_even (inject_Z n) = n.
Proof.
  unfold round_half_even. rewrite Qfloor_Z.
  destruct (Qcompare_spec (inject_Z n - inject_Z n) (1 # 2)) as [E | L | G].
  - exfalso. lra.
  - reflexivity.
  - exfalso. lra.
Qed.

Lemma round_half_even_mono (x y : Q) :
  x <= y -> (round_half_even x <= round_half_even y)%Z.
Proof.
  intros Hxy. assert (Hf := Qfloor_resp_le x y Hxy).
  destruct (Z.eq_dec (Qfloor x) (Qfloor y)) as [E | N].
  - unfold round_half_even. rewrite <- E.
    destruct (Qcompare_spec (x - inject_Z (Qfloor x)) (1 # 2)) as [Ex | Lx | Gx];
      destruct (Qcompare_spec (y - inject_Z (Qfloor x)) (1 # 2)) as [Ey | Ly | Gy];
      try destruct (Z.even (Qfloor x)); try lia; exfalso; lra.
  - assert (Rx := round_half_even_range x). assert (Ry := round_half_even_range y).
    lia.
Qed.

(** *** Rounding to a grid of spacing [2^ex] *)

Lemma pow2_neq0 (e : Z) : ~ pow2 e == 0.
Proof. intros E. assert (P := pow2_pos e). rewrite E in P. discriminate. Qed.

Lemma grid_near (ex : Z) (q : Q) :
  q - pow2 ex * (1 # 2) <= grid ex q <= q + pow2 ex * (1 # 2).
Proof.
  assert (P := pow2_pos ex). assert (N := pow2_neq0 ex).
  assert (R := round_half_even_near (q / pow2 ex)).
  assert (E : q / pow2 ex * pow2 ex == q) by (field; exact N).
  unfold grid. set (r := inject_Z (round_half_even (q / pow2 ex))) in *.
  assert (H1 : 0 <= (r - (q / pow2 ex - (1 # 2))) * pow2 ex)
    by (apply Qmult_le_0_compat; lra).
  assert (H2 : 0 <= (q / pow2 ex + (1 # 2) - r) * pow2 ex)
    by (apply Qmult_le_0_compat; lra).
  split; lra.
Qed.

Lemma grid_mono (ex : Z) (p q : Q) : p <= q -> grid ex p <= grid ex q.
Proof.
  intros Hpq. assert (P := pow2_pos ex). unfold grid.
  apply Qmult_le_compat_r; [| lra].
  rewrite <- Zle_Qle. apply round_half_even_mono.
  apply Qmult_le_compat_r; [exact Hpq |].
  apply Qlt_le_weak, Qinv_lt_0_compat, P.
Qed.

Lemma grid_fix (ex : Z) (n : Z) (q : Q) :
  q == inject_Z n * pow2 ex -> grid ex q == q.
Proof.
  intros E. assert (N := pow2_neq0 ex). unfold grid.
  assert (Eq' : q / pow2 ex == inject_Z n) by (rewrite E; field; exact N).
  assert (R : round_half_even (q / pow2 ex) = n).
  { assert (L1 : (round_half_even (q / pow2 ex) <= round_half_even (inject_Z n))%Z)
      by (apply round_half_even_mono; rewrite Eq'; apply Qle_refl).
    assert (L2 : (round_half_even (inject_Z n) <= round_half_even (q / pow2 ex))%Z)
      by (apply round_half_even_mono; rewrite Eq'; apply Qle_refl).
    rewrite round_half_even_Z in L1, L2. lia. }
  rewrite R, E. reflexivity.
Qed.

Lemma pow2_multiple (a b : Z) :
  (b <= a)%Z -> pow2 a == inject_Z (2 ^ (a - b)) * pow2 b.
Proof.
  intros L. rewrite <- pow2_Z by lia. rewrite <- pow2_add.
  now replace (a - b + b)%Z with a by ring.
Qed.

Lemma grid_le_multiple (ex n : Z) (q : Q) :
  q <= inject_Z n * pow2 ex -> grid ex q <= inject_Z n * pow2 ex.
Proof.
  intros L. rewrite <- (grid_fix ex n (inject_Z n * pow2 ex)) by reflexivity.
  apply grid_mono, L.
Qed.

Lemma grid_ge_multiple (ex n : Z) (q : Q) :
  inject_Z n * pow2 ex <= q -> inject_Z n * pow2 ex <= grid ex q.
Proof.
  intros L. rewrite <- (grid_fix ex n (inject_Z n * pow2 ex)) at 1 by reflexivity.
  apply grid_mono, L.
Qed.

(** *** Rounding a positive rational to 53 bits *)

Lemma round_pos_grid (q : Q) : round_pos q == grid (ulp_exponent q) q.
Proof. unfold round_pos, grid. apply Qred_correct. Qed.

Lemma round_pos_nonneg (q : Q) : 0 < q -> 0 <= round_pos q.
Proof.
  intros Hq. rewrite round_pos_grid.
  setoid_replace 0 with (inject_Z 0 * pow2 (ulp_exponent q)) by ring.
  apply grid_ge_multiple. rewrite Qmult_0_l. lra.
Qed.

Lemma round_pos_mono (p q : Q) : 0 < p -> p <= q -> round_pos p <= round_pos q.
Proof.
  intros Hp Hpq. rewrite !round_pos_grid.
  assert (Hq : 0 < q) by lra.
  assert (He := floor_log2_mono p q Hp Hpq).
  destruct (floor_log2_spec p Hp) as [_ Phi].
  destruct (floor_log2_spec q Hq) as [Qlo _].
  unfold ulp_exponent.
  destruct (Z.eq_dec (Z.max (floor_log2 p - 52) (-1074)) (Z.max (floor_log2 q - 52) (-1074)))
    as [E | N].
  - rewrite E. apply grid_mono, Hpq.
  - assert (Lp : (floor_log2 p + 1 <= floor_log2 q)%Z) by lia.
    assert (Lq : (Z.max (floor_log2 q - 52) (-1074) = floor_log2 q - 52)%Z) by lia.
    apply Qle_trans with (pow2 (floor_log2 q)).
    + rewrite (pow2_multiple (floor_log2 q) (Z.max (floor_log2 p - 52) (-1074))) by lia.
      apply grid_le_multiple.
      rewrite <- pow2_multiple by lia.
      apply Qle_trans with (pow2 (floor_log2 p + 1)); [lra | apply pow2_le, Lp].
    + rewrite Lq.
      rewrite (pow2_multiple (floor_log2 q) (floor_log2 q - 52)) by lia.
      apply grid_ge_multiple.
      rewrite <- pow2_multiple by lia. exact Qlo.
Qed.

Lemma round_pos_near (q : Q) :
  0 < q ->
  q - (q * pow2 (-53) + pow2 (-1075)) <= round_pos q <= q + (q * pow2 (-53) + pow2 (-1075)).
Proof.
  intros Hq. rewrite round_pos_grid.
  assert (G := grid_near (ulp_exponent q) q).
  destruct (floor_log2_spec q Hq) as [Qlo _].
  assert (P1 := pow2_pos (-53)). assert (P2 := pow2_pos (-1075)).
  assert (U : pow2 (ulp_exponent q) * (1 # 2) <= q * pow2 (-53) + pow2 (-1075)).
  { unfold ulp_exponent.
    destruct (Z.max_spec (floor_log2 q - 52) (-1074)) as [[_ ->] | [_ ->]].
    - setoid_replace (pow2 (-1074) * (1 # 2)) with (pow2 (-1075)) by reflexivity.
      assert (0 <= q * pow2 (-53)) by (apply Qmult_le_0_compat; lra). lra.
    - replace (floor_log2 q - 52)%Z with (floor_log2 q + (-52))%Z by ring.
      rewrite pow2_add.
      setoid_replace (pow2 (floor_log2 q) * pow2 (-52) * (1 # 2))
        with (pow2 (floor_log2 q) * pow2 (-53))
        by (setoid_replace (pow2 (-53)) with (pow2 (-52) * (1 # 2)) by reflexivity; ring).
      assert (0 <= (q - pow2 (floor_log2 q)) * pow2 (-53))
        by (apply Qmult_le_0_compat; lra).
      lra. }
  lra.
Qed.

(** *** [rnd64] *)

Lemma rnd64_pos (q : Q) : 0 < q -> rnd64 q = round_pos q.
Proof.
  intros Hq. unfold rnd64.
  destruct (Qcompare_spec q 0); [exfalso; lra | exfalso; lra | reflexivity].
Qed.

Lemma rnd64_neg (q : Q) : q < 0 -> rnd64 q = - round_pos (- q).
Proof.
  intros Hq. unfold rnd64.
  destruct (Qcompare_spec q 0); [exfalso; lra | reflexivity | exfalso; lra].
Qed.

Lemma rnd64_zero (q : Q) : q == 0 -> rnd64 q = 0.
Proof.
  intros Hq. unfold rnd64.
  destruct (Qcompare_spec q 0); [reflexivity | exfalso; lra | exfalso; lra].
Qed.

Lemma rnd64_cases (q : Q) :
  (q < 0 /\ rnd64 q = - round_pos (- q)) \/
  (q == 0 /\ rnd64 q = 0) \/
  (0 < q /\ rnd64 q = round_pos q).
Proof.
  destruct (Q_dec q 0) as [[L | G] | E].
  - left; split; [exact L | apply rnd64_neg, L].
  - right; right; split; [exact G | apply rnd64_pos, G].
  - right; left; split; [exact E | apply rnd64_zero, E].
Qed.

(** Rounding keeps the order. *)
Lemma rnd64_mono (p q : Q) : p <= q -> rnd64 p <= rnd64 q.
Proof.
  intros Hpq.
  destruct (rnd64_cases p) as [[Sp ->] | [[Sp ->] | [Sp ->]]];
    destruct (rnd64_cases q) as [[Sq ->] | [[Sq ->] | [Sq ->]]];
    try (exfalso; lra); try apply Qle_refl.
  - assert (M := round_pos_mono (- q) (- p)).
    assert (round_pos (- q) <= round_pos (- p)) by (apply M; lra). lra.
  - assert (M := round_pos_nonneg (- p)). assert (0 <= round_pos (- p)) by (apply M; lra).
    lra.
  - assert (M := round_pos_nonneg (- p)). assert (0 <= round_pos (- p)) by (apply M; lra).
    assert (M' := round_pos_nonneg q Sq). lra.
  - apply round_pos_nonneg, Sq.
  - apply round_pos_mono; assumption.
Qed.

Lemma rnd64_comp (p q : Q) : p == q -> rnd64 p == rnd64 q.
Proof.
  intros E. apply Qle_antisym; apply rnd64_mono; rewrite E; apply Qle_refl.
Qed.

(** The relative error of one rounding is at most [2^-53], up to the
    spacing of the subnormal numbers. *)
Lemma rnd64_near (q : Q) :
  q - (Qabs q * pow2 (-53) + pow2 (-1075)) <= rnd64 q
  <= q + (Qabs q * pow2 (-53) + pow2 (-1075)).
Proof.
  assert (P1 := pow2_pos (-53)). assert (P2 := pow2_pos (-1075)).
  destruct (rnd64_cases q) as [[Sq ->] | [[Sq ->] | [Sq ->]]].
  - rewrite Qabs_neg by lra.
    assert (N := round_pos_near (- q)).
    assert (H : - q - (- q * pow2 (-53) + pow2 (-1075)) <= round_pos (- q)
                <= - q + (- q * pow2 (-53) + pow2 (-1075))) by (apply N; lra).
    lra.
  - rewrite Sq. cbn [Qabs]. setoid_replace (Qabs 0) with 0 by reflexivity. lra.
  - rewrite Qabs_pos by lra. apply round_pos_near, Sq.
Qed.

(** Integers of up to 53 bits are binary64 numbers. *)
Lemma round_pos_int (z : Z) :
  (0 < z < 2 ^ 53)%Z -> round_pos (inject_Z z) == inject_Z z.
Proof.
  intros [Hz0 Hz]. rewrite round_pos_grid.
  assert (Hq : 0 < inject_Z z) by (rewrite Zlt_Qlt in Hz0; exact Hz0).
  destruct (floor_log2_spec _ Hq) as [Lo Hi].
  set (e := floor_log2 (inject_Z z)) in *.
  assert (He1 : (e < 53)%Z).
  { apply Qpower_lt_compat_l_inv with (q := 2); [| reflexivity].
    eapply Qle_lt_trans; [exact Lo |]. fold (pow2 53). rewrite pow2_Z by lia.
    rewrite <- Zlt_Qlt. exact Hz. }
  assert (He0 : (0 < e + 1)%Z).
  { apply Qpower_lt_compat_l_inv with (q := 2); [| reflexivity].
    eapply Qle_lt_trans; [| exact Hi]. change (2 ^ 0) with (inject_Z 1).
    rewrite <- Zle_Qle. lia. }
  unfold ulp_exponent. fold e.
  replace (Z.max (e - 52) (-1074)) with (e - 52)%Z by lia.
  apply (grid_fix (e - 52) (z * 2 ^ (52 - e))).
  rewrite inject_Z_mult, <- pow2_Z by lia.
  rewrite <- Qmult_assoc, <- pow2_add.
  replace (52 - e + (e - 52))%Z with 0%Z by ring.
  change (pow2 0) with 1. ring.
Qed.

Lemma rnd64_int (z : Z) :
  (Z.abs z < 2 ^ 53)%Z -> rnd64 (inject_Z z) == inject_Z z.
Proof.
  intros Hz. destruct (Z.lt_trichotomy z 0) as [N | [E | P]].
  - rewrite rnd64_neg by (change 0 with (inject_Z 0); rewrite <- Zlt_Qlt; exact N).
    change (- inject_Z z) with (inject_Z (- z)).
    rewrite round_pos_int by lia. rewrite inject_Z_opp. ring.
  - subst z. reflexivity.
  - rewrite rnd64_pos by (change 0 with (inject_Z 0); rewrite <- Zlt_Qlt; exact P).
    apply round_pos_int. lia.
Qed.

(** *** Truncation and comparison *)

Lemma truncate_nonneg (q : Q) : 0 <= q -> truncate q = Qfloor q.
Proof.
  intros Hq. destruct q as [n d]. unfold truncate, Qfloor; cbn [Qnum Qden].
  apply Z.quot_div_nonneg; [| reflexivity].
  unfold Qle in Hq; cbn in Hq. lia.
Qed.

Lemma truncate_nonpos (q : Q) : q <= 0 -> truncate q = Qceiling q.
Proof.
  intros Hq. destruct q as [n d]. unfold truncate, Qceiling, Qfloor, Qopp; cbn [Qnum Qden].
  assert (Hn : (n <= 0)%Z) by (unfold Qle in Hq; cbn in Hq; lia).
  rewrite <- (Z.opp_involutive n) at 1.
  rewrite Z.quot_opp_l by discriminate.
  rewrite Z.quot_div_nonneg by lia. reflexivity.
Qed.

Lemma truncate_Z (z : Z) : truncate (inject_Z z) = z.
Proof. unfold truncate; cbn. apply Z.quot_1_r. Qed.

Lemma truncate_mono (p q : Q) : p <= q -> (truncate p <= truncate q)%Z.
Proof.
  intros Hpq.
  destruct (Qlt_le_dec p 0) as [Np | Pp]; destruct (Qlt_le_dec q 0) as [Nq | Pq].
  - rewrite !truncate_nonpos by lra. apply Qceiling_resp_le, Hpq.
  - rewrite (truncate_nonpos p) by lra. rewrite (truncate_nonneg q) by lra.
    assert (C : (Qceiling p <= Qceiling 0)%Z) by (apply Qceiling_resp_le; lra).
    assert (F : (Qfloor 0 <= Qfloor q)%Z) by (apply Qfloor_resp_le; lra).
    change (Qceiling 0) with 0%Z in C. change (Qfloor 0) with 0%Z in F. lia.
  - exfalso; lra.
  - rewrite !truncate_nonneg by lra. apply Qfloor_resp_le, Hpq.
Qed.

Lemma truncate_ge (z : Z) (q : Q) : inject_Z z <= q -> (z <= truncate q)%Z.
Proof. intros L. rewrite <- (truncate_Z z). apply truncate_mono, L. Qed.

Lemma truncate_le (z : Z) (q : Q) : q <= inject_Z z -> (truncate q <= z)%Z.
Proof. intros L. rewrite <- (truncate_Z z). apply truncate_mono, L. Qed.

Lemma truncate_below (q : Q) : 0 <= q -> inject_Z (truncate q) <= q.
Proof. intros Hq. rewrite truncate_nonneg by exact Hq. apply Qfloor_le. Qed.

Lemma lt_bool_iff (x y : Q) : lt_bool x y = true <-> x < y.
Proof.
  unfold lt_bool. destruct (Qcompare_spec x y) as [E | L | G]; split; intros H;
    try discriminate; try reflexivity; try assumption; exfalso; lra.
Qed.

End Float64Facts.

(** ** Values in the C [int] range *)

Lemma to_c_int_ok (z : Z) : c_int z -> to_c_int z = Ok z.
Proof.
  unfold c_int, to_c_int. intros [L U].
  rewrite (proj2 (Z.leb_le _ _) L), (proj2 (Z.ltb_lt _ _) U). reflexivity.
Qed.

Lemma to_c_int_overflow (z : Z) : ~ c_int z -> to_c_int z = Raise OverflowError.
Proof.
  unfold c_int, to_c_int. intros N.
  destruct (- 2 ^ 31 <=? z) eqn:L; [| reflexivity].
  destruct (z <? 2 ^ 31) eqn:U; [| reflexivity].
  apply Z.leb_le in L. apply Z.ltb_lt in U. exfalso. apply N. split; assumption.
Qed.

Lemma wrap_c_int_id (z : Z) : c_int z -> wrap_c_int z = z.
Proof.
  unfold c_int, wrap_c_int. intros H. rewrite Z.mod_small; lia.
Qed.

Lemma QRect_new_ok (x y w h : Z) :
  c_int x -> c_int y -> c_int w -> c_int h -> QRect_new x y w h = Ok (mkQRect x y w h).
Proof.
  intros Hx Hy Hw Hh. unfold QRect_new.
  rewrite (to_c_int_ok x Hx), (to_c_int_ok y Hy), (to_c_int_ok w Hw), (to_c_int_ok h Hh).
  reflexivity.
Qed.

(** ** The placement, one axis at a time *)

Section PlacementShape.

Variable A : FloatArith.

Local Open Scope pyexpr_scope.

(** Where the margins and the reduced container are C [int]s, the
    function is the two axes followed by the construction of the
    rectangle. *)
Lemma get_scaled_placement_axes (container_rect : QRect) (inner_size : QSize) (m : Z) :
  c_int (m * 2) ->
  c_int (rc_width container_rect - m * 2) ->
  c_int (rc_height container_rect - m * 2) ->
  get_scaled_placement A container_rect inner_size m =
  (sx <- int_truediv A (rc_width container_rect - m * 2) (Z.max (sz_width inner_size) 1) ;;
   sy <- int_truediv A (rc_height container_rect - m * 2) (Z.max (sz_height inner_size) 1) ;;
   x <- axis A (rc_x container_rect + m) (rc_width container_rect - m * 2)
             (sz_width inner_size) (py_min A sx sy) ;;
   y <- axis A (rc_y container_rect + m) (rc_height container_rect - m * 2)
             (sz_height inner_size) (py_min A sx sy) ;;
   rx <- py_int x ;;
   ry <- py_int y ;;
   rw <- trunc A (fmul A (of_int A (sz_width inner_size)) (py_min A sx sy)) ;;
   rh <- trunc A (fmul A (of_int A (sz_height inner_size)) (py_min A sx sy)) ;;
   QRect_new rx ry rw rh).
Proof.
  intros Hm Hw Hh. unfold get_scaled_placement, QSize_new.
  rewrite (to_c_int_ok _ Hm). cbn [rbind].
  unfold QSize_sub, QRect_size; cbn [sz_width sz_height].
  rewrite (wrap_c_int_id _ Hw), (wrap_c_int_id _ Hh). reflexivity.
Qed.

(** Margins that do not fit a C [int] stop the function at its first
    line. *)
Lemma get_scaled_placement_overflow (container_rect : QRect) (inner_size : QSize) (m : Z) :
  ~ c_int (m * 2) ->
  get_scaled_placement A container_rect inner_size m = Raise OverflowError.
Proof.
  intros Hm. unfold get_scaled_placement, QSize_new.
  rewrite (to_c_int_overflow _ Hm). reflexivity.
Qed.

End PlacementShape.

Module PlacementFacts.

Import Float64 Float64Facts.
Local Open Scope Q_scope.

Lemma eps_pow2 : pow2 (-53) == eps.
Proof. reflexivity. Qed.

Lemma eta_pow2 : pow2 (-1075) <= eta.
Proof. unfold Qle. vm_compute. discriminate. Qed.

Lemma rnd64_nonneg (q : Q) : 0 <= q -> 0 <= rnd64 q.
Proof. intros Hq. apply (rnd64_mono 0 q), Hq. Qed.

Lemma rnd64_upper (q : Q) : 0 <= q -> rnd64 q <= q + q * eps + eta.
Proof.
  intros Hq. destruct (rnd64_near q) as [_ U].
  rewrite Qabs_pos in U by exact Hq. rewrite eps_pow2 in U.
  assert (E := eta_pow2). lra.
Qed.

Lemma rnd64_le_int (q : Q) (z : Z) :
  (Z.abs z < 2 ^ 53)%Z -> q <= inject_Z z -> rnd64 q <= inject_Z z.
Proof. intros Hz L. rewrite <- (rnd64_int z Hz). apply rnd64_mono, L. Qed.

Lemma rnd64_ge_int (q : Q) (z : Z) :
  (Z.abs z < 2 ^ 53)%Z -> inject_Z z <= q -> inject_Z z <= rnd64 q.
Proof. intros Hz L. rewrite <- (rnd64_int z Hz) at 1. apply rnd64_mono, L. Qed.

Lemma fl_int (z : Z) : (Z.abs z < 2 ^ 53)%Z -> fl z == inject_Z z.
Proof. apply rnd64_int. Qed.

Lemma fl_2 : fl 2 = 2.
Proof. vm_compute. reflexivity. Qed.

Lemma fl_pos (z : Z) : (1 <= z)%Z -> 1 <= fl z.
Proof.
  intros Hz. change 1 with (rnd64 (inject_Z 1)) at 1.
  apply rnd64_mono. rewrite <- Zle_Qle. exact Hz.
Qed.

(** A division by [max(n, 1)] never raises. *)
Lemma int_truediv_max (a n : Z) :
  int_truediv binary64 a (Z.max n 1) = Ok (rnd64 (fl a / fl (Z.max n 1))).
Proof.
  unfold int_truediv; cbn [binary64 fdiv of_int]. fold (fl a) (fl (Z.max n 1)).
  assert (P := fl_pos (Z.max n 1) (Z.le_max_r n 1)).
  destruct (Qeq_bool (fl (Z.max n 1)) 0) eqn:E; [| reflexivity].
  apply Qeq_bool_iff in E. exfalso. lra.
Qed.

Lemma axis_binary64 (o c i : Z) (s : Q) :
  axis binary64 o c i s =
  if lt_bool (rnd64 (fl i * s)) (fl c)
  then Ok (@PFloat binary64 (rnd64 (fl o + rnd64 (rnd64 (fl c - rnd64 (fl i * s)) / 2))))
  else Ok (@PInt binary64 o).
Proof.
  unfold axis; cbn [binary64 fdiv fltb fmul fsub fadd of_int]. fold (fl i) (fl c) (fl o) (fl 2).
  rewrite fl_2. reflexivity.
Qed.

Lemma inject_Z_sub (a b : Z) : inject_Z (a - b) == inject_Z a - inject_Z b.
Proof. unfold Z.sub. rewrite inject_Z_plus, inject_Z_opp. ring. Qed.

Lemma py_min_le (a b : Q) :
  py_min binary64 a b <= a /\ py_min binary64 a b <= b.
Proof.
  unfold py_min; cbn [binary64 fltb].
  destruct (lt_bool b a) eqn:E.
  - apply lt_bool_iff in E. lra.
  - assert (N : ~ b < a) by (intros L; apply lt_bool_iff in L; congruence).
    apply Qnot_lt_le in N. lra.
Qed.

Lemma py_min_nonneg (a b : Q) : 0 <= a -> 0 <= b -> 0 <= py_min binary64 a b.
Proof.
  intros Ha Hb. unfold py_min; cbn [binary64 fltb]. destruct (lt_bool b a); assumption.
Qed.

(** The scaled length exceeds the container's by less than a pixel, so
    its truncation fits. *)
Lemma scaled_length_bound (c i : Z) (s : Q) :
  (0 <= c < 2 ^ 33)%Z -> (0 <= i < 2 ^ 31)%Z ->
  0 <= s -> s <= rnd64 (fl c / fl (Z.max i 1)) ->
  0 <= rnd64 (fl i * s) /\ rnd64 (fl i * s) < inject_Z c + 1.
Proof.
  intros Hc Hi Hs0 Hs.
  assert (Ec : fl c == inject_Z c) by (apply fl_int; lia).
  assert (Ei : fl i == inject_Z i) by (apply fl_int; lia).
  assert (Qc : 0 <= inject_Z c /\ inject_Z c <= 8589934592).
  { change 0 with (inject_Z 0). change 8589934592 with (inject_Z (2 ^ 33)).
    rewrite <- !Zle_Qle. lia. }
  assert (Qi : 0 <= inject_Z i /\ inject_Z i <= 2147483648).
  { change 0 with (inject_Z 0). change 2147483648 with (inject_Z (2 ^ 31)).
    rewrite <- !Zle_Qle. lia. }
  assert (P0 : 0 <= fl i * s) by (apply Qmult_le_0_compat; lra).
  split; [apply rnd64_nonneg, P0 |].
  destruct (Z.eq_dec i 0) as [-> | Ni].
  - assert (Z0 : rnd64 (fl 0 * s) == 0).
    { rewrite (rnd64_comp (fl 0 * s) 0); [reflexivity |].
      change (fl 0) with 0. ring. }
    rewrite Z0. lra.
  - replace (Z.max i 1) with i in Hs by lia.
    assert (Qi1 : 1 <= inject_Z i).
    { change 1 with (inject_Z 1). rewrite <- Zle_Qle. lia. }
    set (q := fl c / fl i) in *.
    assert (Eq1 : fl i * q == inject_Z c).
    { unfold q. rewrite Ec. field. lra. }
    assert (Hq0 : 0 <= q).
    { unfold q. apply Qle_shift_div_l; lra. }
    assert (U1 := rnd64_upper q Hq0).
    assert (U2 := rnd64_upper (fl i * s) P0).
    assert (M : fl i * s <= fl i * (q + q * eps + eta)).
    { apply Qmult_le_l; lra. }
    assert (X : fl i * (q + q * eps + eta)
                == inject_Z c + inject_Z c * eps + fl i * eta).
    { rewrite <- Eq1. ring. }
    unfold eps, eta in *. lra.
Qed.

(** One axis: the position is not left of the origin, and position plus
    truncated length does not pass the far end. *)
Lemma axis_within (o c i : Z) (s : Q) :
  (Z.abs o < 2 ^ 40)%Z -> (0 <= c < 2 ^ 40)%Z ->
  0 <= rnd64 (fl i * s) -> rnd64 (fl i * s) < inject_Z c + 1 ->
  exists X : Z,
    rbind (axis binary64 o c i s) py_int = Ok X /\
    (o <= X)%Z /\
    (X + truncate (rnd64 (fl i * s)) <= o + c)%Z /\
    (0 <= truncate (rnd64 (fl i * s)))%Z.
Proof.
  intros Ho Hc HW0 HW1. rewrite axis_binary64.
  set (W := rnd64 (fl i * s)) in *.
  assert (Ec : fl c == inject_Z c) by (apply fl_int; lia).
  assert (Eo : fl o == inject_Z o) by (apply fl_int; lia).
  assert (Hw0 : (0 <= truncate W)%Z) by (apply truncate_ge; exact HW0).
  assert (Hwle : inject_Z (truncate W) <= W) by (apply truncate_below; exact HW0).
  destruct (lt_bool W (fl c)) eqn:G.
  - apply lt_bool_iff in G. cbn [rbind py_int binary64 trunc].
    eexists; split; [reflexivity |].
    assert (Hwc : (truncate W < c)%Z).
    { rewrite Zlt_Qlt. lra. }
    set (D := rnd64 (fl c - W)).
    assert (D0 : 0 <= D) by (apply rnd64_nonneg; lra).
    assert (D1 : D <= inject_Z (c - truncate W)).
    { apply rnd64_le_int; [lia |]. rewrite inject_Z_sub. lra. }
    change (D / 2) with (D * (1 # 2)).
    set (half := rnd64 (D * (1 # 2))).
    assert (half0 : 0 <= half) by (apply rnd64_nonneg; lra).
    assert (half1 : half <= inject_Z (c - truncate W)).
    { apply rnd64_le_int; [lia |].
      assert (0 <= inject_Z (c - truncate W)) by lra. lra. }
    assert (S1 := inject_Z_sub c (truncate W)).
    repeat split.
    + apply truncate_ge, rnd64_ge_int; [lia | lra].
    + assert (T : (truncate (rnd64 (fl o + half)) <= o + (c - truncate W))%Z).
      { apply truncate_le, rnd64_le_int; [lia |]. rewrite inject_Z_plus. lra. }
      lia.
    + exact Hw0.
  - assert (N : ~ W < fl c) by (intros L; apply lt_bool_iff in L; congruence).
    apply Qnot_lt_le in N. cbn [rbind py_int].
    eexists; split; [reflexivity |].
    assert (T1 : (truncate W <= c)%Z).
    { assert (L : (truncate W < c + 1)%Z).
      { rewrite Zlt_Qlt, inject_Z_plus. change (inject_Z 1) with 1. lra. }
      lia. }
    repeat split; lia.
Qed.

Lemma truncate_close (q : Q) :
  q - 1 < inject_Z (truncate q) /\ inject_Z (truncate q) < q + 1.
Proof.
  destruct (Qlt_le_dec q 0) as [N | P].
  - rewrite truncate_nonpos by lra.
    assert (C1 := Qle_ceiling q). assert (C2 := Qceiling_lt q).
    rewrite inject_Z_sub in C2. change (inject_Z 1) with 1 in C2. lra.
  - rewrite truncate_nonneg by exact P.
    assert (F1 := Qfloor_le q). assert (F2 := Qlt_floor q).
    rewrite inject_Z_plus in F2. change (inject_Z 1) with 1 in F2. lra.
Qed.

Lemma rnd64_close (q b : Q) :
  - b <= q <= b ->
  q - (b * eps + eta) <= rnd64 q <= q + (b * eps + eta).
Proof.
  intros Hb. assert (N := rnd64_near q). rewrite eps_pow2 in N.
  assert (E := eta_pow2).
  assert (Ab : Qabs q <= b) by (apply Qabs_Qle_condition; exact Hb).
  assert (Ae : Qabs q * eps <= b * eps).
  { apply Qmult_le_compat_r; [exact Ab | unfold eps; lra]. }
  lra.
Qed.

Lemma gap_difference_Q (x o c w : Z) :
  inject_Z ((x - o) - (o + c - (x + w)))
  == 2 * inject_Z x + inject_Z w - 2 * inject_Z o - inject_Z c.
Proof.
  replace ((x - o) - (o + c - (x + w)))%Z with (2 * x + w + - (2 * o) + - c)%Z by ring.
  rewrite !inject_Z_plus, !inject_Z_opp, !inject_Z_mult.
  change (inject_Z 2) with 2. ring.
Qed.

(** One axis: the gaps before and after the placed length differ by at
    most three pixels, the price of three truncations. *)
Lemma axis_centred (o c i : Z) (s : Q) (X : Z) :
  (Z.abs o < 2 ^ 33)%Z -> (0 <= c < 2 ^ 33)%Z ->
  0 <= rnd64 (fl i * s) -> rnd64 (fl i * s) < inject_Z c + 1 ->
  rbind (axis binary64 o c i s) py_int = Ok X ->
  (Z.abs ((X - o) - (o + c - (X + truncate (rnd64 (fl i * s))))) <= 3)%Z.
Proof.
  intros Ho Hc HW0 HW1. rewrite axis_binary64.
  set (W := rnd64 (fl i * s)) in *.
  assert (Ec : fl c == inject_Z c) by (apply fl_int; lia).
  assert (Eo : fl o == inject_Z o) by (apply fl_int; lia).
  assert (Qc : 0 <= inject_Z c /\ inject_Z c <= 8589934592).
  { change 0 with (inject_Z 0). change 8589934592 with (inject_Z (2 ^ 33)).
    rewrite <- !Zle_Qle. lia. }
  assert (Qo : - (8589934592) <= inject_Z o /\ inject_Z o <= 8589934592).
  { change (- (8589934592)) with (inject_Z (- 2 ^ 33)).
    change 8589934592 with (inject_Z (2 ^ 33)). rewrite <- !Zle_Qle. lia. }
  destruct (truncate_close W) as [w1 w2].
  assert (w3 : inject_Z (truncate W) <= W) by (apply truncate_below; exact HW0).
  destruct (lt_bool W (fl c)) eqn:G.
  - apply lt_bool_iff in G. cbn [rbind py_int binary64 trunc].
    intros HX; injection HX as <-.
    change (rnd64 (fl c - W) / 2) with (rnd64 (fl c - W) * (1 # 2)).
    set (D := rnd64 (fl c - W)).
    assert (D1 := rnd64_close (fl c - W) 8589934592 ltac:(lra)). fold D in D1.
    set (half := rnd64 (D * (1 # 2))).
    assert (H1 := rnd64_close (D * (1 # 2)) 8589934592 ltac:(unfold eps, eta in D1; lra)).
    fold half in H1.
    set (S := rnd64 (fl o + half)).
    assert (S1 := rnd64_close (fl o + half) 17179869184
                    ltac:(unfold eps, eta in D1, H1; lra)).
    fold S in S1.
    destruct (truncate_close S) as [x1 x2].
    set (x := truncate S) in *. set (w := truncate W) in *.
    assert (Lo : (-4 < (x - o) - (o + c - (x + w)))%Z).
    { rewrite Zlt_Qlt, gap_difference_Q.
      change (inject_Z (-4)) with (- (4)). unfold eps, eta in *. lra. }
    assert (Hi : ((x - o) - (o + c - (x + w)) < 3)%Z).
    { rewrite Zlt_Qlt, gap_difference_Q.
      change (inject_Z 3) with 3. unfold eps, eta in *. lra. }
    lia.
  - assert (N : ~ W < fl c) by (intros L; apply lt_bool_iff in L; congruence).
    apply Qnot_lt_le in N. cbn [rbind py_int].
    intros HX; injection HX as <-.
    assert (T1 : (truncate W < c + 1)%Z).
    { rewrite Zlt_Qlt, inject_Z_plus. change (inject_Z 1) with 1. lra. }
    assert (T2 : (c <= truncate W)%Z) by (apply truncate_ge; lra).
    lia.
Qed.

(** *** The whole placement *)

Lemma placement_shape (container_rect : QRect) (inner_size : QSize) (m : Z) :
  placement_pre container_rect inner_size m ->
  let s := scale_of container_rect inner_size m in
  let w := truncate (rnd64 (fl (sz_width inner_size) * s)) in
  let h := truncate (rnd64 (fl (sz_height inner_size) * s)) in
  exists X Y : Z,
    get_scaled_placement binary64 container_rect inner_size m = Ok (mkQRect X Y w h) /\
    (rc_x container_rect + m <= X /\
     X + w <= rc_x container_rect + rc_width container_rect - m /\
     0 <= w /\
     Z.abs ((X - (rc_x container_rect + m))
            - (rc_x container_rect + rc_width container_rect - m - (X + w))) <= 3)%Z /\
    (rc_y container_rect + m <= Y /\
     Y + h <= rc_y container_rect + rc_height container_rect - m /\
     0 <= h /\
     Z.abs ((Y - (rc_y container_rect + m))
            - (rc_y container_rect + rc_height container_rect - m - (Y + h))) <= 3)%Z.
Proof.
  intros [Hx Hy Hw Hh Hm Hfw Hfh Hl Hr Ht Hb Hiw Hih] s w h.
  assert (A1 := get_scaled_placement_axes binary64 container_rect inner_size m Hm
                  ltac:(unfold c_int; lia) ltac:(unfold c_int; lia)).
  unfold c_int in *.
  set (cw := (rc_width container_rect - m * 2)%Z).
  set (ch := (rc_height container_rect - m * 2)%Z).
  set (ox := (rc_x container_rect + m)%Z).
  set (oy := (rc_y container_rect + m)%Z).
  set (sx := rnd64 (fl cw / fl (Z.max (sz_width inner_size) 1))).
  set (sy := rnd64 (fl ch / fl (Z.max (sz_height inner_size) 1))).
  assert (Hsx : 0 <= sx).
  { apply rnd64_nonneg, Qle_shift_div_l.
    - assert (P := fl_pos (Z.max (sz_width inner_size) 1) (Z.le_max_r _ 1)). lra.
    - rewrite Qmult_0_l. apply rnd64_nonneg. change 0 with (inject_Z 0).
      rewrite <- Zle_Qle. unfold cw. lia. }
  assert (Hsy : 0 <= sy).
  { apply rnd64_nonneg, Qle_shift_div_l.
    - assert (P := fl_pos (Z.max (sz_height inner_size) 1) (Z.le_max_r _ 1)). lra.
    - rewrite Qmult_0_l. apply rnd64_nonneg. change 0 with (inject_Z 0).
      rewrite <- Zle_Qle. unfold ch. lia. }
  assert (Es : s = py_min binary64 sx sy) by reflexivity.
  destruct (py_min_le sx sy) as [Ls1 Ls2]. rewrite <- Es in Ls1, Ls2.
  assert (Hs : 0 <= s) by (rewrite Es; apply py_min_nonneg; assumption).
  destruct (scaled_length_bound cw (sz_width inner_size) s) as [Wx0 Wx1];
    [unfold cw; lia | lia | exact Hs | exact Ls1 |].
  destruct (scaled_length_bound ch (sz_height inner_size) s) as [Wy0 Wy1];
    [unfold ch; lia | lia | exact Hs | exact Ls2 |].
  destruct (axis_within ox cw (sz_width inner_size) s) as (X & HX & X1 & X2 & X3);
    [unfold ox; lia | unfold cw; lia | exact Wx0 | exact Wx1 |].
  destruct (axis_within oy ch (sz_height inner_size) s) as (Y & HY & Y1 & Y2 & Y3);
    [unfold oy; lia | unfold ch; lia | exact Wy0 | exact Wy1 |].
  assert (CX := axis_centred ox cw (sz_width inner_size) s X
                  ltac:(unfold ox; lia) ltac:(unfold cw; lia) Wx0 Wx1 HX).
  assert (CY := axis_centred oy ch (sz_height inner_size) s Y
                  ltac:(unfold oy; lia) ltac:(unfold ch; lia) Wy0 Wy1 HY).
  exists X, Y. split; [| split].
  - rewrite A1, !int_truediv_max. cbn [rbind].
    fold cw ch ox oy sx sy. rewrite <- Es.
    destruct (axis binary64 ox cw (sz_width inner_size) s) as [px | e];
      [| discriminate HX].
    destruct (axis binary64 oy ch (sz_height inner_size) s) as [py | e];
      [| discriminate HY].
    cbn [rbind] in HX, HY |- *. rewrite HX, HY. cbn [rbind binary64 trunc fmul of_int].
    fold (fl (sz_width inner_size)) (fl (sz_height inner_size)). fold w h.
    apply QRect_new_ok; unfold c_int, ox, oy, cw, ch in *; lia.
  - fold w in X2, X3, CX. unfold ox, cw in *. repeat split; lia.
  - fold h in Y2, Y3, CY. unfold oy, ch in *. repeat split; lia.
Qed.

(** C4. On the inputs the function is meant for ([placement_pre]: the
    container, twice the margin and the container less its margins are C
    [int]s, the container is not smaller than its two margins and the
    inner size is not negative), [get_scaled_placement] returns the
    rectangle
    whose size is the inner size times
    [scale = min(reduced width / max(inner width, 1),
                 reduced height / max(inner height, 1))],
    each product truncated to an [int], placed inside the container less
    its margins with the gaps on opposite sides equal up to three pixels
    of truncation. For inner size 1024 x 1024 in the container
    (0, 0, 500, 700) with margin 2 the scale is 496/1024 = 31/64 = 0.484375 and
    the rectangle is (2, 102, 496, 496): flush with the 496 pixels between
    the margins horizontally, and with 100 pixels above and below it in
    the 696 pixels between the margins vertically. The kernel's binary64
    floats give the same rectangle. *)
Theorem placement_scaled_and_centred :
  (forall (container_rect : QRect) (inner_size : QSize) (m : Z),
      placement_pre container_rect inner_size m ->
      let s := scale_of container_rect inner_size m in
      let w := truncate (rnd64 (fl (sz_width inner_size) * s)) in
      let h := truncate (rnd64 (fl (sz_height inner_size) * s)) in
      exists X Y : Z,
        get_scaled_placement binary64 container_rect inner_size m
        = Ok (mkQRect X Y w h) /\
        (rc_x container_rect + m <= X /\
         X + w <= rc_x container_rect + rc_width container_rect - m /\
         Z.abs ((X - (rc_x container_rect + m))
                - (rc_x container_rect + rc_width container_rect - m - (X + w))) <= 3)%Z /\
        (rc_y container_rect + m <= Y /\
         Y + h <= rc_y container_rect + rc_height container_rect - m /\
         Z.abs ((Y - (rc_y container_rect + m))
                - (rc_y container_rect + rc_height container_rect - m - (Y + h))) <= 3)%Z) /\
  scale_of (mkQRect 0 0 500 700) (mkQSize 1024 1024) 2 = 31 # 64 /\
  get_scaled_placement binary64 (mkQRect 0 0 500 700) (mkQSize 1024 1024) 2
  = Ok (mkQRect 2 102 496 496) /\
  get_scaled_placement hardware (mkQRect 0 0 500 700) (mkQSize 1024 1024) 2
  = Ok (mkQRect 2 102 496 496).
Proof.
  split; [| repeat split; vm_compute; reflexivity].
  intros container_rect inner_size m Hpre s w h.
  destruct (placement_shape container_rect inner_size m Hpre)
    as (X & Y & E & (X1 & X2 & _ & X3) & (Y1 & Y2 & _ & Y3)).
  exists X, Y. repeat split; assumption.
Qed.




Lemma placement_pre_example :
  placement_pre (mkQRect 0 0 500 700) (mkQSize 1024 1024) 2.
Proof. constructor; unfold c_int; cbn; lia. Qed.


Lemma scaled_and_centred_witness :
  let container_rect := mkQRect 0 0 500 700 in
  let inner_size := mkQSize 1024 1024 in
  let s := scale_of container_rect inner_size 2 in
  let w := truncate (rnd64 (fl 1024 * s)) in
  let h := truncate (rnd64 (fl 1024 * s)) in
  exists X Y : Z,
    get_scaled_placement binary64 container_rect inner_size 2 = Ok (mkQRect X Y w h) /\
    (0 + 2 <= X /\ X + w <= 0 + 500 - 2 /\
     Z.abs ((X - (0 + 2)) - (0 + 500 - 2 - (X + w))) <= 3)%Z /\
    (0 + 2 <= Y /\ Y + h <= 0 + 700 - 2 /\
     Z.abs ((Y - (0 + 2)) - (0 + 700 - 2 - (Y + h))) <= 3)%Z.
Proof.
  exact (proj1 placement_scaled_and_centred
           (mkQRect 0 0 500 700) (mkQSize 1024 1024) 2%Z placement_pre_example).
Defined.


(** The same runs on the kernel's floats, and two more with sizes that do
    not divide evenly. *)
Example hardware_agrees :
  get_scaled_placement hardware (mkQRect 0 0 10 10) (mkQSize 10 10) 20
  = get_scaled_placement binary64 (mkQRect 0 0 10 10) (mkQSize 10 10) 20 /\
  get_scaled_placement hardware (mkQRect (-7) 3 1000 333) (mkQSize 0 0) 5
  = get_scaled_placement binary64 (mkQRect (-7) 3 1000 333) (mkQSize 0 0) 5 /\
  get_scaled_placement hardware (mkQRect 0 0 500 700) (mkQSize 3 7) 2
  = get_scaled_placement binary64 (mkQRect 0 0 500 700) (mkQSize 3 7) 2 /\
  get_scaled_placement hardware (mkQRect (-300) (-200) 641 479) (mkQSize 1920 1080) 12
  = get_scaled_placement binary64 (mkQRect (-300) (-200) 641 479) (mkQSize 1920 1080) 12 /\
  Hardware.to_Q (PrimFloat.div (Hardware.of_int 1) (Hardware.of_int 3))
  = Some (rnd64 (1 # 3)) /\
  Hardware.to_Q (PrimFloat.mul (Hardware.of_int 1920)
                   (PrimFloat.div (Hardware.of_int 617) (Hardware.of_int 1920)))
  = Some (rnd64 (inject_Z 1920 * rnd64 (617 # 1920))).
Proof. repeat split; vm_compute; reflexivity. Qed.

Example hardware_agrees_outside :
  get_scaled_placement hardware (mkQRect 0 0 10 10) (mkQSize 10 10) (-5)
  = Ok (mkQRect (-5) (-5) 20 20) /\
  get_scaled_placement hardware (mkQRect 0 0 10 10) (mkQSize 10 10) 20
  = Ok (mkQRect 20 20 (-30) (-30)) /\
  get_scaled_placement hardware (mkQRect 0 0 100 100) (mkQSize (-5) 10) 0
  = Ok (mkQRect 75 0 (-50) 100).
Proof. repeat split; vm_compute; reflexivity. Qed.

(** Where a value does not fit a C [int] the function raises
    [OverflowError]: in [QSize(...)] for the margins, or in [QRect(...)]
    for the result. [resizeEvent] then raises before it has stored
    anything. *)
Example placement_overflows :
  get_scaled_placement binary64 (mkQRect 0 0 10 10) (mkQSize 10 10) (-1073741825)
  = Raise OverflowError /\
  get_scaled_placement binary64 (mkQRect 0 0 10 10) (mkQSize 10 10) (2 ^ 30)
  = Raise OverflowError /\
  get_scaled_placement binary64 (mkQRect (- 2 ^ 31) 0 10 10) (mkQSize 12 12) (-1)
  = Raise OverflowError /\
  get_scaled_placement binary64 (mkQRect 2147483647 0 2147483647 10) (mkQSize 1 1) 0
  = Raise OverflowError /\
  get_scaled_placement hardware (mkQRect 2147483647 0 2147483647 10) (mkQSize 1 1) 0
  = Raise OverflowError /\
  resizeEvent binary64 (mkView (mkQSize 800 600) (Some (mkQSize 0 (-5000000))) None)
  = (Raise OverflowError, mkView (mkQSize 800 600) (Some (mkQSize 0 (-5000000))) None).
Proof. repeat split; vm_compute; reflexivity. Qed.

(** In a widget of 2 x 2 pixels the border leaves no room: the placement
    has no width and no height, and every content point is sent to the
    same widget position. *)
Example tiny_widget_placement :
  let v := mkView (mkQSize 2 2) (Some (mkQSize 1024 1024)) None in
  let v' := snd (resizeEvent binary64 v) in
  fst (resizeEvent binary64 v) = Ok tt /\
  _content_rect v' = Some (mkQRect 1 1 0 0) /\
  fst (scene_to_widget_coords binary64 (mkQPoint 0 0) v') = Ok (1, 1) /\
  fst (scene_to_widget_coords binary64 (mkQPoint 100 100) v') = Ok (1, 1).
Proof. repeat split; vm_compute; reflexivity. Qed.

(** [resizeEvent] divides by the content's own width and height after the
    placement is made. *)
Example resize_with_empty_content :
  let v := mkView (mkQSize 640 480) (Some (mkQSize 0 0)) None in
  fst (resizeEvent binary64 v) = Raise ZeroDivisionError /\
  _content_rect (snd (resizeEvent binary64 v)) = Some (mkQRect 320 240 0 0).
Proof. split; vm_compute; reflexivity. Qed.

End PlacementFacts.

(** * Further properties of the history *)

Lemma most_recent_snoc_last {A} (n : nat) (l : list A) (x : A) :
  exists l', most_recent (S n) (l ++ [x]) = l' ++ [x].
Proof.
  unfold most_recent. rewrite length_app; cbn [length].
  rewrite skipn_app.
  replace (length l + 1 - S n - length l)%nat with 0%nat by lia.
  eexists; reflexivity.
Qed.

Section HistoryMore.

Context {Surface : Type} `{H : Host Surface}.

Local Abbreviation Self := (Canvas Surface).

(** X1. Whatever the user does, in whatever order (strokes, fills and
    clears with any change of the surface, undos, redos that raise or not,
    clearing the history), the undo stack of a canvas never holds more than
    [MAX_UNDO] states. *)
Theorem history_never_exceeds_max_undo (ops : list HistoryOp) (s : Surface) :
  len (_undo_stack (run_ops ops (Canvas_init s))) <= MAX_UNDO /\
  fst (undo_count (run_ops ops (Canvas_init s)))
  = Ok (len (_undo_stack (run_ops ops (Canvas_init s)))).
Proof.
  split; [| reflexivity].
  apply run_ops_bounded. cbn. unfold MAX_UNDO. lia.
Qed.

(** X2. Right after a save, [last_undo_timestamp()] is the clock reading
    that save took, also when the save evicted the oldest state. *)
Theorem last_undo_timestamp_after_save (b : bool) (c : Self) :
  fst (bind (_save_undo_state b) (fun _ => last_undo_timestamp) c)
  = Ok (Some (now (clock_reads c))).
Proof.
  unfold bind. rewrite save_undo_state_eq, last_undo_timestamp_eq.
  cbn [fst _undo_stack]. rewrite trim_most_recent.
  destruct (most_recent_snoc_last 29 (_undo_stack c) (snapshot c)) as [l' E].
  unfold append. rewrite E, rev_app_distr. reflexivity.
Qed.

(** X3. [last_redo_timestamp()] in full. With an empty undo stack it
    returns [None], even when there are states to redo; with something to
    undo and nothing to redo it raises [IndexError]; only with both stacks
    filled does it return the time of the newest redo state. The canvas is
    never changed. *)
Theorem last_redo_timestamp_cases (c : Self) :
  last_redo_timestamp c =
  (match _undo_stack c, rev (_redo_stack c) with
   | [], _ => Ok None
   | _ :: _, [] => Raise IndexError
   | _ :: _, u :: _ => Ok (Some (timestamp u))
   end, c).
Proof.
  destruct c as [s us rs n]. cbn [_undo_stack _redo_stack].
  destruct us as [| u0 us0]; [reflexivity |].
  destruct (exists_last_or_nil (u0 :: us0)) as [E | [l [u E]]]; [discriminate |].
  destruct (exists_last_or_nil rs) as [-> | [r [v ->]]].
  - rewrite E. rewrite last_redo_timestamp_raises. reflexivity.
  - rewrite E. change (l ++ [u]) with (append l u). change (r ++ [v]) with (append r v).
    cbv beta iota delta [last_redo_timestamp bind redo_count gets lift ret
                         _undo_stack _redo_stack].
    rewrite len_append_pos. cbv beta iota. rewrite index_last_append.
    unfold append. rewrite rev_app_distr. reflexivity.
Qed.

(** [redo] on any canvas. *)
Lemma redo_eq (c : Self) :
  redo c =
  match rev (_redo_stack c) with
  | [] => (Ok tt, c)
  | _ :: r =>
      (Raise AttributeError,
       mkCanvas (surface c) (trim (append (_undo_stack c) (snapshot c))) (rev r)
         (S (clock_reads c)))
  end.
Proof.
  destruct c as [s us rs n]. destruct (exists_last_or_nil rs) as [-> | [r [v ->]]].
  - reflexivity.
  - rewrite redo_nonempty_eq. cbn [_redo_stack _undo_stack surface clock_reads].
    rewrite rev_app_distr. cbn [rev app].
    rewrite rev_involutive. reflexivity.
Qed.

(** X6. [redo()] never changes the content of the canvas. It returns
    normally exactly when there is nothing to redo; otherwise it raises
    [AttributeError], and by then it has dropped the newest redo state and
    pushed the current content on the undo stack. *)
Theorem redo_never_installs (c : Self) :
  surface (snd (redo c)) = surface c /\
  (fst (redo c) = Ok tt <-> _redo_stack c = []) /\
  (_redo_stack c <> [] ->
   fst (redo c) = Raise AttributeError /\
   _redo_stack c = _redo_stack (snd (redo c)) ++ [last (_redo_stack c) (snapshot c)] /\
   _undo_stack (snd (redo c)) = trim (_undo_stack c ++ [snapshot c])).
Proof.
  rewrite redo_eq. destruct c as [s us rs n]. cbn [_redo_stack _undo_stack surface].
  destruct (exists_last_or_nil rs) as [-> | [r [v ->]]].
  - cbn. repeat split; congruence.
  - rewrite rev_app_distr. cbn [rev app fst snd surface _redo_stack _undo_stack].
    rewrite rev_involutive, last_last.
    repeat split; try discriminate.
    intros E; destruct r; discriminate E.
Qed.

(** X7. After [clear_undo_history()] nothing can be undone or redone:
    both counts are 0, both timestamps are [None], and [undo()] and
    [redo()] return without touching the canvas, whose content the clearing
    left as it was. *)
Theorem nothing_to_undo_after_clear (c : Self) :
  let c' := snd (clear_undo_history c) in
  fst (clear_undo_history c) = Ok tt /\
  surface c' = surface c /\
  fst (undo_count c') = Ok 0 /\
  fst (redo_count c') = Ok 0 /\
  fst (last_undo_timestamp c') = Ok None /\
  fst (last_redo_timestamp c') = Ok None /\
  undo c' = (Ok tt, c') /\
  redo c' = (Ok tt, c').
Proof. cbn. repeat split. Qed.

End HistoryMore.

Lemma redo_never_installs_witness :
  fst (redo (snd (undo Demo.painted_blue))) = Raise AttributeError /\
  _redo_stack (snd (undo Demo.painted_blue))
  = _redo_stack (snd (redo (snd (undo Demo.painted_blue))))
    ++ [last (_redo_stack (snd (undo Demo.painted_blue)))
             (snapshot (snd (undo Demo.painted_blue)))] /\
  _undo_stack (snd (redo (snd (undo Demo.painted_blue))))
  = trim (_undo_stack (snd (undo Demo.painted_blue))
          ++ [snapshot (snd (undo Demo.painted_blue))]).
Proof.
  apply (redo_never_installs (snd (undo Demo.painted_blue))).
  vm_compute. discriminate.
Defined.

(** ** Saving and undoing, for implementations that keep their image *)

Lemma QSize_eqb_same (a b : QSize) : a = b -> QSize_eqb a b = true.
Proof.
  intros ->. unfold QSize_eqb. now rewrite !Z.eqb_refl.
Qed.

Lemma Forall_most_recent {A} (P : A -> Prop) (n : nat) (l : list A) :
  Forall P l -> Forall P (most_recent n l).
Proof.
  intros Hl. unfold most_recent.
  rewrite <- (firstn_skipn (length l - n) l) in Hl.
  apply Forall_app in Hl. apply Hl.
Qed.

#[global] Instance demo_laws : HostLaws QImage.
Proof. constructor; reflexivity. Qed.

Section RoundTrips.

Context {Surface : Type} `{L : HostLaws Surface}.

Local Abbreviation Self := (Canvas Surface).

Lemma fitted_same_size (i : QImage) (s : Surface) :
  QImage_size i = size s -> fitted i s = i.
Proof. intros E. unfold fitted. now rewrite (QSize_eqb_same _ _ E). Qed.

Lemma undo_same_size (s : Surface) (l r : list UndoState) (u : UndoState) (n : nat) :
  QImage_size (image u) = size s ->
  undo (mkCanvas s (l ++ [u]) r n) =
  (Ok tt,
   mkCanvas (set_image (image u) s) l
     (r ++ [mkUndoState (get_qimage s) (now n)]) (S n)).
Proof. intros E. rewrite undo_nonempty_eq, (fitted_same_size _ _ E). reflexivity. Qed.

(** X4. One edit and its undo. When a save is followed by any change of
    the surface that keeps its size, [undo()] returns, the content is again
    the content from before the save, and the content undone waits on the
    redo stack. Unless the save had to evict, the undo stack is as before. *)
Theorem save_edit_undo_round_trip
    (b : bool) (edit : Surface -> Surface) (c : Self) :
  size (edit (surface c)) = size (surface c) ->
  let out := bind (save_then_edit (b, edit)) (fun _ => undo) c in
  fst out = Ok tt /\
  get_qimage (surface (snd out)) = get_qimage (surface c) /\
  _redo_stack (snd out)
  = (if b then [] else _redo_stack c)
    ++ [mkUndoState (get_qimage (edit (surface c))) (now (S (clock_reads c)))] /\
  (len (_undo_stack c) < MAX_UNDO -> _undo_stack (snd out) = _undo_stack c).
Proof.
  intros Hsize out. subst out. unfold bind. rewrite save_then_edit_eq.
  cbn [fst snd].
  destruct (most_recent_snoc_last 29 (_undo_stack c) (snapshot c)) as [l' E].
  rewrite E.
  rewrite undo_same_size
    by (cbn [snapshot image]; rewrite get_qimage_size; symmetry; exact Hsize).
  cbn [fst snd surface _redo_stack _undo_stack snapshot image].
  repeat split.
  - apply get_qimage_set_image.
  - intros Hlen. rewrite most_recent_all in E.
    + apply app_inj_tail in E. symmetry. apply E.
    + rewrite length_app; cbn [length]. unfold len, MAX_UNDO in Hlen. lia.
Qed.

(** The surface after a series of edits. *)
Lemma save_all_state (steps : list (bool * (Surface -> Surface))) :
  forall c : Self,
    surface (snd (save_all steps c))
    = fold_left (fun s step => snd step s) steps (surface c) /\
    (_redo_stack c = [] -> _redo_stack (snd (save_all steps c)) = []) /\
    clock_reads (snd (save_all steps c)) = (clock_reads c + length steps)%nat.
Proof.
  induction steps as [| step rest IH]; intros c.
  - cbn. repeat split; auto.
  - cbn [save_all fold_left length]. unfold bind. rewrite save_then_edit_eq.
    cbn [fst snd].
    destruct (IH (mkCanvas (snd step (surface c))
                    (most_recent 30 (_undo_stack c ++ [snapshot c]))
                    (if fst step then [] else _redo_stack c)
                    (S (clock_reads c)))) as (Hs & Hr & Hc).
    cbn [surface _redo_stack clock_reads] in Hs, Hr, Hc.
    repeat split.
    + exact Hs.
    + intros E. apply Hr. rewrite E. destruct (fst step); reflexivity.
    + rewrite Hc. lia.
Qed.

Lemma keeps_size_fold (steps : list (bool * (Surface -> Surface))) :
  keeps_size steps ->
  forall s : Surface, size (fold_left (fun s step => snd step s) steps s) = size s.
Proof.
  induction 1 as [| step rest Hstep _ IH]; intros s; cbn [fold_left];
    [reflexivity | now rewrite IH, Hstep].
Qed.

Lemma pushed_sizes (steps : list (bool * (Surface -> Surface))) :
  keeps_size steps ->
  forall (s : Surface) (n : nat),
    Forall (fun u => QImage_size (image u) = size s) (pushed steps s n).
Proof.
  induction 1 as [| step rest Hstep _ IH]; intros s n; cbn [pushed]; constructor.
  - cbn [image]. apply get_qimage_size.
  - rewrite <- (Hstep s). apply IH.
Qed.

(** Undoing as many times as the top part [r] of the undo stack is long. *)
Lemma undo_times_stack (r : list UndoState) :
  forall (l : list UndoState) (s : Surface) (rs : list UndoState) (n : nat),
    Forall (fun u => QImage_size (image u) = size s) r ->
    let c' := undo_times (length r) (mkCanvas s (l ++ r) rs n) in
    _undo_stack c' = l /\
    size (surface c') = size s /\
    length (_redo_stack c') = (length rs + length r)%nat /\
    match r with
    | [] => surface c' = s
    | u :: _ => get_qimage (surface c') = image u
    end.
Proof.
  induction r as [| u r' IH] using rev_ind; intros l s rs n Hall c'.
  - subst c'. cbn. rewrite app_nil_r. repeat split. lia.
  - subst c'. rewrite length_app; cbn [length]. rewrite Nat.add_1_r.
    unfold undo_times. cbn [repeat run_ops run_op].
    apply Forall_app in Hall. destruct Hall as [Hr' Hu].
    inversion Hu as [| ? ? Hu' _]; subst.
    rewrite app_assoc, (undo_same_size _ _ _ _ _ Hu'). cbn [snd].
    assert (Hs' : size (set_image (image u) s) = size s)
      by (rewrite size_set_image; exact Hu').
    assert (Hr'' : Forall (fun v => QImage_size (image v) = size (set_image (image u) s)) r').
    { rewrite Hs'. exact Hr'. }
    specialize (IH l (set_image (image u) s)
                  (rs ++ [mkUndoState (get_qimage s) (now n)]) (S n) Hr'').
    cbv zeta in IH. unfold undo_times in IH.
    destruct IH as (I1 & I2 & I3 & I4).
    repeat split.
    + exact I1.
    + rewrite I2. exact Hs'.
    + rewrite I3. rewrite (length_app rs). cbn [length]. lia.
    + destruct r' as [| v r''].
      * cbn. apply get_qimage_set_image.
      * exact I4.
Qed.

Lemma undo_returns (c : Self) : fst (undo c) = Ok tt.
Proof.
  destruct c as [s us rs n].
  destruct (exists_last_or_nil us) as [-> | [l [u ->]]].
  - reflexivity.
  - rewrite undo_nonempty_eq. reflexivity.
Qed.

(** X5. Undoing everything, on a host that keeps the image it is given
    ([HostLaws]). After a series of edits on a new canvas, each keeping
    the size of the surface, as many [undo()] calls as the undo stack is
    deep all return without raising, empty the stack and bring back the
    content of its oldest state; with at most [MAX_UNDO] edits that is the
    content the canvas started with. Every undone content is then on the
    redo stack. *)
Theorem undo_all_restores_oldest
    (steps : list (bool * (Surface -> Surface))) (s0 : Surface) :
  keeps_size steps -> steps <> [] ->
  let c := snd (save_all steps (Canvas_init s0)) in
  let c' := undo_times (length (_undo_stack c)) c in
  (forall k : nat, (k < length (_undo_stack c))%nat ->
                   fst (undo (undo_times k c)) = Ok tt) /\
  _undo_stack c' = [] /\
  length (_redo_stack c') = length (_undo_stack c) /\
  (exists u rest, _undo_stack c = u :: rest /\ get_qimage (surface c') = image u) /\
  (len steps <= MAX_UNDO -> get_qimage (surface c') = get_qimage s0).
Proof.
  intros Hk Hne c c'.
  destruct (save_all_spec steps (Canvas_init s0)) as [_ Hstack].
  specialize (Hstack Hne). cbn [Canvas_init _undo_stack surface clock_reads app] in Hstack.
  destruct (save_all_state steps (Canvas_init s0)) as (Hsurf & Hredo & _).
  specialize (Hredo eq_refl). cbn [Canvas_init surface] in Hsurf.
  fold c in Hstack, Hsurf, Hredo.
  assert (Hsize : size (surface c) = size s0) by (rewrite Hsurf; apply keeps_size_fold, Hk).
  assert (Hall : Forall (fun u => QImage_size (image u) = size (surface c)) (_undo_stack c)).
  { rewrite Hstack, Hsize. apply Forall_most_recent, pushed_sizes, Hk. }
  assert (Hc : c = mkCanvas (surface c) ([] ++ _undo_stack c) [] (clock_reads c)).
  { destruct c as [s us rs n]. cbn in Hredo |- *. now rewrite Hredo. }
  destruct (undo_times_stack (_undo_stack c) [] (surface c) [] (clock_reads c) Hall)
    as (U1 & U2 & U3 & U4).
  rewrite <- Hc in U1, U2, U3, U4. fold c' in U1, U2, U3, U4.
  assert (Hnonempty : _undo_stack c <> []).
  { rewrite Hstack. intros E. apply (f_equal (@length _)) in E.
    rewrite most_recent_length, pushed_length in E. cbn in E.
    destruct steps; [congruence | cbn in E; lia]. }
  split; [intros k _; apply undo_returns |].
  split; [exact U1 |]. split; [exact U3 |]. split.
  - destruct (_undo_stack c) as [| u rest]; [congruence |].
    exists u, rest. split; [reflexivity | exact U4].
  - intros Hlen.
    assert (Hfull : _undo_stack c = pushed steps s0 0).
    { rewrite Hstack. apply most_recent_all. rewrite pushed_length.
      unfold len, MAX_UNDO in Hlen. lia. }
    rewrite Hfull in U4. destruct steps as [| step rest]; [congruence |].
    cbn [pushed] in U4. exact U4.
Qed.

End RoundTrips.

Lemma round_trip_witness :
  let edit := fun _ : QImage => Demo.solid Demo.blue in
  let out := bind (save_then_edit (true, edit)) (fun _ => undo) Demo.painted_red in
  fst out = Ok tt /\
  get_qimage (surface (snd out)) = get_qimage (surface Demo.painted_red) /\
  _redo_stack (snd out)
  = [] ++ [mkUndoState (get_qimage (edit (surface Demo.painted_red)))
             (now (S (clock_reads Demo.painted_red)))] /\
  (len (_undo_stack Demo.painted_red) < MAX_UNDO ->
   _undo_stack (snd out) = _undo_stack Demo.painted_red).
Proof.
  apply (save_edit_undo_round_trip true (fun _ : QImage => Demo.solid Demo.blue)
           Demo.painted_red).
  reflexivity.
Defined.

Lemma undo_all_witness :
  let steps := [(true, recolour Demo.red); (true, recolour Demo.blue)] in
  let c := snd (save_all steps (Canvas_init (Demo.solid Demo.blank))) in
  let c' := undo_times (length (_undo_stack c)) c in
  (forall k : nat, (k < length (_undo_stack c))%nat ->
                   fst (undo (undo_times k c)) = Ok tt) /\
  _undo_stack c' = [] /\
  length (_redo_stack c') = length (_undo_stack c) /\
  (exists u rest, _undo_stack c = u :: rest /\ get_qimage (surface c') = image u) /\
  (len steps <= MAX_UNDO -> get_qimage (surface c') = get_qimage (Demo.solid Demo.blank)).
Proof.
  apply (undo_all_restores_oldest
           [(true, recolour Demo.red); (true, recolour Demo.blue)] (Demo.solid Demo.blank)).
  - repeat constructor.
  - discriminate.
Defined.

(** * Further properties of the placement *)

Module PlacementMore.

Import Float64 Float64Facts PlacementFacts.
Local Open Scope Q_scope.

Lemma rnd64_lower (q : Q) : 0 <= q -> q - q * eps - eta <= rnd64 q.
Proof.
  intros Hq. destruct (rnd64_near q) as [L _].
  rewrite Qabs_pos in L by exact Hq. rewrite eps_pow2 in L.
  assert (E := eta_pow2). lra.
Qed.

Lemma py_min_cases (a b : Q) :
  py_min binary64 a b = a \/ py_min binary64 a b = b.
Proof. unfold py_min. destruct (fltb binary64 b a); auto. Qed.

Lemma truncate_eq_int (q : Q) (z : Z) : q == inject_Z z -> truncate q = z.
Proof.
  intros E. apply Z.le_antisymm.
  - apply truncate_le. rewrite E. apply Qle_refl.
  - apply truncate_ge. rewrite E. apply Qle_refl.
Qed.

Lemma Q_of_bounds (z lo hi : Z) :
  (lo <= z <= hi)%Z -> inject_Z lo <= inject_Z z /\ inject_Z z <= inject_Z hi.
Proof. intros [A B]. rewrite <- !Zle_Qle. split; assumption. Qed.

(** The scaled length is within a fraction of a pixel of the container's
    along the axis that limits the scale. *)
Lemma limiting_axis_fills (c i : Z) :
  (0 <= c < 2 ^ 33)%Z -> (1 <= i < 2 ^ 31)%Z ->
  inject_Z c - (1 # 2) <= rnd64 (fl i * rnd64 (fl c / fl i)).
Proof.
  intros Hc Hi.
  assert (Ec : fl c == inject_Z c) by (apply fl_int; lia).
  assert (Ei : fl i == inject_Z i) by (apply fl_int; lia).
  destruct (Q_of_bounds c 0 (2 ^ 33) ltac:(lia)) as [Qc0 Qc1].
  destruct (Q_of_bounds i 1 (2 ^ 31) ltac:(lia)) as [Qi0 Qi1].
  change (inject_Z 0) with 0 in Qc0. change (inject_Z (2 ^ 33)) with 8589934592 in Qc1.
  change (inject_Z 1) with 1 in Qi0. change (inject_Z (2 ^ 31)) with 2147483648 in Qi1.
  set (q := fl c / fl i).
  assert (Eq1 : fl i * q == inject_Z c) by (unfold q; rewrite Ec; field; lra).
  assert (Hq0 : 0 <= q) by (unfold q; apply Qle_shift_div_l; lra).
  assert (L1 := rnd64_lower q Hq0).
  assert (S0 : 0 <= rnd64 q) by (apply rnd64_nonneg, Hq0).
  assert (P0 : 0 <= fl i * rnd64 q) by (apply Qmult_le_0_compat; lra).
  assert (L2 := rnd64_lower (fl i * rnd64 q) P0).
  assert (U1 := rnd64_upper q Hq0).
  assert (M1 : fl i * (q - q * eps - eta) <= fl i * rnd64 q) by (apply Qmult_le_l; lra).
  assert (M2 : fl i * rnd64 q <= fl i * (q + q * eps + eta)) by (apply Qmult_le_l; lra).
  assert (X1 : fl i * (q - q * eps - eta)
               == inject_Z c - inject_Z c * eps - fl i * eta) by (rewrite <- Eq1; ring).
  assert (X2 : fl i * (q + q * eps + eta)
               == inject_Z c + inject_Z c * eps + fl i * eta) by (rewrite <- Eq1; ring).
  unfold eps, eta in *. lra.
Qed.

Section Results.

Variables (container_rect : QRect) (inner_size : QSize) (m : Z).
Hypothesis Hpre : placement_pre container_rect inner_size m.

(** X9. The placement is as large as the margins allow: unless an inner
    dimension is 0, the rectangle fills the container less its margins up
    to one pixel along the width or along the height. *)
Theorem placement_fills_one_axis :
  (1 <= sz_width inner_size)%Z -> (1 <= sz_height inner_size)%Z ->
  exists r,
    get_scaled_placement binary64 container_rect inner_size m = Ok r /\
    ((rc_width container_rect - m * 2 - 1 <= rc_width r
      <= rc_width container_rect - m * 2)%Z \/
     (rc_height container_rect - m * 2 - 1 <= rc_height r
      <= rc_height container_rect - m * 2)%Z).
Proof.
  intros Hiw Hih.
  destruct (placement_shape container_rect inner_size m Hpre)
    as (X & Y & E & (X1 & X2 & X3 & _) & (Y1 & Y2 & Y3 & _)).
  eexists; split; [exact E |]. cbn [rc_width rc_height].
  destruct Hpre as [Hx Hy Hw Hh Hm Hfw Hfh Hl Hr Ht Hb Hiw' Hih']. unfold c_int in *.
  unfold scale_of in *.
  replace (Z.max (sz_width inner_size) 1) with (sz_width inner_size) in * by lia.
  replace (Z.max (sz_height inner_size) 1) with (sz_height inner_size) in * by lia.
  set (sx := rnd64 (fl (rc_width container_rect - m * 2) / fl (sz_width inner_size))) in *.
  set (sy := rnd64 (fl (rc_height container_rect - m * 2) / fl (sz_height inner_size))) in *.
  destruct (py_min_cases sx sy) as [Es | Es]; rewrite Es in *.
  - left. split; [| lia].
    apply truncate_ge. rewrite inject_Z_sub. change (inject_Z 1) with 1.
    assert (F := limiting_axis_fills (rc_width container_rect - m * 2) (sz_width inner_size)
                   ltac:(lia) ltac:(lia)).
    fold sx in F. lra.
  - right. split; [| lia].
    apply truncate_ge. rewrite inject_Z_sub. change (inject_Z 1) with 1.
    assert (F := limiting_axis_fills (rc_height container_rect - m * 2) (sz_height inner_size)
                   ltac:(lia) ltac:(lia)).
    fold sy in F. lra.
Qed.

(** X10. The aspect ratio is kept up to the truncation of width and
    height: for inner sizes below [2^17], width times inner height and
    height times inner width differ by at most the larger inner dimension
    (one pixel either way). *)
Theorem placement_keeps_aspect_ratio :
  (sz_width inner_size < 2 ^ 17)%Z -> (sz_height inner_size < 2 ^ 17)%Z ->
  exists r,
    get_scaled_placement binary64 container_rect inner_size m = Ok r /\
    (Z.abs (rc_width r * sz_height inner_size - rc_height r * sz_width inner_size)
     <= Z.max (sz_width inner_size) (sz_height inner_size))%Z.
Proof.
  intros Biw Bih.
  destruct (placement_shape container_rect inner_size m Hpre) as (X & Y & E & _ & _).
  eexists; split; [exact E |]. cbn [rc_width rc_height].
  destruct Hpre as [Hx Hy Hw Hh Hm Hfw Hfh Hl Hr Ht Hb Hiw Hih]. unfold c_int in *.
  set (s := scale_of container_rect inner_size m).
  set (iw := sz_width inner_size) in *. set (ih := sz_height inner_size) in *.
  set (cw := (rc_width container_rect - m * 2)%Z).
  set (ch := (rc_height container_rect - m * 2)%Z).
  assert (Hsx : 0 <= rnd64 (fl cw / fl (Z.max iw 1))).
  { apply rnd64_nonneg, Qle_shift_div_l.
    - assert (P := fl_pos (Z.max iw 1) (Z.le_max_r _ 1)). lra.
    - rewrite Qmult_0_l. apply rnd64_nonneg. change 0 with (inject_Z 0).
      rewrite <- Zle_Qle. unfold cw. lia. }
  assert (Hsy : 0 <= rnd64 (fl ch / fl (Z.max ih 1))).
  { apply rnd64_nonneg, Qle_shift_div_l.
    - assert (P := fl_pos (Z.max ih 1) (Z.le_max_r _ 1)). lra.
    - rewrite Qmult_0_l. apply rnd64_nonneg. change 0 with (inject_Z 0).
      rewrite <- Zle_Qle. unfold ch. lia. }
  destruct (py_min_le (rnd64 (fl cw / fl (Z.max iw 1))) (rnd64 (fl ch / fl (Z.max ih 1))))
    as [Ls1 Ls2].
  assert (Hs : 0 <= s) by (apply py_min_nonneg; assumption).
  fold cw ch iw ih in Ls1, Ls2. change (py_min binary64 _ _) with s in Ls1, Ls2.
  destruct (scaled_length_bound cw iw s) as [Wx0 Wx1];
    [unfold cw; lia | lia | exact Hs | exact Ls1 |].
  destruct (scaled_length_bound ch ih s) as [Wy0 Wy1];
    [unfold ch; lia | lia | exact Hs | exact Ls2 |].
  set (W := rnd64 (fl iw * s)) in *. set (Hh' := rnd64 (fl ih * s)) in *.
  assert (Ea : fl iw == inject_Z iw) by (apply fl_int; lia).
  assert (Eb : fl ih == inject_Z ih) by (apply fl_int; lia).
  destruct (Q_of_bounds iw 0 (2 ^ 17 - 1) ltac:(lia)) as [Qa0 Qa1].
  destruct (Q_of_bounds ih 0 (2 ^ 17 - 1) ltac:(lia)) as [Qb0 Qb1].
  destruct (Q_of_bounds cw 0 (2 ^ 33) ltac:(unfold cw; lia)) as [_ Qcw].
  destruct (Q_of_bounds ch 0 (2 ^ 33) ltac:(unfold ch; lia)) as [_ Qch].
  change (inject_Z 0) with 0 in Qa0, Qb0.
  change (inject_Z (2 ^ 17 - 1)) with 131071 in Qa1, Qb1.
  change (inject_Z (2 ^ 33)) with 8589934592 in Qcw, Qch.
  set (a := inject_Z iw) in *. set (b := inject_Z ih) in *.
  assert (P1 : 0 <= fl iw * s) by (apply Qmult_le_0_compat; lra).
  assert (P2 : 0 <= fl ih * s) by (apply Qmult_le_0_compat; lra).
  assert (L1 := rnd64_lower _ P1). assert (U1 := rnd64_upper _ P1).
  assert (L2 := rnd64_lower _ P2). assert (U2 := rnd64_upper _ P2).
  fold W in L1, U1. fold Hh' in L2, U2.
  set (p1 := fl iw * s) in *. set (p2 := fl ih * s) in *.
  assert (Cross : p1 * b == p2 * a) by (unfold p1, p2; rewrite Ea, Eb; fold a b; ring).
  destruct (truncate_close W) as [w1 _].
  destruct (truncate_close Hh') as [h1 _].
  assert (w2 := truncate_below W Wx0). assert (h2 := truncate_below Hh' Wy0).
  set (w := truncate W) in *. set (h := truncate Hh') in *.
  set (e := 1 # 262144).
  assert (B1 : inject_Z w <= p1 + e /\ p2 - e - 1 <= inject_Z h /\
               inject_Z h <= p2 + e /\ p1 - e - 1 <= inject_Z w).
  { unfold e, eps, eta in *. repeat split; lra. }
  destruct B1 as (Bw & Bh & Bh' & Bw').
  assert (M1 : inject_Z w * b <= (p1 + e) * b) by (apply Qmult_le_compat_r; lra).
  assert (M2 : (p2 - e - 1) * a <= inject_Z h * a) by (apply Qmult_le_compat_r; lra).
  assert (M3 : (p1 - e - 1) * b <= inject_Z w * b) by (apply Qmult_le_compat_r; lra).
  assert (M4 : inject_Z h * a <= (p2 + e) * a) by (apply Qmult_le_compat_r; lra).
  assert (Ez : inject_Z (w * ih - h * iw) == inject_Z w * b - inject_Z h * a).
  { rewrite inject_Z_sub, !inject_Z_mult. reflexivity. }
  assert (Hi : (w * ih - h * iw < iw + 1)%Z).
  { rewrite Zlt_Qlt, Ez, inject_Z_plus. fold a. change (inject_Z 1) with 1.
    unfold e in *. lra. }
  assert (Lo : (- ih - 1 < w * ih - h * iw)%Z).
  { rewrite Zlt_Qlt, Ez, inject_Z_sub, inject_Z_opp. fold b. change (inject_Z 1) with 1.
    unfold e in *. lra. }
  lia.
Qed.

End Results.

Lemma lt_bool_false (x y : Q) : y <= x -> lt_bool x y = false.
Proof.
  intros L. destruct (lt_bool x y) eqn:E; [| reflexivity].
  apply lt_bool_iff in E. exfalso. lra.
Qed.

(** X8. An inner size that is exactly the container less its margins is
    placed unscaled, on that very rectangle; with margin 0, on the
    container itself. The container's fields, twice the margin, and the
    corner and the lengths of the rectangle are C [int]s. *)
Theorem placement_of_exact_fit (x0 y0 w h m : Z) :
  c_int x0 -> c_int y0 -> c_int w -> c_int h -> c_int (m * 2) ->
  c_int (x0 + m) -> c_int (y0 + m) ->
  (1 <= w - m * 2 < 2 ^ 31)%Z -> (1 <= h - m * 2 < 2 ^ 31)%Z ->
  get_scaled_placement binary64 (mkQRect x0 y0 w h) (mkQSize (w - m * 2) (h - m * 2)) m
  = Ok (mkQRect (x0 + m) (y0 + m) (w - m * 2) (h - m * 2)).
Proof.
  intros Hx Hy Hw Hh Hm Hox Hoy Hcw Hch.
  rewrite (get_scaled_placement_axes binary64 (mkQRect x0 y0 w h) _ m Hm
             ltac:(unfold c_int; cbn [rc_width]; lia)
             ltac:(unfold c_int; cbn [rc_height]; lia)).
  rewrite !int_truediv_max.
  cbn [rc_x rc_y rc_width rc_height sz_width sz_height rbind].
  set (cw := (w - m * 2)%Z) in *. set (ch := (h - m * 2)%Z) in *.
  replace (Z.max cw 1) with cw by lia. replace (Z.max ch 1) with ch by lia.
  assert (Ecw : fl cw == inject_Z cw) by (apply fl_int; unfold cw; lia).
  assert (Ech : fl ch == inject_Z ch) by (apply fl_int; unfold ch; lia).
  destruct (Q_of_bounds cw 1 cw ltac:(lia)) as [Qcw _].
  destruct (Q_of_bounds ch 1 ch ltac:(lia)) as [Qch _].
  change (inject_Z 1) with 1 in Qcw, Qch.
  assert (One : forall c : Z, fl c == inject_Z c -> 1 <= inject_Z c ->
                              rnd64 (fl c / fl c) == 1).
  { intros c Ec Qc. rewrite (rnd64_comp (fl c / fl c) 1); [reflexivity |].
    field. lra. }
  set (s := py_min binary64 (rnd64 (fl cw / fl cw)) (rnd64 (fl ch / fl ch))).
  assert (Es : s == 1).
  { unfold s. destruct (py_min_cases (rnd64 (fl cw / fl cw)) (rnd64 (fl ch / fl ch)))
      as [-> | ->]; apply One; assumption. }
  assert (Wx : rnd64 (fl cw * s) == inject_Z cw).
  { rewrite (rnd64_comp (fl cw * s) (inject_Z cw)) by (rewrite Es, Ecw; ring).
    apply rnd64_int. unfold cw. lia. }
  assert (Wy : rnd64 (fl ch * s) == inject_Z ch).
  { rewrite (rnd64_comp (fl ch * s) (inject_Z ch)) by (rewrite Es, Ech; ring).
    apply rnd64_int. unfold ch. lia. }
  rewrite !axis_binary64.
  rewrite (lt_bool_false (rnd64 (fl cw * s)) (fl cw)) by (rewrite Wx, Ecw; apply Qle_refl).
  rewrite (lt_bool_false (rnd64 (fl ch * s)) (fl ch)) by (rewrite Wy, Ech; apply Qle_refl).
  cbn [rbind py_int binary64 trunc fmul of_int].
  fold (fl cw) (fl ch).
  rewrite (truncate_eq_int _ _ Wx), (truncate_eq_int _ _ Wy).
  apply QRect_new_ok; unfold c_int, cw, ch in *; lia.
Qed.

Lemma placement_pre_wide :
  placement_pre (mkQRect 10 20 640 480) (mkQSize 3 7) 4.
Proof. constructor; unfold c_int; cbn; lia. Qed.

Lemma fills_one_axis_witness :
  exists r,
    get_scaled_placement binary64 (mkQRect 0 0 500 700) (mkQSize 1024 1024) 2 = Ok r /\
    ((500 - 2 * 2 - 1 <= rc_width r <= 500 - 2 * 2)%Z \/
     (700 - 2 * 2 - 1 <= rc_height r <= 700 - 2 * 2)%Z).
Proof.
  apply (placement_fills_one_axis (mkQRect 0 0 500 700) (mkQSize 1024 1024) 2%Z
           placement_pre_example); cbn; lia.
Defined.

Lemma keeps_aspect_ratio_witness :
  exists r,
    get_scaled_placement binary64 (mkQRect 10 20 640 480) (mkQSize 3 7) 4 = Ok r /\
    (Z.abs (rc_width r * 7 - rc_height r * 3) <= Z.max 3 7)%Z.
Proof.
  apply (placement_keeps_aspect_ratio (mkQRect 10 20 640 480) (mkQSize 3 7) 4%Z
           placement_pre_wide); cbn; lia.
Defined.

Lemma exact_fit_witness :
  get_scaled_placement binary64 (mkQRect 10 20 640 480) (mkQSize (640 - 4 * 2) (480 - 4 * 2)) 4
  = Ok (mkQRect (10 + 4) (20 + 4) (640 - 4 * 2) (480 - 4 * 2)).
Proof.
  apply (placement_of_exact_fit 10 20 640 480 4); unfold c_int; lia.
Defined.

End PlacementMore.

(** * Properties of the view *)

Module ViewFacts.

Import Float64 Float64Facts PlacementFacts PlacementMore.
Local Open Scope Q_scope.

Lemma fl_nonzero (z : Z) : z <> 0%Z -> ~ fl z == 0.
Proof.
  intros Hz E. destruct (Z.lt_trichotomy z 0) as [N | [Z0 | P]]; [| congruence |].
  - assert (L : fl z <= rnd64 (inject_Z (-1))).
    { apply rnd64_mono. rewrite <- Zle_Qle. lia. }
    change (rnd64 (inject_Z (-1))) with (- (1)) in L. lra.
  - assert (L := fl_pos z ltac:(lia)). lra.
Qed.

Lemma int_truediv_nonzero (a b : Z) :
  b <> 0%Z -> int_truediv binary64 a b = Ok (rnd64 (fl a / fl b)).
Proof.
  intros Hb. unfold int_truediv; cbn [binary64 fdiv of_int]. fold (fl a) (fl b).
  destruct (Qeq_bool (fl b) 0) eqn:E; [| reflexivity].
  apply Qeq_bool_iff in E. exfalso. exact (fl_nonzero b Hb E).
Qed.

Lemma int_truediv_zero (a : Z) : int_truediv binary64 a 0 = Raise ZeroDivisionError.
Proof. reflexivity. Qed.

(** [resizeEvent] with a content size, in terms of the placement. *)
Lemma resizeEvent_eq (size cs : QSize) (old : option QRect) :
  resizeEvent binary64 (mkView size (Some cs) old) =
  match get_scaled_placement binary64 (mkQRect 0 0 (sz_width size) (sz_height size)) cs
          (Z.min (sz_width size) (sz_height size) / 40 + 1) with
  | Raise e => (Raise e, mkView size (Some cs) old)
  | Ok rect =>
      (match int_truediv binary64 (rc_width rect) (sz_width cs) with
       | Raise e => Raise e
       | Ok _ =>
           match int_truediv binary64 (rc_height rect) (sz_height cs) with
           | Raise e => Raise e
           | Ok _ => Ok tt
           end
       end,
       mkView size (Some cs) (Some rect))
  end.
Proof.
  unfold resizeEvent, _border_size, bind, lift, modify, ret;
    cbn [_content_size view_size _content_rect].
  destruct (get_scaled_placement binary64 _ cs _) as [rect | e]; [| reflexivity].
  destruct (int_truediv binary64 (rc_width rect) (sz_width cs)); [| reflexivity].
  destruct (int_truediv binary64 (rc_height rect) (sz_height cs)); reflexivity.
Qed.

Lemma border_fits (w h : Z) :
  (2 <= w)%Z -> (2 <= h)%Z ->
  (1 <= Z.min w h / 40 + 1 /\ (Z.min w h / 40 + 1) * 2 <= Z.min w h)%Z.
Proof.
  intros Hw Hh. assert (D := Z.mul_div_le (Z.min w h) 40 ltac:(lia)).
  assert (P : (0 <= Z.min w h / 40)%Z) by (apply Z.div_pos; lia).
  lia.
Qed.

Lemma placed_rect (w h cw ch : Z) :
  (2 <= w < 2 ^ 31)%Z -> (2 <= h < 2 ^ 31)%Z ->
  (0 <= cw < 2 ^ 31)%Z -> (0 <= ch < 2 ^ 31)%Z ->
  let b := (Z.min w h / 40 + 1)%Z in
  exists r : QRect,
    get_scaled_placement binary64 (mkQRect 0 0 w h) (mkQSize cw ch) b = Ok r /\
    (1 <= b /\ 0 <= rc_width r /\ 0 <= rc_height r /\
     b <= rc_x r /\ rc_x r + rc_width r <= w - b /\
     b <= rc_y r /\ rc_y r + rc_height r <= h - b)%Z.
Proof.
  intros Hw Hh Hcw Hch b.
  destruct (border_fits w h ltac:(lia) ltac:(lia)) as [B1 B2]. fold b in B1, B2.
  assert (Hpre : placement_pre (mkQRect 0 0 w h) (mkQSize cw ch) b).
  { constructor; unfold c_int; cbn [rc_x rc_y rc_width rc_height sz_width sz_height]; lia. }
  destruct (placement_shape _ _ _ Hpre)
    as (X & Y & E & (X1 & X2 & X3 & _) & (Y1 & Y2 & Y3 & _)).
  cbn [rc_x rc_y rc_width rc_height] in X1, X2, Y1, Y2.
  eexists. split; [exact E |]. cbn [rc_x rc_y rc_width rc_height]. lia.
Qed.

(** X11. In a widget of at least 2 x 2 pixels showing content of at least
    1 x 1, [resizeEvent] returns and leaves a content rectangle of
    non-negative size that keeps the border free on every side of the
    widget; the border is at least one pixel. *)
Theorem resizeEvent_places_content (w h cw ch : Z) (old : option QRect) :
  (2 <= w < 2 ^ 31)%Z -> (2 <= h < 2 ^ 31)%Z ->
  (1 <= cw < 2 ^ 31)%Z -> (1 <= ch < 2 ^ 31)%Z ->
  let v := mkView (mkQSize w h) (Some (mkQSize cw ch)) old in
  let b := _border_size v in
  exists r : QRect,
    resizeEvent binary64 v = (Ok tt, mkView (mkQSize w h) (Some (mkQSize cw ch)) (Some r)) /\
    (1 <= b /\ 0 <= rc_width r /\ 0 <= rc_height r /\
     b <= rc_x r /\ rc_x r + rc_width r <= w - b /\
     b <= rc_y r /\ rc_y r + rc_height r <= h - b)%Z.
Proof.
  intros Hw Hh Hcw Hch v b. subst v b.
  unfold _border_size; cbn [view_size sz_width sz_height].
  destruct (placed_rect w h cw ch Hw Hh ltac:(lia) ltac:(lia)) as (r & E & B).
  exists r. split; [| exact B].
  rewrite resizeEvent_eq. cbn [sz_width sz_height]. rewrite E.
  rewrite !int_truediv_nonzero by lia. reflexivity.
Qed.

(** X12. [resizeEvent] where it raises. Without a content size it raises
    [RuntimeError] and changes nothing. In a widget of at least 2 x 2
    pixels, with a content size that is not negative and whose width or
    height is 0, the placement is made and stored, and the division by
    that dimension then raises [ZeroDivisionError]. *)
Theorem resizeEvent_raises (size : QSize) (old : option QRect) :
  resizeEvent binary64 (mkView size None old) = (Raise RuntimeError, mkView size None old) /\
  (forall cw ch : Z,
      (2 <= sz_width size < 2 ^ 31)%Z -> (2 <= sz_height size < 2 ^ 31)%Z ->
      (0 <= cw < 2 ^ 31)%Z -> (0 <= ch < 2 ^ 31)%Z ->
      (cw = 0 \/ ch = 0)%Z ->
      exists r : QRect,
        resizeEvent binary64 (mkView size (Some (mkQSize cw ch)) old)
        = (Raise ZeroDivisionError, mkView size (Some (mkQSize cw ch)) (Some r))).
Proof.
  split; [reflexivity |]. intros cw ch Hw Hh Hcw Hch Hz.
  destruct (placed_rect (sz_width size) (sz_height size) cw ch Hw Hh Hcw Hch)
    as (r & E & _).
  exists r. rewrite resizeEvent_eq, E. cbn [sz_width sz_height].
  destruct (Z.eq_dec cw 0) as [-> | Ncw].
  - rewrite int_truediv_zero. reflexivity.
  - destruct Hz as [? | ->]; [congruence |].
    rewrite (int_truediv_nonzero _ cw Ncw), int_truediv_zero. reflexivity.
Qed.

Lemma places_content_witness :
  exists r : QRect,
    resizeEvent binary64 (mkView (mkQSize 800 600) (Some (mkQSize 1024 1024)) None)
    = (Ok tt, mkView (mkQSize 800 600) (Some (mkQSize 1024 1024)) (Some r)) /\
    (1 <= 16 /\ 0 <= rc_width r /\ 0 <= rc_height r /\
     16 <= rc_x r /\ rc_x r + rc_width r <= 800 - 16 /\
     16 <= rc_y r /\ rc_y r + rc_height r <= 600 - 16)%Z.
Proof.
  apply (resizeEvent_places_content 800 600 1024 1024 None); lia.
Defined.

Lemma resizeEvent_raises_witness :
  exists r : QRect,
    resizeEvent binary64 (mkView (mkQSize 800 600) (Some (mkQSize 1024 0)) None)
    = (Raise ZeroDivisionError, mkView (mkQSize 800 600) (Some (mkQSize 1024 0)) (Some r)).
Proof.
  apply (proj2 (resizeEvent_raises (mkQSize 800 600) None) 1024%Z 0%Z);
    cbn [sz_width sz_height]; try lia.
Defined.

End ViewFacts.

(** * Properties of [scene_to_widget_coords] and of the [content_size] setter *)

Module MappingFacts.

Import Float64 Float64Facts PlacementFacts PlacementMore ViewFacts.
Local Open Scope Q_scope.

Lemma scene_to_widget_coords_eq (v : FixedAspectGraphicsView) (r : QRect) (cw ch : Z)
    (p : QPoint) :
  _content_rect v = Some r -> _content_size v = Some (mkQSize cw ch) ->
  cw <> 0%Z -> ch <> 0%Z ->
  scene_to_widget_coords binary64 p v
  = (Ok (widget_coord (rc_x r) (rc_width r) cw (pt_x p),
         widget_coord (rc_y r) (rc_height r) ch (pt_y p)), v).
Proof.
  intros Er Es Hcw Hch. unfold scene_to_widget_coords. rewrite Er, Es.
  unfold bind, lift, ret. cbn [sz_width sz_height].
  rewrite !int_truediv_nonzero by assumption. reflexivity.
Qed.

Lemma scale_nonneg (e c : Z) : (0 <= e)%Z -> (1 <= c)%Z -> 0 <= rnd64 (fl e / fl c).
Proof.
  intros He Hc. apply rnd64_nonneg.
  assert (P := fl_pos c Hc).
  assert (N : 0 <= fl e).
  { apply rnd64_nonneg. change 0 with (inject_Z 0). rewrite <- Zle_Qle. exact He. }
  apply Qle_shift_div_l; lra.
Qed.

Lemma widget_coord_mono (o e c a b : Z) :
  (0 <= e)%Z -> (1 <= c)%Z -> (a <= b)%Z ->
  widget_coord o e c a <= widget_coord o e c b.
Proof.
  intros He Hc Hab. unfold widget_coord.
  assert (S := scale_nonneg e c He Hc).
  assert (F : fl a <= fl b) by (apply rnd64_mono; rewrite <- Zle_Qle; exact Hab).
  apply rnd64_mono.
  assert (M : rnd64 (fl a * rnd64 (fl e / fl c)) <= rnd64 (fl b * rnd64 (fl e / fl c))).
  { apply rnd64_mono. apply Qmult_le_compat_r; assumption. }
  lra.
Qed.

Lemma widget_coord_origin (o e c : Z) :
  (Z.abs o < 2 ^ 53)%Z -> widget_coord o e c 0 == inject_Z o.
Proof.
  intros Ho. unfold widget_coord.
  assert (Z0 : fl 0 == 0) by (apply (fl_int 0); lia).
  rewrite (rnd64_zero (fl 0 * rnd64 (fl e / fl c))) by (rewrite Z0; ring).
  rewrite (rnd64_comp (fl o + 0) (inject_Z o)) by (rewrite (fl_int o Ho); ring).
  apply rnd64_int, Ho.
Qed.

(** The content's far edge lands on the placement's far edge. *)
Lemma widget_coord_far (o e c : Z) :
  c_int o -> (0 <= e < 2 ^ 31)%Z -> (1 <= c < 2 ^ 31)%Z ->
  inject_Z (o + e) - (1 # 1000) <= widget_coord o e c c <= inject_Z (o + e) + (1 # 1000).
Proof.
  unfold c_int. intros Ho He Hc. unfold widget_coord.
  assert (Eo : fl o == inject_Z o) by (apply fl_int; lia).
  assert (Ee : fl e == inject_Z e) by (apply fl_int; lia).
  assert (Ec : fl c == inject_Z c) by (apply fl_int; lia).
  destruct (Q_of_bounds o (- 2 ^ 31) (2 ^ 31) ltac:(lia)) as [Qo1 Qo2].
  destruct (Q_of_bounds e 0 (2 ^ 31) ltac:(lia)) as [Qe1 Qe2].
  destruct (Q_of_bounds c 1 (2 ^ 31) ltac:(lia)) as [Qc1 Qc2].
  change (inject_Z (- 2 ^ 31)) with (- (2147483648)) in Qo1.
  change (inject_Z (2 ^ 31)) with 2147483648 in Qo2, Qe2, Qc2.
  change (inject_Z 0) with 0 in Qe1. change (inject_Z 1) with 1 in Qc1.
  rewrite inject_Z_plus.
  set (O := inject_Z o) in *. set (E := inject_Z e) in *. set (C := inject_Z c) in *.
  set (q := fl e / fl c).
  assert (Eq1 : fl c * q == E) by (unfold q; rewrite <- Ee; field; lra).
  assert (Hq : 0 <= q) by (unfold q; apply Qle_shift_div_l; lra).
  assert (U := rnd64_upper q Hq). assert (L := rnd64_lower q Hq).
  set (xs := rnd64 q) in *.
  assert (Hxs : 0 <= xs) by (apply rnd64_nonneg, Hq).
  assert (PU : fl c * xs <= fl c * (q + q * eps + eta)) by (apply Qmult_le_l; lra).
  assert (PL : fl c * (q - q * eps - eta) <= fl c * xs) by (apply Qmult_le_l; lra).
  assert (X1 : fl c * (q - q * eps - eta) == E - E * eps - fl c * eta)
    by (rewrite <- Eq1; ring).
  assert (X2 : fl c * (q + q * eps + eta) == E + E * eps + fl c * eta)
    by (rewrite <- Eq1; ring).
  set (t := fl c * xs) in *.
  assert (Bt : - (2147483649) <= t <= 2147483649) by (unfold eps, eta in *; lra).
  assert (R1 := rnd64_close t 2147483649 Bt).
  set (p1 := rnd64 t) in *.
  assert (Bs : - (8589934592) <= fl o + p1 <= 8589934592) by (unfold eps, eta in *; lra).
  assert (R2 := rnd64_close (fl o + p1) 8589934592 Bs).
  unfold eps, eta in *. lra.
Qed.


Lemma QSize_eqb_true (a b : QSize) : QSize_eqb a b = true -> a = b.
Proof.
  destruct a, b. unfold QSize_eqb; cbn [sz_width sz_height]. intros E.
  apply andb_prop in E. destruct E as [E1 E2].
  apply Z.eqb_eq in E1, E2. congruence.
Qed.

Lemma same_content_size_iff (s : QSize) (v : FixedAspectGraphicsView) :
  same_content_size s v = true <-> _content_size v = Some s.
Proof.
  unfold same_content_size. destruct (_content_size v) as [old |].
  - split; intros E.
    + apply QSize_eqb_true in E. congruence.
    + apply QSize_eqb_same. congruence.
  - split; discriminate.
Qed.

(** [resizeEvent] writes the content rectangle only. *)
Lemma resizeEvent_keeps (A : FloatArith) (v : FixedAspectGraphicsView) :
  view_size (snd (resizeEvent A v)) = view_size v /\
  _content_size (snd (resizeEvent A v)) = _content_size v.
Proof.
  unfold resizeEvent. destruct (_content_size v) as [cs |] eqn:Ecs.
  - unfold bind, lift, modify, ret.
    destruct (get_scaled_placement A _ cs _) as [rect | e];
      [| cbn [snd]; split; [reflexivity | exact Ecs]].
    destruct (int_truediv A (rc_width rect) (sz_width cs));
      [| cbn [snd view_size _content_size]; split; [reflexivity | exact Ecs]].
    destruct (int_truediv A (rc_height rect) (sz_height cs));
      cbn [snd view_size _content_size]; split; (reflexivity || exact Ecs).
  - cbn [raise snd]. split; [reflexivity | exact Ecs].
Qed.

Lemma set_content_size_new (A : FloatArith) (s : QSize) (v : FixedAspectGraphicsView) :
  same_content_size s v = false ->
  set_content_size A s v = resizeEvent A (mkView (view_size v) (Some s) (_content_rect v)).
Proof. intros E. unfold set_content_size. rewrite E. reflexivity. Qed.

Lemma set_content_size_recorded (A : FloatArith) (s : QSize) (v : FixedAspectGraphicsView) :
  _content_size (snd (set_content_size A s v)) = Some s.
Proof.
  destruct (same_content_size s v) eqn:E.
  - unfold set_content_size. rewrite E. cbn [ret snd]. apply same_content_size_iff, E.
  - rewrite (set_content_size_new A s v E).
    destruct (resizeEvent_keeps A (mkView (view_size v) (Some s) (_content_rect v))) as [_ K].
    exact K.
Qed.

(** X14. Assigning [content_size] twice in a row: whatever the first
    assignment did, also when its [resizeEvent] raised, the second one
    returns at once and leaves the view as the first left it; the size
    assigned is the size recorded. *)
Theorem content_size_assigned_twice
    (A : FloatArith) (s : QSize) (v : FixedAspectGraphicsView) :
  let v1 := snd (set_content_size A s v) in
  _content_size v1 = Some s /\
  view_size v1 = view_size v /\
  set_content_size A s v1 = (Ok tt, v1).
Proof.
  intros v1. subst v1.
  assert (R := set_content_size_recorded A s v).
  split; [exact R | split].
  - destruct (same_content_size s v) eqn:E.
    + unfold set_content_size. rewrite E. reflexivity.
    + rewrite (set_content_size_new A s v E).
      destruct (resizeEvent_keeps A (mkView (view_size v) (Some s) (_content_rect v))) as [K _].
      exact K.
  - apply same_content_size_iff in R.
    unfold set_content_size at 1. rewrite R. reflexivity.
Qed.

(** X15. Assigning a new content size of at least 1 x 1 to a view of at
    least 2 x 2 pixels returns with a placement stored; the displayed
    content size fits between the borders; and from then on
    [scene_to_widget_coords] sends every point of the content between the
    borders of the widget, up to a thousandth of a pixel on the far
    side. *)
Theorem content_size_assigned_then_mapped (w h cw ch : Z) (v : FixedAspectGraphicsView) :
  view_size v = mkQSize w h ->
  (2 <= w < 2 ^ 31)%Z -> (2 <= h < 2 ^ 31)%Z ->
  (1 <= cw < 2 ^ 31)%Z -> (1 <= ch < 2 ^ 31)%Z ->
  _content_size v <> Some (mkQSize cw ch) ->
  let out := set_content_size binary64 (mkQSize cw ch) v in
  let b := _border_size v in
  fst out = Ok tt /\
  (exists d : QSize,
      displayed_content_size (snd out) = Some d /\
      (0 <= sz_width d <= w - b * 2 /\ 0 <= sz_height d <= h - b * 2)%Z) /\
  (forall p : QPoint,
      (0 <= pt_x p <= cw)%Z -> (0 <= pt_y p <= ch)%Z ->
      exists x y : Q,
        scene_to_widget_coords binary64 p (snd out) = (Ok (x, y), snd out) /\
        inject_Z b <= x <= inject_Z (w - b) + (1 # 1000) /\
        inject_Z b <= y <= inject_Z (h - b) + (1 # 1000)).
Proof.
  intros Ev Hw Hh Hcw Hch Hnew out b. subst out b.
  assert (F : same_content_size (mkQSize cw ch) v = false).
  { destruct (same_content_size (mkQSize cw ch) v) eqn:E; [| reflexivity].
    apply same_content_size_iff in E. contradiction. }
  rewrite (set_content_size_new binary64 _ v F), Ev.
  unfold _border_size. rewrite Ev. cbn [sz_width sz_height].
  destruct (placed_rect w h cw ch Hw Hh ltac:(lia) ltac:(lia)) as (r & E & B).
  set (b := (Z.min w h / 40 + 1)%Z) in *.
  rewrite resizeEvent_eq. cbn [sz_width sz_height]. fold b. rewrite E.
  rewrite !int_truediv_nonzero by lia. cbn [fst snd].
  destruct B as (B1 & Bw & Bh & Bx1 & Bx2 & By1 & By2).
  split; [reflexivity | split].
  - exists (QRect_size r). split; [reflexivity |].
    unfold QRect_size; cbn [sz_width sz_height]. lia.
  - intros p Hpx Hpy.
    eexists _, _. split.
    + apply (scene_to_widget_coords_eq _ r cw ch); try reflexivity; lia.
    + assert (Ox := widget_coord_origin (rc_x r) (rc_width r) cw ltac:(lia)).
      assert (Oy := widget_coord_origin (rc_y r) (rc_height r) ch ltac:(lia)).
      assert (Fx := widget_coord_far (rc_x r) (rc_width r) cw
                      ltac:(unfold c_int; lia) ltac:(lia) ltac:(lia)).
      assert (Fy := widget_coord_far (rc_y r) (rc_height r) ch
                      ltac:(unfold c_int; lia) ltac:(lia) ltac:(lia)).
      assert (Mx0 := widget_coord_mono (rc_x r) (rc_width r) cw 0 (pt_x p)
                       ltac:(lia) ltac:(lia) ltac:(lia)).
      assert (Mx1 := widget_coord_mono (rc_x r) (rc_width r) cw (pt_x p) cw
                       ltac:(lia) ltac:(lia) ltac:(lia)).
      assert (My0 := widget_coord_mono (rc_y r) (rc_height r) ch 0 (pt_y p)
                       ltac:(lia) ltac:(lia) ltac:(lia)).
      assert (My1 := widget_coord_mono (rc_y r) (rc_height r) ch (pt_y p) ch
                       ltac:(lia) ltac:(lia) ltac:(lia)).
      assert (Qx1 : inject_Z b <= inject_Z (rc_x r)) by (rewrite <- Zle_Qle; lia).
      assert (Qy1 : inject_Z b <= inject_Z (rc_y r)) by (rewrite <- Zle_Qle; lia).
      assert (Qx2 : inject_Z (rc_x r + rc_width r) <= inject_Z (w - b))
        by (rewrite <- Zle_Qle; lia).
      assert (Qy2 : inject_Z (rc_y r + rc_height r) <= inject_Z (h - b))
        by (rewrite <- Zle_Qle; lia).
      lra.
Qed.


Lemma assigned_then_mapped_witness :
  let v := mkView (mkQSize 800 600) None None in
  let out := set_content_size binary64 (mkQSize 1024 1024) v in
  fst out = Ok tt /\
  (exists d : QSize,
      displayed_content_size (snd out) = Some d /\
      (0 <= sz_width d <= 800 - _border_size v * 2 /\
       0 <= sz_height d <= 600 - _border_size v * 2)%Z) /\
  (forall p : QPoint,
      (0 <= pt_x p <= 1024)%Z -> (0 <= pt_y p <= 1024)%Z ->
      exists x y : Q,
        scene_to_widget_coords binary64 p (snd out) = (Ok (x, y), snd out) /\
        inject_Z (_border_size v) <= x <= inject_Z (800 - _border_size v) + (1 # 1000) /\
        inject_Z (_border_size v) <= y <= inject_Z (600 - _border_size v) + (1 # 1000)).
Proof.
  apply (content_size_assigned_then_mapped 800 600 1024 1024
           (mkView (mkQSize 800 600) None None)); try reflexivity; try lia.
  discriminate.
Defined.

(** The view after that assignment, computed. *)
Example assigned_view_computed :
  snd (set_content_size binary64 (mkQSize 1024 1024) (mkView (mkQSize 800 600) None None))
  = placed_view.
Proof. vm_compute. reflexivity. Qed.

End MappingFacts.

(** * The brush icons: [_IconButton.resizeEvent] *)

Module IconFacts.

Import Float64 Float64Facts PlacementFacts PlacementMore.
Local Open Scope Q_scope.

Lemma fl_0 : fl 0 = 0.
Proof. reflexivity. Qed.

Lemma half_floor (c : Z) :
  inject_Z (c / 2) <= inject_Z c / 2 /\ inject_Z c / 2 <= inject_Z (c / 2) + (1 # 2).
Proof.
  assert (D1 : (2 * (c / 2) <= c)%Z) by (apply Z.mul_div_le; lia).
  assert (D2 : (c <= 2 * (c / 2) + 1)%Z).
  { assert (M := Z.mod_pos_bound c 2 ltac:(lia)).
    assert (E := Z.div_mod c 2 ltac:(lia)). lia. }
  rewrite Zle_Qle in D1, D2.
  rewrite inject_Z_plus, inject_Z_mult in D2. rewrite inject_Z_mult in D1.
  change (inject_Z 2) with 2 in *. change (inject_Z 1) with 1 in *.
  change (inject_Z c / 2) with (inject_Z c * (1 # 2)).
  lra.
Qed.

(** With nothing to place, the position is the middle of the container. *)
Lemma axis_of_nothing (c : Z) (s : Q) :
  (0 <= c < 2 ^ 31)%Z -> rbind (axis binary64 0 c 0 s) py_int = Ok (c / 2)%Z.
Proof.
  intros Hc. rewrite axis_binary64.
  rewrite (rnd64_zero (fl 0 * s)) by (rewrite fl_0; ring).
  destruct (Z.eq_dec c 0) as [-> | Hnz].
  - reflexivity.
  - assert (P := fl_pos c ltac:(lia)).
    assert (T : lt_bool 0 (fl c) = true) by (apply lt_bool_iff; lra).
    rewrite T. cbn [rbind py_int binary64 trunc]. f_equal.
    assert (Ec : fl c == inject_Z c) by (apply fl_int; lia).
    destruct (half_floor c) as [F1 F2].
    assert (Kc : (0 <= c / 2 < 2 ^ 31)%Z).
    { split; [apply Z.div_pos; lia |].
      apply Z.div_lt_upper_bound; lia. }
    destruct (Q_of_bounds (c / 2) 0 (2 ^ 31) ltac:(lia)) as [K1 K2].
    change (inject_Z 0) with 0 in K1. change (inject_Z (2 ^ 31)) with 2147483648 in K2.
    destruct (Q_of_bounds c 0 (2 ^ 31) ltac:(lia)) as [C1 C2].
    change (inject_Z 0) with 0 in C1. change (inject_Z (2 ^ 31)) with 2147483648 in C2.
    set (k := inject_Z (c / 2)) in *.
    assert (E1 : rnd64 (fl c - 0) == inject_Z c).
    { rewrite (rnd64_comp (fl c - 0) (inject_Z c)) by (rewrite Ec; ring).
      apply rnd64_int. lia. }
    set (d := rnd64 (fl c - 0)) in *.
    assert (Bh : - (2147483648) <= d / 2 <= 2147483648).
    { change (d / 2) with (d * (1 # 2)). lra. }
    assert (L1 : k <= rnd64 (d / 2)).
    { apply rnd64_ge_int; [lia |]. fold k. change (d / 2) with (d * (1 # 2)).
      change (inject_Z c / 2) with (inject_Z c * (1 # 2)) in F1. lra. }
    assert (U1 := rnd64_close (d / 2) 2147483648 Bh).
    set (hf := rnd64 (d / 2)) in *.
    assert (U1' : hf <= k + (3 # 4)).
    { change (d / 2) with (d * (1 # 2)) in U1.
      change (inject_Z c / 2) with (inject_Z c * (1 # 2)) in F2.
      unfold eps, eta in U1. lra. }
    rewrite fl_0.
    assert (L2 : k <= rnd64 (0 + hf)).
    { apply rnd64_ge_int; [lia |]. fold k. lra. }
    assert (Bs : - (2147483649) <= 0 + hf <= 2147483649) by lra.
    assert (U2 := rnd64_close (0 + hf) 2147483649 Bs).
    set (v := rnd64 (0 + hf)) in *.
    assert (U2' : v < k + 1) by (unfold eps, eta in U2; lra).
    apply Z.le_antisymm.
    + assert (B := truncate_below v ltac:(lra)).
      assert (S : inject_Z (truncate v) < inject_Z (c / 2 + 1)).
      { rewrite inject_Z_plus. fold k. change (inject_Z 1) with 1. lra. }
      rewrite <- Zlt_Qlt in S. lia.
    + apply truncate_ge. fold k. exact L2.
Qed.

(** X16. The icon's rectangle always lies inside its button: for a button
    and an image of any C [int] sizes that are not negative,
    [_IconButton.resizeEvent] returns a rectangle of non-negative size
    within the button's [(0, 0, width, height)]. *)
Theorem icon_within_button (width height iw ih : Z) :
  (0 <= width < 2 ^ 31)%Z -> (0 <= height < 2 ^ 31)%Z ->
  (0 <= iw < 2 ^ 31)%Z -> (0 <= ih < 2 ^ 31)%Z ->
  exists r : QRect,
    IconButton_resizeEvent binary64 width height (mkQSize iw ih) = Ok r /\
    rect_within r (mkQRect 0 0 width height).
Proof.
  intros Hw Hh Hiw Hih. unfold IconButton_resizeEvent.
  assert (Hpre : placement_pre (mkQRect 0 0 width height) (mkQSize iw ih) 0).
  { constructor; unfold c_int; cbn [rc_x rc_y rc_width rc_height sz_width sz_height]; lia. }
  destruct (placement_shape _ _ _ Hpre)
    as (X & Y & E & (X1 & X2 & X3 & _) & (Y1 & Y2 & Y3 & _)).
  cbn [rc_x rc_y rc_width rc_height] in X1, X2, Y1, Y2.
  eexists. split; [exact E |].
  unfold rect_within; cbn [rc_x rc_y rc_width rc_height]. lia.
Qed.

(** X17. An icon file that does not load gives a pixmap of size 0 x 0; its
    rectangle is then the empty one at the middle of the button. *)
Theorem icon_of_empty_image (width height : Z) :
  (0 <= width < 2 ^ 31)%Z -> (0 <= height < 2 ^ 31)%Z ->
  IconButton_resizeEvent binary64 width height (mkQSize 0 0)
  = Ok (mkQRect (width / 2) (height / 2) 0 0).
Proof.
  intros Hw Hh. unfold IconButton_resizeEvent.
  rewrite (get_scaled_placement_axes binary64 (mkQRect 0 0 width height) (mkQSize 0 0) 0)
    by (unfold c_int; cbn [rc_width rc_height]; lia).
  rewrite !int_truediv_max.
  cbn [rc_x rc_y rc_width rc_height sz_width sz_height rbind].
  replace (width - 0 * 2)%Z with width by lia.
  replace (height - 0 * 2)%Z with height by lia.
  change (0 + 0)%Z with 0%Z.
  set (s := py_min binary64 _ _).
  assert (Ax := axis_of_nothing width s Hw).
  assert (Ay := axis_of_nothing height s Hh).
  destruct (axis binary64 0 width 0 s) as [x | e]; [| discriminate Ax].
  destruct (axis binary64 0 height 0 s) as [y | e]; [| discriminate Ay].
  cbn [rbind] in Ax, Ay |- *. rewrite Ax, Ay. cbn [rbind binary64 trunc fmul of_int].
  fold (fl 0). rewrite (rnd64_zero (fl 0 * s)) by (rewrite fl_0; ring).
  change (truncate 0) with 0%Z.
  assert (Dw : (0 <= width / 2 <= width)%Z).
  { split; [apply Z.div_pos; lia | apply Z.div_le_upper_bound; lia]. }
  assert (Dh : (0 <= height / 2 <= height)%Z).
  { split; [apply Z.div_pos; lia | apply Z.div_le_upper_bound; lia]. }
  apply QRect_new_ok; unfold c_int; lia.
Qed.

Lemma icon_within_button_witness :
  exists r : QRect,
    IconButton_resizeEvent binary64 64 48 (mkQSize 128 128) = Ok r /\
    rect_within r (mkQRect 0 0 64 48).
Proof. apply (icon_within_button 64 48 128 128); lia. Defined.

Lemma icon_of_empty_image_witness :
  IconButton_resizeEvent binary64 64 47 (mkQSize 0 0) = Ok (mkQRect (64 / 2) (47 / 2) 0 0).
Proof. apply (icon_of_empty_image 64 47); lia. Defined.

End IconFacts.

(** * The brush grid: [_GridIter] *)

Section GridFacts.

Context {T : Type}.

Lemma position_split (k : Z) : (k mod WIDTH + k / WIDTH * WIDTH = k)%Z.
Proof. unfold WIDTH. assert (E := Z.div_mod k 5 ltac:(lia)). lia. Qed.

Lemma position_succ (k : Z) :
  (if WIDTH <=? k mod WIDTH + 1
   then (0, k / WIDTH + 1) else (k mod WIDTH + 1, k / WIDTH))%Z
  = ((k + 1) mod WIDTH, (k + 1) / WIDTH)%Z.
Proof.
  unfold WIDTH.
  assert (M := Z.mod_pos_bound k 5 ltac:(lia)).
  assert (E := Z.div_mod k 5 ltac:(lia)).
  assert (M' := Z.mod_pos_bound (k + 1) 5 ltac:(lia)).
  assert (E' := Z.div_mod (k + 1) 5 ltac:(lia)).
  destruct (5 <=? k mod 5 + 1)%Z eqn:C; [apply Z.leb_le in C | apply Z.leb_gt in C];
    f_equal; lia.
Qed.

Lemma next_at_end (l : list T) (i k : Z) :
  (len l <= k)%Z ->
  GridIter_next (at_position l i k) = (StopIteration, at_position l i k).
Proof.
  intros Hk. unfold GridIter_next, at_position; cbn [_x _y _list _i].
  rewrite position_split.
  destruct (len l <=? k)%Z eqn:C; [reflexivity | apply Z.leb_gt in C; lia].
Qed.

Lemma next_at_item (l : list T) (i k : Z) :
  (k < len l)%Z ->
  GridIter_next (at_position l i k)
  = (match index l k with
     | Ok item => Item (k mod WIDTH) (k / WIDTH) item
     | Raise e => Raised e
     end, at_position l i (k + 1)).
Proof.
  intros Hk. unfold GridIter_next, at_position; cbn [_x _y _list _i].
  rewrite position_split.
  destruct (len l <=? k)%Z eqn:C; [apply Z.leb_le in C; lia |].
  assert (P := position_succ k).
  destruct (WIDTH <=? k mod WIDTH + 1)%Z; cbn [_x _y _list _i];
    injection P as S1 S2; rewrite <- ?S1, <- ?S2;
    destruct (index l k); reflexivity.
Qed.

Lemma nth_error_skipn_head (l : list T) (n : nat) (item : T) (rest : list T) :
  skipn n l = item :: rest -> nth_error l n = Some item /\ (n < length l)%nat.
Proof.
  intros E.
  assert (L : (n < length l)%nat).
  { destruct (Nat.le_gt_cases (length l) n) as [G | L]; [| exact L].
    rewrite skipn_all2 in E by lia. discriminate. }
  split; [| exact L].
  rewrite <- (firstn_skipn n l) at 1. rewrite E.
  rewrite nth_error_app2 by (rewrite firstn_length_le; lia).
  rewrite firstn_length_le by lia. rewrite Nat.sub_diag. reflexivity.
Qed.

Lemma index_nonneg (l : list T) (k : Z) (item : T) (rest : list T) :
  (0 <= k)%Z -> skipn (Z.to_nat k) l = item :: rest -> index l k = Ok item.
Proof.
  intros Hk E. unfold index, len.
  destruct (nth_error_skipn_head l _ item rest E) as [N B].
  destruct (k <? 0)%Z eqn:C1; [apply Z.ltb_lt in C1; lia |].
  destruct ((k <? 0)%Z || (Z.of_nat (length l) <=? k)%Z) eqn:C2.
  - apply orb_prop in C2. destruct C2 as [C2 | C2];
      [apply Z.ltb_lt in C2 | apply Z.leb_le in C2]; lia.
  - rewrite N. reflexivity.
Qed.

Lemma index_negative (l : list T) (k : Z) (item : T) (rest : list T) :
  (k < 0)%Z -> (0 <= k + len l)%Z ->
  skipn (Z.to_nat (k + len l)) l = item :: rest -> index l k = Ok item.
Proof.
  intros Hk Hl E. unfold index.
  destruct (nth_error_skipn_head l _ item rest E) as [N B].
  destruct (k <? 0)%Z eqn:C1; [| apply Z.ltb_ge in C1; lia].
  destruct ((k + len l <? 0)%Z || (len l <=? k + len l)%Z) eqn:C2.
  - apply orb_prop in C2. destruct C2 as [C2 | C2];
      [apply Z.ltb_lt in C2 | apply Z.leb_le in C2]; lia.
  - rewrite N. reflexivity.
Qed.

Lemma index_below (l : list T) (k : Z) : (k + len l < 0)%Z -> index l k = Raise IndexError.
Proof.
  intros Hk. unfold index. assert (0 <= len l)%Z by (unfold len; lia).
  destruct (k <? 0)%Z eqn:C1; [| apply Z.ltb_ge in C1; lia].
  destruct (k + len l <? 0)%Z eqn:C2; [reflexivity | apply Z.ltb_ge in C2; lia].
Qed.

Lemma skipn_succ (l : list T) (n : nat) (item : T) (rest : list T) :
  skipn n l = item :: rest -> skipn (S n) l = rest.
Proof.
  revert l. induction n as [| n IH]; intros l E.
  - cbn in E. subst l. reflexivity.
  - destruct l as [| a l]; [discriminate |]. cbn in E. exact (IH l E).
Qed.

(** From a position that is not negative, the rest of the list comes out
    cell by cell, and then [StopIteration], again and again. *)
Lemma drain_from (l : list T) (i : Z) (fuel : nat) :
  forall k : Z,
    (0 <= k)%Z -> (length l - Z.to_nat k < fuel)%nat ->
    exists g : GridIter T,
      drain fuel (at_position l i k)
      = Some (grid_cells k (skipn (Z.to_nat k) l), None, g) /\
      GridIter_next g = (StopIteration, g).
Proof.
  induction fuel as [| fuel IH]; intros k Hk Hf; [lia |].
  destruct (skipn (Z.to_nat k) l) as [| item rest] eqn:E.
  - assert (L : (len l <= k)%Z).
    { unfold len. destruct (Z.le_gt_cases (Z.of_nat (length l)) k) as [L | G]; [exact L |].
      assert (N : length (skipn (Z.to_nat k) l) = (length l - Z.to_nat k)%nat)
        by apply length_skipn.
      rewrite E in N. cbn in N. lia. }
    exists (at_position l i k). cbn [drain grid_cells].
    rewrite (next_at_end l i k L). split; reflexivity.
  - assert (L : (k < len l)%Z).
    { unfold len. destruct (Z.le_gt_cases (Z.of_nat (length l)) k) as [G | L]; [| lia].
      rewrite skipn_all2 in E by lia. discriminate. }
    destruct (IH (k + 1)%Z ltac:(lia) ltac:(unfold len in L; lia)) as (g & D & Stop).
    exists g. split; [| exact Stop].
    cbn [drain grid_cells]. rewrite (next_at_item l i k L), (index_nonneg l k item rest Hk E).
    rewrite D. replace (Z.to_nat (k + 1)) with (S (Z.to_nat k)) by lia.
    rewrite (skipn_succ l _ item rest E). reflexivity.
Qed.

(** X18. A [for] loop over [_GridIter(items, i)] with [i] not negative (the
    default is 0) visits the items from the [i]-th on, in list order; the
    item number [k] of the list comes with column [k mod 5] and row
    [k / 5]; the loop then ends on [StopIteration] without any other
    exception, and the exhausted iterator keeps raising [StopIteration]. *)
Theorem grid_iter_visits_in_order (items : list T) (i : Z) (fuel : nat) :
  (0 <= i)%Z -> (length items < fuel)%nat ->
  exists g : GridIter T,
    for_loop fuel (GridIter_init items i)
    = Some (grid_cells i (slice_from items i), None, g) /\
    GridIter_next g = (StopIteration, g).
Proof.
  intros Hi Hf. unfold for_loop, GridIter_iter, GridIter_init; cbn [_list _i].
  unfold slice_from. destruct (i <? 0)%Z eqn:C; [apply Z.ltb_lt in C; lia |].
  apply (drain_from items i fuel i Hi). lia.
Qed.

(** Before position 0, Python's negative indices read from the end of
    the list; at 0 the list starts over. *)
Lemma drain_before (l : list T) (i : Z) (n : nat) :
  forall (k : Z) (fuel : nat),
    k = (- Z.of_nat n)%Z -> (0 <= k + len l)%Z -> (length l + n < fuel)%nat ->
    exists g : GridIter T,
      drain fuel (at_position l i k)
      = Some (grid_cells k (slice_from l k) ++ (if (k <? 0)%Z then grid_cells 0 l else []),
              None, g) /\
      GridIter_next g = (StopIteration, g).
Proof.
  induction n as [| n IH]; intros k fuel Ek Hl Hf.
  - replace k with 0%Z by lia. cbn [Z.ltb Z.compare]. rewrite app_nil_r.
    apply (drain_from l i fuel 0%Z); lia.
  - destruct fuel as [| fuel]; [lia |].
    assert (Hk : (k < 0)%Z) by lia.
    assert (Es : slice_from l k = skipn (Z.to_nat (k + len l)) l).
    { unfold slice_from. destruct (k <? 0)%Z eqn:C; [| apply Z.ltb_ge in C; lia].
      rewrite Z.max_r by lia. reflexivity. }
    destruct (skipn (Z.to_nat (k + len l)) l) as [| item rest] eqn:E.
    { assert (N : length (skipn (Z.to_nat (k + len l)) l)
                  = (length l - Z.to_nat (k + len l))%nat) by apply length_skipn.
      rewrite E in N. cbn in N. unfold len in *. lia. }
    destruct (IH (k + 1)%Z fuel ltac:(lia) ltac:(lia) ltac:(lia)) as (g & D & Stop).
    exists g. split; [| exact Stop].
    cbn [drain]. rewrite (next_at_item l i k ltac:(unfold len in *; lia)).
    rewrite (index_negative l k item rest Hk Hl E), D, Es. cbn [grid_cells app].
    rewrite (proj2 (Z.ltb_lt k 0) Hk).
    assert (Er : grid_cells (k + 1) (slice_from l (k + 1))
                 ++ (if (k + 1 <? 0)%Z then grid_cells 0 l else [])
                 = grid_cells (k + 1) rest ++ grid_cells 0 l).
    { unfold slice_from. destruct (k + 1 <? 0)%Z eqn:C.
      - apply Z.ltb_lt in C. rewrite Z.max_r by lia.
        replace (Z.to_nat (k + 1 + len l)) with (S (Z.to_nat (k + len l))) by lia.
        rewrite (skipn_succ l _ item rest E). reflexivity.
      - apply Z.ltb_ge in C. assert (K : (k + 1 = 0)%Z) by lia.
        assert (N : length (skipn (Z.to_nat (k + len l)) l)
                    = (length l - Z.to_nat (k + len l))%nat) by apply length_skipn.
        rewrite E in N. cbn [length] in N.
        assert (R : rest = []).
        { destruct rest; [reflexivity |]. cbn [length] in N. unfold len in *. lia. }
        rewrite R, K. cbn [Z.to_nat skipn grid_cells app]. apply app_nil_r. }
    rewrite Er. reflexivity.
Qed.

(** X19. A negative start index, which the code accepts: down to minus the
    length of the list, the loop first visits the last [-i] items, in
    columns and rows counted from [i] (so in rows below 0), and then the
    whole list from position 0; below that, the first [next] raises
    [IndexError] and nothing is visited. *)
Theorem grid_iter_negative_start (items : list T) (i : Z) (fuel : nat) :
  (i < 0)%Z ->
  ((0 <= i + len items)%Z -> (length items + Z.to_nat (- i) < fuel)%nat ->
   exists g : GridIter T,
     for_loop fuel (GridIter_init items i)
     = Some (grid_cells i (slice_from items i) ++ grid_cells 0 items, None, g) /\
     GridIter_next g = (StopIteration, g)) /\
  ((i + len items < 0)%Z -> (0 < fuel)%nat ->
   exists g : GridIter T,
     for_loop fuel (GridIter_init items i) = Some ([], Some IndexError, g)).
Proof.
  intros Hi. unfold for_loop, GridIter_iter, GridIter_init; cbn [_list _i].
  fold (at_position items i i). split.
  - intros Hl Hf.
    destruct (drain_before items i (Z.to_nat (- i)) i fuel ltac:(lia) Hl Hf) as (g & D & Stop).
    rewrite (proj2 (Z.ltb_lt i 0) Hi) in D. exists g. split; assumption.
  - intros Hl Hf. destruct fuel as [| fuel]; [lia |].
    exists (at_position items i (i + 1)). cbn [drain].
    rewrite (next_at_item items i i ltac:(unfold len in *; lia)), (index_below items i Hl).
    reflexivity.
Qed.

End GridFacts.

Lemma visits_in_order_witness :
  exists g : GridIter Z,
    for_loop 8 (GridIter_init [10; 20; 30; 40; 50; 60; 70]%Z 0)
    = Some (grid_cells 0 (slice_from [10; 20; 30; 40; 50; 60; 70]%Z 0), None, g) /\
    GridIter_next g = (StopIteration, g).
Proof.
  apply (grid_iter_visits_in_order [10; 20; 30; 40; 50; 60; 70]%Z 0 8); cbn; lia.
Defined.

Lemma negative_start_witness :
  (exists g : GridIter Z,
      for_loop 6 (GridIter_init [10; 20; 30]%Z (-2))
      = Some (grid_cells (-2) (slice_from [10; 20; 30]%Z (-2)) ++ grid_cells 0 [10; 20; 30]%Z,
              None, g) /\
      GridIter_next g = (StopIteration, g)) /\
  (exists g : GridIter Z,
      for_loop 1 (GridIter_init [10; 20; 30]%Z (-4)) = Some ([], Some IndexError, g)).
Proof.
  split.
  - apply (proj1 (grid_iter_negative_start [10; 20; 30]%Z (-2) 6 ltac:(lia))); cbn; lia.
  - apply (proj2 (grid_iter_negative_start [10; 20; 30]%Z (-4) 1 ltac:(lia))); cbn; lia.
Defined.

(** Seven brushes fill the first row and start the second; from [-2] the
    last two come first, in row [-1]. *)
Example seven_brushes :
  option_map (fun run => fst (fst run))
    (for_loop 8 (GridIter_init [10; 20; 30; 40; 50; 60; 70]%Z 0))
  = Some [(0, 0, 10); (1, 0, 20); (2, 0, 30); (3, 0, 40); (4, 0, 50);
          (0, 1, 60); (1, 1, 70)]%Z /\
  option_map (fun run => fst (fst run)) (for_loop 6 (GridIter_init [10; 20; 30]%Z (-2)))
  = Some [(3, -1, 20); (4, -1, 30); (0, 0, 10); (1, 0, 20); (2, 0, 30)]%Z.
Proof. split; reflexivity. Qed.

(** * Properties of [MypaintCanvas] *)

Section MypaintFacts.

Context {B F : Type} {E : Mypaint.Engine B F}.

Local Abbreviation Self := (Mypaint.MypaintCanvas B).

(** The undo state that [_save_undo_state] pushes on a [MypaintCanvas]. *)
Local Abbreviation pushed_state x :=
  (mkUndoState (Mypaint.get_qimage (surface x)) (Mypaint.clock (clock_reads x))).

Ltac mypaint_unfold :=
  cbv beta iota zeta delta
    [Mypaint.stroke Mypaint.draw_all Mypaint.draw Mypaint.draw_point Mypaint.draw_line
     Mypaint._draw Mypaint.start_stroke Mypaint.end_stroke Mypaint.set_brush_size
     Mypaint.stroke_towards Mypaint.brushlib Mypaint.brush_size Mypaint.fill Mypaint.clear
     Mypaint.setVisible Mypaint.set_enabled Mypaint.self_set_image Mypaint.self_get_qimage
     Mypaint.run_call Mypaint.has_sketch
     Mypaint.set_base Mypaint.set__brush_size Mypaint.set__enabled Mypaint.set__visible
     Mypaint.set__drawing Mypaint.set__has_sketch Mypaint.set__saved_brush_size
     Mypaint.set__saved_image
     Mypaint.base Mypaint._brush_size Mypaint._enabled Mypaint._visible Mypaint._size
     Mypaint._drawing Mypaint._has_sketch Mypaint._saved_brush_size Mypaint._saved_image
     bind ret raise gets modify lift negb Bool.eqb fst snd
     surface _undo_stack _redo_stack clock_reads set_surface].

Lemma super_save (c : Self) :
  Mypaint.super (@_save_undo_state B Mypaint.host true) c =
  (Ok tt,
   Mypaint.set_base
     (mkCanvas (surface (Mypaint.base c))
        (trim (append (_undo_stack (Mypaint.base c)) (pushed_state (Mypaint.base c))))
        [] (S (clock_reads (Mypaint.base c)))) c).
Proof.
  unfold Mypaint.super. rewrite (@save_undo_state_eq B Mypaint.host true). reflexivity.
Qed.

Lemma start_stroke_eq (x : Canvas B) (bs : Z) (en : bool) (sz : QSize) (dr hs : bool)
    (sv : option Z) (si : option QImage) :
  Mypaint.start_stroke (Mypaint.mkMypaintCanvas x bs en true sz dr hs sv si) =
  (Ok tt,
   Mypaint.mkMypaintCanvas
     (mkCanvas (Mypaint.brushlib_start_stroke (surface x))
        (trim (append (_undo_stack x) (pushed_state x))) [] (S (clock_reads x)))
     bs en true sz true hs sv si).
Proof.
  unfold Mypaint.start_stroke. cbn [Mypaint._visible negb].
  unfold bind at 1. change (@start_stroke B Mypaint.host) with (@_save_undo_state B Mypaint.host true).
  rewrite super_save. reflexivity.
Qed.

Lemma float_limit_pos : 0 < Mypaint.FLOAT_LIMIT.
Proof. reflexivity. Qed.

Lemma size_fits_tests (size : Z) :
  Mypaint.size_fits size ->
  (Mypaint.FLOAT_LIMIT <=? size) || (size <=? - Mypaint.FLOAT_LIMIT) = false /\
  (size <=? 0) = false.
Proof.
  unfold Mypaint.size_fits. intros [H0 H1]. assert (L := float_limit_pos).
  rewrite (proj2 (Z.leb_gt Mypaint.FLOAT_LIMIT size) H1).
  rewrite (proj2 (Z.leb_gt size (- Mypaint.FLOAT_LIMIT))) by lia.
  split; [reflexivity | apply Z.leb_gt; exact H0].
Qed.

Lemma size_below_tests (size : Z) :
  - Mypaint.FLOAT_LIMIT < size <= 0 ->
  (Mypaint.FLOAT_LIMIT <=? size) || (size <=? - Mypaint.FLOAT_LIMIT) = false /\
  (size <=? 0) = true.
Proof.
  intros [H0 H1]. assert (L := float_limit_pos).
  rewrite (proj2 (Z.leb_gt Mypaint.FLOAT_LIMIT size)) by lia.
  rewrite (proj2 (Z.leb_gt size (- Mypaint.FLOAT_LIMIT))) by lia.
  split; [reflexivity | apply Z.leb_le; exact H1].
Qed.

Lemma draw_mid_stroke (u r : list UndoState) (n : nat) (b0 : Z) (d : Mypaint.DrawCall)
    (c : Self) :
  Mypaint.mid_stroke u r n b0 c -> Mypaint.override_fits d ->
  exists c', Mypaint.draw d c = (Ok tt, c') /\ Mypaint.mid_stroke u r n b0 c' /\
             Mypaint._has_sketch c' = true.
Proof.
  destruct c as [[s u' r' n'] bs en vis sz dr hs sv si]. unfold Mypaint.mid_stroke.
  cbn [Mypaint._visible Mypaint._drawing Mypaint.base Mypaint._saved_brush_size
       Mypaint._brush_size _undo_stack _redo_stack clock_reads].
  intros (-> & -> & -> & -> & -> & Hs) Hov.
  unfold Mypaint.override_fits in Hov.
  destruct d as [p col m o | l col m o]; cbn [Mypaint.size_override_of] in Hov;
    destruct o as [o |]; mypaint_unfold;
    try (destruct (size_fits_tests o Hov) as [T1 T2]; rewrite T1, T2);
    destruct sv as [sv |]; destruct m as [m |]; mypaint_unfold;
    (eexists; split; [reflexivity |]; cbn; intuition congruence).
Qed.

Lemma draw_all_mid_stroke (u r : list UndoState) (n : nat) (b0 : Z)
    (ds : list Mypaint.DrawCall) :
  Forall Mypaint.override_fits ds ->
  forall c : Self,
    Mypaint.mid_stroke u r n b0 c ->
    exists c', Mypaint.draw_all ds c = (Ok tt, c') /\ Mypaint.mid_stroke u r n b0 c' /\
               (ds <> [] -> Mypaint._has_sketch c' = true).
Proof.
  induction 1 as [| d ds Hd Hds IH]; intros c Hc.
  - exists c. split; [reflexivity | split; [exact Hc | congruence]].
  - destruct (draw_mid_stroke u r n b0 d c Hc Hd) as (c1 & E1 & H1 & S1).
    destruct (IH c1 H1) as (c2 & E2 & H2 & S2).
    exists c2. cbn [Mypaint.draw_all]. unfold bind. rewrite E1, E2.
    split; [reflexivity | split; [exact H2 |]]. intros _.
    destruct ds as [| d' ds']; [| apply S2; discriminate].
    cbn in E2. injection E2 as <-. exact S1.
Qed.

Lemma end_stroke_mid_stroke (u r : list UndoState) (n : nat) (b0 : Z) (c : Self) :
  Mypaint.mid_stroke u r n b0 c -> Mypaint.size_fits b0 ->
  exists c', Mypaint.end_stroke c = (Ok tt, c') /\
             Mypaint._visible c' = true /\ Mypaint._drawing c' = false /\
             Mypaint._saved_brush_size c' = None /\ Mypaint._brush_size c' = b0 /\
             Mypaint._has_sketch c' = Mypaint._has_sketch c /\
             _undo_stack (Mypaint.base c') = u /\ _redo_stack (Mypaint.base c') = r /\
             clock_reads (Mypaint.base c') = n.
Proof.
  destruct c as [[s u' r' n'] bs en vis sz dr hs sv si]. unfold Mypaint.mid_stroke.
  cbn [Mypaint._visible Mypaint._drawing Mypaint.base Mypaint._saved_brush_size
       Mypaint._brush_size _undo_stack _redo_stack clock_reads].
  intros (-> & -> & -> & -> & -> & [[-> ->] | ->]) Hb; mypaint_unfold.
  - eexists. split; [reflexivity |]. cbn. intuition congruence.
  - destruct (size_fits_tests b0 Hb) as [T1 T2]. rewrite T1, T2.
    eexists. split; [reflexivity |]. cbn. intuition congruence.
Qed.

Lemma stroke_run (ds : list Mypaint.DrawCall) (c : Self) :
  Mypaint._visible c = true ->
  Mypaint._saved_brush_size c = None ->
  Mypaint.size_fits (Mypaint._brush_size c) ->
  Forall Mypaint.override_fits ds ->
  exists c', Mypaint.stroke ds c = (Ok tt, c') /\
    Mypaint._visible c' = true /\ Mypaint._drawing c' = false /\
    Mypaint._saved_brush_size c' = None /\ Mypaint._brush_size c' = Mypaint._brush_size c /\
    (ds <> [] -> Mypaint._has_sketch c' = true) /\
    _undo_stack (Mypaint.base c')
    = trim (append (_undo_stack (Mypaint.base c)) (pushed_state (Mypaint.base c))) /\
    _redo_stack (Mypaint.base c') = [] /\
    clock_reads (Mypaint.base c') = S (clock_reads (Mypaint.base c)).
Proof.
  destruct c as [x bs en vis sz dr hs sv si].
  cbn [Mypaint._visible Mypaint._saved_brush_size Mypaint._brush_size Mypaint.base].
  intros -> -> Hb Hds.
  set (c1 := Mypaint.mkMypaintCanvas
               (mkCanvas (Mypaint.brushlib_start_stroke (surface x))
                  (trim (append (_undo_stack x) (pushed_state x))) [] (S (clock_reads x)))
               bs en true sz true hs None si).
  assert (H1 : Mypaint.mid_stroke (trim (append (_undo_stack x) (pushed_state x))) []
                 (S (clock_reads x)) bs c1).
  { unfold Mypaint.mid_stroke, c1. cbn. intuition congruence. }
  destruct (draw_all_mid_stroke _ _ _ _ ds Hds c1 H1) as (c2 & E2 & H2 & S2).
  destruct (end_stroke_mid_stroke _ _ _ _ c2 H2 Hb)
    as (c3 & E3 & V3 & D3 & SV3 & BS3 & HS3 & U3 & R3 & N3).
  exists c3. split.
  - unfold Mypaint.stroke, bind. rewrite start_stroke_eq. fold c1. rewrite E2, E3.
    reflexivity.
  - split; [exact V3 |]. split; [exact D3 |]. split; [exact SV3 |]. split; [exact BS3 |].
    split; [intros Hne; rewrite HS3; exact (S2 Hne) |].
    split; [exact U3 |]. split; [exact R3 | exact N3].
Qed.

(** X20. One stroke, one undo state. On a visible canvas, [start_stroke],
    any number of [draw_point] and [draw_line] calls, then [end_stroke]
    return without raising when the brush size and the size overrides are
    sizes that [set_brush_size] accepts; exactly one undo state is pushed,
    holding the image from before the stroke; the redo stack is emptied;
    and the brush size is back to what it was, whatever overrides the
    calls carried. *)
Theorem stroke_saves_one_undo_state (ds : list Mypaint.DrawCall) (c : Self) :
  Mypaint._visible c = true ->
  Mypaint._saved_brush_size c = None ->
  Mypaint.size_fits (Mypaint._brush_size c) ->
  Forall Mypaint.override_fits ds ->
  let out := Mypaint.stroke ds c in
  fst out = Ok tt /\
  _undo_stack (Mypaint.base (snd out))
  = trim (append (_undo_stack (Mypaint.base c)) (pushed_state (Mypaint.base c))) /\
  _redo_stack (Mypaint.base (snd out)) = [] /\
  clock_reads (Mypaint.base (snd out)) = S (clock_reads (Mypaint.base c)) /\
  Mypaint._brush_size (snd out) = Mypaint._brush_size c /\
  Mypaint._saved_brush_size (snd out) = None /\
  Mypaint._drawing (snd out) = false /\
  (ds <> [] -> Mypaint._has_sketch (snd out) = true).
Proof.
  intros Hv Hs Hb Hds out. subst out.
  destruct (stroke_run ds c Hv Hs Hb Hds) as (c' & Ec & V & D & SV & BS & HS & U & R & N).
  rewrite Ec. cbn [fst snd]. tauto.
Qed.

Lemma run_call_hidden (k : Mypaint.GuardedCall) (c : Self) :
  Mypaint._visible c = false -> Mypaint.run_call k c = (Ok tt, c).
Proof.
  intros Hv. destruct k as [| | [p col m o | l col m o] | col];
    unfold Mypaint.run_call, Mypaint.start_stroke, Mypaint.end_stroke, Mypaint.draw,
      Mypaint.draw_point, Mypaint.draw_line, Mypaint.fill;
    rewrite Hv; reflexivity.
Qed.

Lemma clear_eq (c : Self) :
  Mypaint.clear c =
  (Ok tt,
   Mypaint.mkMypaintCanvas
     (mkCanvas (Mypaint.clear_surface (surface (Mypaint.base c)))
        (trim (append (_undo_stack (Mypaint.base c)) (pushed_state (Mypaint.base c))))
        [] (S (clock_reads (Mypaint.base c))))
     (Mypaint._brush_size c) (Mypaint._enabled c) (Mypaint._visible c) (Mypaint._size c)
     (Mypaint._drawing c) false (Mypaint._saved_brush_size c) (Mypaint._saved_image c)).
Proof.
  unfold Mypaint.clear. unfold bind at 1.
  change (@clear B Mypaint.host) with (@_save_undo_state B Mypaint.host true).
  rewrite super_save. destruct c as [x bs en vis sz dr hs sv si]. reflexivity.
Qed.

(** X21. A hidden canvas ignores drawing: any series of [start_stroke],
    [end_stroke], [draw_point], [draw_line] and [fill] calls returns and
    leaves the canvas, its history and the engine untouched. [clear] has
    no such guard: hidden or not, it pushes an undo state, empties the
    redo stack and clears the surface. *)
Theorem hidden_canvas_ignores_drawing (ks : list Mypaint.GuardedCall) (c : Self) :
  Mypaint._visible c = false ->
  Mypaint.run_calls ks c = (Ok tt, c) /\
  fst (Mypaint.clear c) = Ok tt /\
  surface (Mypaint.base (snd (Mypaint.clear c)))
  = Mypaint.clear_surface (surface (Mypaint.base c)) /\
  _undo_stack (Mypaint.base (snd (Mypaint.clear c)))
  = trim (append (_undo_stack (Mypaint.base c)) (pushed_state (Mypaint.base c))) /\
  _redo_stack (Mypaint.base (snd (Mypaint.clear c))) = [].
Proof.
  intros Hv. split.
  - induction ks as [| k ks IH]; [reflexivity |].
    cbn [Mypaint.run_calls]. unfold bind. rewrite (run_call_hidden k c Hv). exact IH.
  - rewrite clear_eq. cbn. tauto.
Qed.

Lemma hide_eq (c : Self) :
  Mypaint._visible c = true ->
  Mypaint.setVisible false c =
  (Ok tt,
   Mypaint.mkMypaintCanvas
     (mkCanvas (Mypaint.clear_surface (surface (Mypaint.base c)))
        (trim (append (_undo_stack (Mypaint.base c)) (pushed_state (Mypaint.base c))))
        [] (S (clock_reads (Mypaint.base c))))
     (Mypaint._brush_size c) (Mypaint._enabled c) false (Mypaint._size c)
     (Mypaint._drawing c) false (Mypaint._saved_brush_size c)
     (Some (Mypaint.get_qimage (surface (Mypaint.base c))))).
Proof.
  intros Hv. unfold Mypaint.setVisible. rewrite Hv. cbn [Bool.eqb].
  unfold bind at 1. unfold modify at 1.
  cbn [Mypaint.set__visible Mypaint._visible].
  unfold bind at 1. unfold Mypaint.self_get_qimage, gets.
  unfold bind at 1. unfold modify at 1. rewrite clear_eq.
  destruct c as [x bs en vis sz dr hs sv si]. reflexivity.
Qed.

Lemma show_eq (x : Canvas B) (bs : Z) (en : bool) (sz : QSize) (dr hs : bool)
    (sv : option Z) (i : QImage) :
  Mypaint.setVisible true (Mypaint.mkMypaintCanvas x bs en false sz dr hs sv (Some i)) =
  (Ok tt,
   Mypaint.mkMypaintCanvas
     (mkCanvas (Mypaint.set_image i (surface x)) (_undo_stack x) (_redo_stack x)
        (clock_reads x))
     bs en true sz dr hs sv None).
Proof. reflexivity. Qed.

(** X22. Hiding a visible canvas and showing it again. Hiding keeps the
    image aside and goes through [clear], so it pushes that image as an
    undo state, empties the redo stack and clears the surface. Showing
    loads the image back into the cleared surface and touches neither
    stack; [has_sketch] stays [False] although the image is back. Asking
    for the visibility the canvas already has does nothing. *)
Theorem hide_then_show (c : Self) :
  Mypaint._visible c = true ->
  let hidden := snd (Mypaint.setVisible false c) in
  let shown := snd (Mypaint.setVisible true hidden) in
  Mypaint.setVisible true c = (Ok tt, c) /\
  Mypaint.setVisible false hidden = (Ok tt, hidden) /\
  fst (Mypaint.setVisible false c) = Ok tt /\
  fst (Mypaint.setVisible true hidden) = Ok tt /\
  Mypaint._saved_image hidden = Some (Mypaint.get_qimage (surface (Mypaint.base c))) /\
  surface (Mypaint.base hidden) = Mypaint.clear_surface (surface (Mypaint.base c)) /\
  _undo_stack (Mypaint.base hidden)
  = trim (append (_undo_stack (Mypaint.base c)) (pushed_state (Mypaint.base c))) /\
  _redo_stack (Mypaint.base hidden) = [] /\
  surface (Mypaint.base shown)
  = Mypaint.set_image (Mypaint.get_qimage (surface (Mypaint.base c)))
      (Mypaint.clear_surface (surface (Mypaint.base c))) /\
  _undo_stack (Mypaint.base shown) = _undo_stack (Mypaint.base hidden) /\
  _redo_stack (Mypaint.base shown) = [] /\
  Mypaint._visible shown = true /\
  Mypaint._saved_image shown = None /\
  Mypaint._has_sketch shown = false.
Proof.
  intros Hv hidden shown. subst shown hidden.
  rewrite (hide_eq c Hv). cbn [snd]. rewrite show_eq. cbn [fst snd].
  split; [unfold Mypaint.setVisible; rewrite Hv; reflexivity |].
  split; [reflexivity |]. cbn. tauto.
Qed.

(** X23. [set_enabled] keeps the two flags together: on a canvas whose
    [_enabled] and [_visible] agree, as they do from [__init__] on, it
    returns and leaves both equal to its argument. *)
Theorem set_enabled_sets_visible (enabled : bool) (c : Self) :
  Mypaint._enabled c = Mypaint._visible c ->
  let out := Mypaint.set_enabled enabled c in
  fst out = Ok tt /\
  Mypaint._enabled (snd out) = enabled /\
  Mypaint._visible (snd out) = enabled.
Proof.
  destruct c as [x bs en vis sz dr hs sv si]. cbn [Mypaint._enabled Mypaint._visible].
  intros ->. destruct enabled, vis.
  - cbn. tauto.
  - destruct si as [i |]; repeat split.
  - cbn. rewrite !clear_eq. cbn. tauto.
  - cbn. tauto.
Qed.

(** X24. [set_brush_size] records the size in every case, and returns
    exactly when the size is positive and its half fits a float: then the
    engine gets the logarithm of half the size as its radius. For a size
    of 0 or less whose half still fits a float, [math.log] raises
    [ValueError]; for a size from [FLOAT_LIMIT] on, or from
    [- FLOAT_LIMIT] down, the division raises [OverflowError]; and the
    engine is not told. Through a size override the [ValueError] comes up
    in the middle of a drawing call: the old size has been put aside,
    nothing is drawn and no undo state is pushed. *)
Theorem set_brush_size_cases (size : Z) (c : Self) :
  (Mypaint.size_fits size ->
   Mypaint.set_brush_size size c
   = (Ok tt,
      Mypaint.set_base
        (set_surface (Mypaint.set_radius_log (Mypaint.log_half size)
                        (surface (Mypaint.base c))) (Mypaint.base c))
        (Mypaint.set__brush_size size c))) /\
  (- Mypaint.FLOAT_LIMIT < size <= 0 ->
   Mypaint.set_brush_size size c = (Raise ValueError, Mypaint.set__brush_size size c)) /\
  (Mypaint.FLOAT_LIMIT <= size \/ size <= - Mypaint.FLOAT_LIMIT ->
   Mypaint.set_brush_size size c = (Raise OverflowError, Mypaint.set__brush_size size c)) /\
  (- Mypaint.FLOAT_LIMIT < size <= 0 ->
   Mypaint._visible c = true -> Mypaint._saved_brush_size c = None ->
   forall (point : QPoint) (color : QColor) (size_multiplier : option F),
     Mypaint.draw_point point color size_multiplier (Some size) c
     = (Raise ValueError,
        Mypaint.set__brush_size size
          (Mypaint.set__saved_brush_size (Some (Mypaint._brush_size c)) c))).
Proof.
  split; [| split; [| split]].
  - intros Hs. destruct (size_fits_tests size Hs) as [T1 T2].
    unfold Mypaint.set_brush_size, bind, modify. rewrite T1, T2. reflexivity.
  - intros Hs. destruct (size_below_tests size Hs) as [T1 T2].
    unfold Mypaint.set_brush_size, bind, modify. rewrite T1, T2. reflexivity.
  - intros Hs.
    assert (T : (Mypaint.FLOAT_LIMIT <=? size) || (size <=? - Mypaint.FLOAT_LIMIT) = true).
    { apply orb_true_iff. rewrite !Z.leb_le. exact Hs. }
    unfold Mypaint.set_brush_size, bind, modify. rewrite T. reflexivity.
  - intros Hs Hv Hsv p col m. destruct (size_below_tests size Hs) as [T1 T2].
    destruct c as [x bs en vis sz dr hs sv si].
    cbn [Mypaint._visible Mypaint._saved_brush_size] in Hv, Hsv. subst vis sv.
    mypaint_unfold. rewrite T1, T2. reflexivity.
Qed.

Lemma filled_image_wf (w h : Z) (color : QColor) :
  0 <= w -> 0 <= h -> QImage_wf (Mypaint.filled_image (mkQSize w h) color).
Proof.
  intros Hw Hh. unfold QImage_wf, Mypaint.filled_image, len; cbn [img_width img_height
    scanlines sz_width sz_height].
  split; [exact Hw | split; [exact Hh | split]].
  - rewrite repeat_length. lia.
  - apply Forall_forall. intros row Hin. apply repeat_spec in Hin. subst row.
    rewrite repeat_length. lia.
Qed.

Lemma filled_image_pixel (w h : Z) (color : QColor) (p : QPoint) :
  0 <= pt_x p < w -> 0 <= pt_y p < h ->
  QImage_pixelColor (Mypaint.filled_image (mkQSize w h) color) p = color.
Proof.
  intros Hx Hy.
  destruct (pixelColor_stored (Mypaint.filled_image (mkQSize w h) color) p)
    as (row & px & Hr & Hp & Hc).
  - apply filled_image_wf; lia.
  - split; assumption.
  - rewrite Hc. apply nth_error_In in Hr. cbn [Mypaint.filled_image scanlines] in Hr.
    apply repeat_spec in Hr. subst row. apply nth_error_In in Hp.
    apply repeat_spec in Hp. exact Hp.
Qed.

Lemma fill_eq (color : QColor) (c : Self) :
  Mypaint._visible c = true ->
  Mypaint.fill color c =
  (Ok tt,
   Mypaint.mkMypaintCanvas
     (mkCanvas
        (Mypaint.set_image
           (Mypaint.qt_filled (Mypaint.size (surface (Mypaint.base c))) color)
           (surface (Mypaint.base c)))
        (trim (append (_undo_stack (Mypaint.base c)) (pushed_state (Mypaint.base c))))
        [] (S (clock_reads (Mypaint.base c))))
     (Mypaint._brush_size c) (Mypaint._enabled c) true (Mypaint._size c)
     (Mypaint._drawing c) true (Mypaint._saved_brush_size c) (Mypaint._saved_image c)).
Proof.
  intros Hv. unfold Mypaint.fill. rewrite Hv. cbn [negb].
  unfold bind at 1. change (@fill B Mypaint.host color) with (@_save_undo_state B Mypaint.host true).
  rewrite super_save. destruct c as [x bs en vis sz dr hs sv si].
  cbn [Mypaint._visible] in Hv. subst vis. reflexivity.
Qed.

(** X25. [fill] and then [get_color_at_point]. Take a visible canvas
    whose engine renders the image it was given, and a colour that
    [fillRect] leaves on every pixel, as an opaque one. Then [fill]
    returns having pushed one undo state; afterwards [get_color_at_point]
    returns the fill colour at every point of the surface and the
    transparent [QColor(0, 0, 0, 0)] at every other point, without
    changing the canvas. *)
Theorem fill_then_get_color_at_point (color : QColor) (c : Self) (w h : Z) :
  (forall (i : QImage) (b : B), Mypaint.get_qimage (Mypaint.set_image i b) = i) ->
  Mypaint.qt_filled (mkQSize w h) color = Mypaint.filled_image (mkQSize w h) color ->
  Mypaint._visible c = true ->
  Mypaint.size (surface (Mypaint.base c)) = mkQSize w h -> 0 <= w -> 0 <= h ->
  let out := Mypaint.fill color c in
  fst out = Ok tt /\
  _undo_stack (Mypaint.base (snd out))
  = trim (append (_undo_stack (Mypaint.base c)) (pushed_state (Mypaint.base c))) /\
  Mypaint._has_sketch (snd out) = true /\
  forall point : QPoint,
    Mypaint.get_color_at_point point (snd out)
    = (Ok (if (0 <=? pt_x point) && (pt_x point <? w) &&
              (0 <=? pt_y point) && (pt_y point <? h)
           then color else QColor_rgba 0 0 0 0),
       snd out).
Proof.
  intros Hlaw Hfill Hv Hsz Hw Hh out. subst out.
  rewrite (fill_eq color c Hv), Hsz, Hfill. cbn [fst snd Mypaint.base _undo_stack Mypaint._has_sketch].
  split; [reflexivity | split; [reflexivity | split; [reflexivity |]]].
  intros p. unfold Mypaint.get_color_at_point, Mypaint.super. cbn [Mypaint.base].
  unfold get_color_at_point, bind, self_get_qimage, gets, ret.
  cbn [surface]. change (@get_qimage B Mypaint.host) with (@Mypaint.get_qimage B F E).
  rewrite Hlaw.
  set (img := Mypaint.filled_image (mkQSize w h) color).
  assert (Hiff := rect_contains_iff img p Hw Hh).
  destruct (QRect_contains (QImage_rect img) p) eqn:Ec.
  - destruct (proj1 Hiff eq_refl) as [Hx Hy]. cbn [img Mypaint.filled_image img_width
      img_height sz_width sz_height] in Hx, Hy.
    cbn [surface]. change (@get_qimage B Mypaint.host) with (@Mypaint.get_qimage B F E).
    rewrite Hlaw. subst img. rewrite (filled_image_pixel w h color p Hx Hy).
    rewrite (proj2 (Z.leb_le 0 (pt_x p))), (proj2 (Z.ltb_lt (pt_x p) w)),
      (proj2 (Z.leb_le 0 (pt_y p))), (proj2 (Z.ltb_lt (pt_y p) h)) by lia.
    reflexivity.
  - destruct ((0 <=? pt_x p) && (pt_x p <? w) && (0 <=? pt_y p) && (pt_y p <? h)) eqn:Eb;
      [| reflexivity].
    rewrite !andb_true_iff, !Z.leb_le, !Z.ltb_lt in Eb.
    assert (Hin : in_image img p).
    { unfold in_image. cbn [img Mypaint.filled_image img_width img_height sz_width
        sz_height]. lia. }
    apply Hiff in Hin. discriminate.
Qed.

End MypaintFacts.

Lemma scribble_fits : Forall Mypaint.override_fits DemoEngine.scribble.
Proof. repeat constructor. Qed.

Lemma one_undo_state_witness :
  let c := DemoEngine.fresh in
  let out := @Mypaint.stroke _ _ DemoEngine.engine DemoEngine.scribble c in
  fst out = Ok tt /\
  _undo_stack (Mypaint.base (snd out))
  = trim (append (_undo_stack (Mypaint.base c))
            (mkUndoState (@Mypaint.get_qimage _ _ DemoEngine.engine (surface (Mypaint.base c)))
               (@Mypaint.clock _ _ DemoEngine.engine (clock_reads (Mypaint.base c))))) /\
  _redo_stack (Mypaint.base (snd out)) = [] /\
  clock_reads (Mypaint.base (snd out)) = S (clock_reads (Mypaint.base c)) /\
  Mypaint._brush_size (snd out) = Mypaint._brush_size c /\
  Mypaint._saved_brush_size (snd out) = None /\
  Mypaint._drawing (snd out) = false /\
  (DemoEngine.scribble <> [] -> Mypaint._has_sketch (snd out) = true).
Proof.
  apply (@stroke_saves_one_undo_state _ _ DemoEngine.engine DemoEngine.scribble
           DemoEngine.fresh); try reflexivity.
  - split; reflexivity.
  - exact scribble_fits.
Defined.

Lemma hidden_canvas_witness :
  let c := snd (@Mypaint.setVisible _ _ DemoEngine.engine false DemoEngine.fresh) in
  let ks := [Mypaint.CallStartStroke;
             Mypaint.CallDraw (Mypaint.DrawPoint (mkQPoint 0 0) Demo.red None None);
             Mypaint.CallFill Demo.blue; Mypaint.CallEndStroke] in
  @Mypaint.run_calls _ _ DemoEngine.engine ks c = (Ok tt, c) /\
  fst (@Mypaint.clear _ _ DemoEngine.engine c) = Ok tt /\
  surface (Mypaint.base (snd (@Mypaint.clear _ _ DemoEngine.engine c)))
  = @Mypaint.clear_surface _ _ DemoEngine.engine (surface (Mypaint.base c)) /\
  _undo_stack (Mypaint.base (snd (@Mypaint.clear _ _ DemoEngine.engine c)))
  = trim (append (_undo_stack (Mypaint.base c))
            (mkUndoState (@Mypaint.get_qimage _ _ DemoEngine.engine (surface (Mypaint.base c)))
               (@Mypaint.clock _ _ DemoEngine.engine (clock_reads (Mypaint.base c))))) /\
  _redo_stack (Mypaint.base (snd (@Mypaint.clear _ _ DemoEngine.engine c))) = [].
Proof.
  intros c ks.
  apply (@hidden_canvas_ignores_drawing _ _ DemoEngine.engine ks c). reflexivity.
Defined.

Lemma hide_then_show_witness :
  let c := snd (@Mypaint.stroke _ _ DemoEngine.engine DemoEngine.scribble DemoEngine.fresh) in
  let hidden := snd (@Mypaint.setVisible _ _ DemoEngine.engine false c) in
  let shown := snd (@Mypaint.setVisible _ _ DemoEngine.engine true hidden) in
  @Mypaint.get_qimage _ _ DemoEngine.engine (surface (Mypaint.base shown))
  = @Mypaint.get_qimage _ _ DemoEngine.engine (surface (Mypaint.base c)) /\
  len (_undo_stack (Mypaint.base shown)) = len (_undo_stack (Mypaint.base c)) + 1 /\
  Mypaint._has_sketch c = true /\
  Mypaint._has_sketch shown = false.
Proof.
  intros c hidden shown.
  destruct (@hide_then_show _ _ DemoEngine.engine c eq_refl)
    as (_ & _ & _ & _ & _ & _ & _ & _ & Hs & Hu & _ & _ & _ & Hh).
  fold hidden in Hs, Hu, Hh. fold shown in Hs, Hu, Hh.
  split; [rewrite Hs; reflexivity |]. split; [rewrite Hu; reflexivity |].
  split; [reflexivity | exact Hh].
Defined.

Lemma set_enabled_witness :
  let out := @Mypaint.set_enabled _ _ DemoEngine.engine false DemoEngine.fresh in
  fst out = Ok tt /\
  Mypaint._enabled (snd out) = false /\
  Mypaint._visible (snd out) = false.
Proof.
  apply (@set_enabled_sets_visible _ _ DemoEngine.engine false DemoEngine.fresh).
  reflexivity.
Defined.

Lemma set_brush_size_witness :
  @Mypaint.set_brush_size _ _ DemoEngine.engine 300 DemoEngine.fresh
  = (Ok tt,
     Mypaint.set_base
       (set_surface (@Mypaint.set_radius_log _ _ DemoEngine.engine
                       (@Mypaint.log_half _ _ DemoEngine.engine 300)
                       (surface (Mypaint.base DemoEngine.fresh)))
          (Mypaint.base DemoEngine.fresh))
       (Mypaint.set__brush_size 300 DemoEngine.fresh)) /\
  @Mypaint.set_brush_size _ _ DemoEngine.engine 0 DemoEngine.fresh
  = (Raise ValueError, Mypaint.set__brush_size 0 DemoEngine.fresh) /\
  @Mypaint.set_brush_size _ _ DemoEngine.engine (2 ^ 1025) DemoEngine.fresh
  = (Raise OverflowError, Mypaint.set__brush_size (2 ^ 1025) DemoEngine.fresh) /\
  @Mypaint.set_brush_size _ _ DemoEngine.engine (- 2 ^ 1025) DemoEngine.fresh
  = (Raise OverflowError, Mypaint.set__brush_size (- 2 ^ 1025) DemoEngine.fresh) /\
  @Mypaint.draw_point _ _ DemoEngine.engine (mkQPoint 0 0) Demo.red None (Some (-3))
    DemoEngine.fresh
  = (Raise ValueError,
     Mypaint.set__brush_size (-3)
       (Mypaint.set__saved_brush_size (Some (Mypaint._brush_size DemoEngine.fresh))
          DemoEngine.fresh)).
Proof.
  split; [| split; [| split; [| split]]].
  - apply (proj1 (@set_brush_size_cases _ _ DemoEngine.engine 300 DemoEngine.fresh)).
    split; reflexivity.
  - apply (proj1 (proj2 (@set_brush_size_cases _ _ DemoEngine.engine 0 DemoEngine.fresh))).
    unfold Mypaint.FLOAT_LIMIT. lia.
  - apply (proj1 (proj2 (proj2
             (@set_brush_size_cases _ _ DemoEngine.engine (2 ^ 1025) DemoEngine.fresh)))).
    left. unfold Mypaint.FLOAT_LIMIT. lia.
  - apply (proj1 (proj2 (proj2
             (@set_brush_size_cases _ _ DemoEngine.engine (- 2 ^ 1025) DemoEngine.fresh)))).
    right. unfold Mypaint.FLOAT_LIMIT. lia.
  - apply (proj2 (proj2 (proj2
             (@set_brush_size_cases _ _ DemoEngine.engine (-3) DemoEngine.fresh))));
      [unfold Mypaint.FLOAT_LIMIT; lia | reflexivity | reflexivity].
Defined.

Lemma demo_engine_renders (i : QImage) (b : DemoEngine.lib) :
  @Mypaint.get_qimage _ _ DemoEngine.engine (@Mypaint.set_image _ _ DemoEngine.engine i b) = i.
Proof.
  unfold Mypaint.get_qimage, Mypaint.set_image, Mypaint.size.
  cbn [DemoEngine.engine Mypaint.render_image Mypaint.load_image Mypaint.surface_size
       DemoEngine.with_pixels DemoEngine.pixels].
  rewrite (QSize_eqb_same (QImage_size i) (QImage_size i) eq_refl). reflexivity.
Qed.

Lemma fill_then_get_color_witness :
  let out := @Mypaint.fill _ _ DemoEngine.engine Demo.red DemoEngine.fresh in
  fst out = Ok tt /\
  _undo_stack (Mypaint.base (snd out))
  = trim (append (_undo_stack (Mypaint.base DemoEngine.fresh))
            (mkUndoState
               (@Mypaint.get_qimage _ _ DemoEngine.engine
                  (surface (Mypaint.base DemoEngine.fresh)))
               (@Mypaint.clock _ _ DemoEngine.engine
                  (clock_reads (Mypaint.base DemoEngine.fresh))))) /\
  Mypaint._has_sketch (snd out) = true /\
  forall point : QPoint,
    @Mypaint.get_color_at_point _ _ DemoEngine.engine point (snd out)
    = (Ok (if (0 <=? pt_x point) && (pt_x point <? 2) &&
              (0 <=? pt_y point) && (pt_y point <? 2)
           then Demo.red else QColor_rgba 0 0 0 0),
       snd out).
Proof.
  apply (@fill_then_get_color_at_point _ _ DemoEngine.engine Demo.red DemoEngine.fresh 2 2);
    try reflexivity; try lia.
  exact demo_engine_renders.
Defined.

(** * Properties of [contrast_color] *)

Module ContrastFacts.

Import Float64 Float64Facts PlacementFacts ViewFacts.
Local Open Scope Q_scope.

Section Dark.

Variable pow : Q -> Q -> Q.

Lemma channel_below (z : Z) :
  (0 <= z <= 10)%Z ->
  exists c : Q, int_truediv binary64 z 255 = Ok c /\ 0 <= c <= c10.
Proof.
  intros Hz. rewrite (int_truediv_nonzero z 255) by lia.
  eexists. split; [reflexivity |].
  assert (P : 1 <= fl 255) by (apply fl_pos; lia).
  assert (N : 0 <= fl z).
  { apply rnd64_nonneg. change 0 with (inject_Z 0). rewrite <- Zle_Qle. lia. }
  assert (U : fl z <= fl 10) by (apply rnd64_mono; rewrite <- Zle_Qle; lia).
  split.
  - apply rnd64_nonneg. apply Qle_shift_div_l; lra.
  - change c10 with (rnd64 (fl 10 / fl 255)). apply rnd64_mono.
    apply Qmult_le_compat_r; [exact U |].
    apply Qinv_le_0_compat. lra.
Qed.

Lemma adjust_linear (c : Q) :
  0 <= c <= c10 ->
  exists a : Q, adjust_component pow c = Ok a /\ 0 <= a <= a10.
Proof.
  intros [Hc0 Hc]. unfold adjust_component.
  assert (B : Qle_bool c (literal (3928 # 100000)) = true).
  { apply Qle_bool_iff. apply (Qle_trans _ c10); [exact Hc |].
    unfold Qle. vm_compute. discriminate. }
  rewrite B. cbn [binary64 fdiv].
  assert (D : Qeq_bool (literal (1292 # 100)) 0 = false) by (vm_compute; reflexivity).
  rewrite D. eexists. split; [reflexivity |].
  assert (L : 0 < literal (1292 # 100)) by (unfold Qlt; vm_compute; reflexivity).
  split.
  - apply rnd64_nonneg. apply Qle_shift_div_l; lra.
  - change a10 with (rnd64 (c10 / literal (1292 # 100))). apply rnd64_mono.
    apply Qmult_le_compat_r; [exact Hc |].
    apply Qinv_le_0_compat. lra.
Qed.

Lemma weighted_below (k a : Q) :
  0 <= k -> 0 <= a <= a10 -> 0 <= rnd64 (k * a) <= rnd64 (k * a10).
Proof.
  intros Hk [Ha0 Ha]. split.
  - apply rnd64_nonneg. apply Qmult_le_0_compat; assumption.
  - apply rnd64_mono. rewrite (Qmult_comm k a), (Qmult_comm k a10).
    apply Qmult_le_compat_r; assumption.
Qed.

(** X26. Near-black colours get black: for a [QColor] whose red, green and
    blue are all between 0 and 10, [contrast_color] returns [Qt.black],
    whatever the power function does; every channel takes the linear
    branch of [adjust_component] and the luminance stays below 0.179. An
    invalid colour reads as (0, 0, 0) and gets black as well. *)
Theorem contrast_color_of_near_black (r g b a : Z) :
  (0 <= r <= 10)%Z -> (0 <= g <= 10)%Z -> (0 <= b <= 10)%Z ->
  contrast_color pow (OfColor (QColor_rgba r g b a)) = Ok Qt_black /\
  contrast_color pow (OfColor QColor_invalid) = Ok Qt_black.
Proof.
  assert (Main : forall r g b : Z,
             (0 <= r <= 10)%Z -> (0 <= g <= 10)%Z -> (0 <= b <= 10)%Z ->
             forall c : QColor,
               QColor_red c = r -> QColor_green c = g -> QColor_blue c = b ->
               contrast_color pow (OfColor c) = Ok Qt_black).
  { clear r g b a. intros r g b Hr Hg Hb c Er Eg Eb.
    unfold contrast_color. rewrite Er, Eg, Eb.
    destruct (channel_below r Hr) as (cr & -> & Hcr).
    destruct (channel_below g Hg) as (cg & -> & Hcg).
    destruct (channel_below b Hb) as (cb & -> & Hcb).
    cbn [rbind].
    destruct (adjust_linear cr Hcr) as (ar & -> & Har).
    destruct (adjust_linear cg Hcg) as (ag & -> & Hag).
    destruct (adjust_linear cb Hcb) as (ab & -> & Hab).
    cbn [rbind binary64 fadd fmul fltb].
    assert (K1 : 0 <= literal (2126 # 10000)) by (unfold Qle; vm_compute; discriminate).
    assert (K2 : 0 <= literal (7152 # 10000)) by (unfold Qle; vm_compute; discriminate).
    assert (K3 : 0 <= literal (722 # 10000)) by (unfold Qle; vm_compute; discriminate).
    destruct (weighted_below _ ar K1 Har) as [W1 V1].
    destruct (weighted_below _ ag K2 Hag) as [W2 V2].
    destruct (weighted_below _ ab K3 Hab) as [W3 V3].
    set (p1 := rnd64 (literal (2126 # 10000) * ar)) in *.
    set (p2 := rnd64 (literal (7152 # 10000) * ag)) in *.
    set (p3 := rnd64 (literal (722 # 10000) * ab)) in *.
    set (q1 := rnd64 (literal (2126 # 10000) * a10)) in *.
    set (q2 := rnd64 (literal (7152 # 10000) * a10)) in *.
    set (q3 := rnd64 (literal (722 # 10000) * a10)) in *.
    assert (S1 : rnd64 (p1 + p2) <= rnd64 (q1 + q2)) by (apply rnd64_mono; lra).
    assert (S2 : rnd64 (rnd64 (p1 + p2) + p3) <= rnd64 (rnd64 (q1 + q2) + q3))
      by (apply rnd64_mono; lra).
    assert (T : lt_bool (rnd64 (rnd64 (p1 + p2) + p3)) (literal (179 # 1000)) = true).
    { apply lt_bool_iff. apply (Qle_lt_trans _ _ _ S2).
      unfold Qlt. vm_compute. reflexivity. }
    rewrite T. reflexivity. }
  intros Hr Hg Hb. split.
  - apply (Main r g b Hr Hg Hb); reflexivity.
  - apply (Main 0%Z 0%Z 0%Z); try reflexivity; lia.
Qed.

End Dark.

Lemma near_black_witness :
  contrast_color (fun x _ => x) (OfColor (QColor_rgba 10 3 0 255)) = Ok Qt_black /\
  contrast_color (fun x _ => x) (OfColor QColor_invalid) = Ok Qt_black.
Proof. apply (contrast_color_of_near_black (fun x _ => x) 10 3 0 255); lia. Defined.

End ContrastFacts.

(** * Properties of [BrushPicker._read_order_file] *)

Module OrderFacts.

Import Ascii String OrderFile.

Lemma split_length (sep : Ascii.ascii) (s : String.string) :
  List.length (split sep s) = S (occurrences sep s).
Proof.
  induction s as [| c rest IH]; [reflexivity |].
  cbn [split occurrences]. destruct (Ascii.eqb c sep).
  - cbn [List.length]. rewrite IH. reflexivity.
  - destruct (split sep rest) as [| first others]; [discriminate IH |].
    cbn [List.length] in *. lia.
Qed.

Lemma contains_occurrences (sep : Ascii.ascii) (s : String.string) :
  contains sep s = true <-> (1 <= occurrences sep s)%nat.
Proof.
  induction s as [| c rest IH]; cbn [contains occurrences].
  - split; [discriminate | lia].
  - destruct (Ascii.eqb c sep); cbn [orb].
    + split; [lia | reflexivity].
    + rewrite IH. cbn. reflexivity.
Qed.

Lemma dict_in_app (k : String.string) (d e : dict) :
  dict_in k (d ++ e) = dict_in k d || dict_in k e.
Proof. unfold dict_in. apply existsb_app. Qed.

Lemma dict_in_map_keys (k : String.string) (f : String.string * list String.string ->
                                                 String.string * list String.string)
    (d : dict) :
  (forall kv, fst (f kv) = fst kv) -> dict_in k (map f d) = dict_in k d.
Proof.
  intros Hf. unfold dict_in. induction d as [| kv d IH]; [reflexivity |].
  cbn [map existsb]. rewrite Hf, IH. reflexivity.
Qed.

Lemma dict_in_set (k key : String.string) (v : list String.string) (d : dict) :
  dict_in k (dict_set key v d) = true <-> k = key \/ dict_in k d = true.
Proof.
  unfold dict_set. destruct (dict_in key d) eqn:E.
  - rewrite dict_in_map_keys by (intros kv; destruct (String.eqb (fst kv) key); reflexivity).
    split; [tauto | intros [-> | H]; assumption].
  - rewrite dict_in_app. unfold dict_in at 2. cbn [existsb fst].
    rewrite orb_false_r, orb_true_iff, String.eqb_eq.
    split; intros [H | H]; auto.
Qed.

Lemma dict_in_append (k key x : String.string) (d : dict) :
  dict_in k (dict_append key x d) = dict_in k d.
Proof.
  unfold dict_append. apply dict_in_map_keys.
  intros kv. destruct (String.eqb (fst kv) key); reflexivity.
Qed.

Lemma new_group_in_step (group : String.string) (p : BrushPicker) :
  in_step p -> in_step (new_group group p).
Proof.
  intros H g. unfold new_group; cbn [_groups _group_orders].
  unfold Py.append. rewrite in_app_iff, dict_in_set, (H g). cbn [In].
  intuition congruence.
Qed.

Lemma append_in_step (group brush : String.string) (p : BrushPicker) :
  in_step p ->
  in_step (mkBrushPicker (_groups p) (dict_append group brush (_group_orders p))).
Proof.
  intros H g. cbn [_groups _group_orders]. rewrite dict_in_append. apply H.
Qed.

Lemma read_line_in_step (line : String.string) (p : BrushPicker) :
  in_step p -> in_step (snd (read_line line p)).
Proof.
  intros H. unfold read_line.
  destruct (group_match line) as [group |].
  - apply new_group_in_step, H.
  - destruct (contains "/"%char line); cbn [negb]; [| exact H].
    destruct (split "/"%char line) as [| group [| brush [| third rest]]]; try exact H.
    unfold bind, modify, ret.
    destruct (dict_in group (_group_orders p)); cbn [negb snd].
    + apply append_in_step, H.
    + apply append_in_step, new_group_in_step, H.
Qed.

Lemma read_lines_in_step (lines : list String.string) :
  forall p : BrushPicker, in_step p -> in_step (snd (read_lines lines p)).
Proof.
  induction lines as [| line rest IH]; intros p H; [exact H |].
  cbn [read_lines]. unfold bind.
  assert (H1 := read_line_in_step line p H).
  destruct (read_line line p) as [[[] | e] p1]; cbn [snd] in *.
  - apply IH, H1.
  - exact H1.
Qed.

(** X27. Groups and order lists stay in step: if every listed group has
    an entry in [_group_orders] and every entry belongs to a listed group,
    the same holds after [_read_order_file], for a missing file, for any
    lines, and also when the reading stops on a [ValueError]. So
    [self._group_orders[group]] cannot fail for a [group] taken from
    [self._groups]. *)
Theorem read_order_file_keeps_in_step (file : option (list String.string))
    (p : BrushPicker) :
  in_step p -> in_step (snd (_read_order_file file p)).
Proof.
  intros H. destruct file as [lines |]; [| exact H].
  unfold _read_order_file, bind.
  assert (H1 := read_lines_in_step lines p H).
  destruct (read_lines lines p) as [[[] | e] p1]; exact H1.
Qed.

Lemma read_line_readable (line : String.string) (p : BrushPicker) :
  ~ unreadable line -> fst (read_line line p) = Ok tt.
Proof.
  intros Hr. unfold read_line.
  destruct (group_match line) as [group |] eqn:Eg; [reflexivity |].
  destruct (contains "/"%char line) eqn:Ec; cbn [negb]; [| reflexivity].
  apply contains_occurrences in Ec.
  assert (Ho : occurrences "/"%char line = 1%nat).
  { destruct (Nat.le_gt_cases 2 (occurrences "/"%char line)) as [G | L]; [| lia].
    exfalso. apply Hr. split; [exact Eg | exact G]. }
  assert (Hl := split_length "/"%char line). rewrite Ho in Hl.
  destruct (split "/"%char line) as [| group [| brush [| third rest]]]; try discriminate Hl.
  unfold bind, modify, ret. destruct (dict_in group (_group_orders p)); reflexivity.
Qed.

Lemma read_line_unreadable (line : String.string) (p : BrushPicker) :
  unreadable line -> read_line line p = (Raise ValueError, p).
Proof.
  intros [Eg Ho]. unfold read_line. rewrite Eg.
  assert (Ec : contains "/"%char line = true) by (apply contains_occurrences; lia).
  rewrite Ec. cbn [negb].
  assert (Hl := split_length "/"%char line).
  destruct (split "/"%char line) as [| group [| brush [| third rest]]]; cbn [List.length] in Hl;
    try reflexivity; lia.
Qed.

Lemma read_lines_readable (lines : list String.string) :
  Forall (fun line => ~ unreadable line) lines ->
  forall p : BrushPicker, fst (read_lines lines p) = Ok tt.
Proof.
  induction 1 as [| line rest Hl Hrest IH]; intros p; [reflexivity |].
  cbn [read_lines]. unfold bind.
  assert (H1 := read_line_readable line p Hl).
  destruct (read_line line p) as [[[] | e] p1]; cbn [fst] in H1; [apply IH | discriminate].
Qed.

(** X28. When the reading of an order file raises. A line is unreadable
    when it is no [Group:] line and holds two or more slashes. A file
    without such a line is read to the end and the method returns [True];
    a missing file gives [False] and changes nothing. At the first
    unreadable line the method raises [ValueError] from the unpacking:
    the lines before it have taken effect, that line and the lines after
    it have not. *)
Theorem read_order_file_raises_at (before after : list String.string)
    (line : String.string) (p : BrushPicker) :
  Forall (fun l => ~ unreadable l) before ->
  _read_order_file None p = (Ok false, p) /\
  _read_order_file (Some before) p = (Ok true, snd (read_lines before p)) /\
  (unreadable line ->
   _read_order_file (Some (before ++ line :: after)) p
   = (Raise ValueError, snd (read_lines before p))).
Proof.
  intros Hb. split; [reflexivity | split].
  - unfold _read_order_file, bind.
    assert (H1 := read_lines_readable before Hb p).
    destruct (read_lines before p) as [[[] | e] p1]; cbn [fst] in H1;
      [reflexivity | discriminate].
  - intros Hu. unfold _read_order_file. unfold bind at 1.
    assert (E : read_lines (before ++ line :: after) p
                = (Raise ValueError, snd (read_lines before p))).
    { clear - Hb Hu. revert p. induction Hb as [| l rest Hl Hrest IH]; intros p.
      - cbn [app read_lines]. unfold bind. rewrite (read_line_unreadable line p Hu).
        reflexivity.
      - cbn [app read_lines]. unfold bind.
        assert (H1 := read_line_readable l p Hl).
        destruct (read_line l p) as [[[] | e] p1]; cbn [fst] in H1; [| discriminate].
        apply IH. }
    rewrite E. reflexivity.
Qed.

Lemma empty_picker_in_step : in_step (mkBrushPicker [] []).
Proof. intros g. cbn. split; [intros [] | discriminate]. Qed.

Lemma keeps_in_step_witness :
  in_step (snd (_read_order_file
                  (Some ["Group: Classic"; "Classic/pencil"; "# set two";
                         "Experimental/smudge"; "a/b/c"; "Classic/ink"]%string)
                  (mkBrushPicker [] []))).
Proof.
  apply (read_order_file_keeps_in_step
           (Some ["Group: Classic"; "Classic/pencil"; "# set two";
                  "Experimental/smudge"; "a/b/c"; "Classic/ink"]%string)
           (mkBrushPicker [] [])).
  exact empty_picker_in_step.
Defined.

Lemma raises_at_witness :
  _read_order_file None (mkBrushPicker [] []) = (Ok false, mkBrushPicker [] []) /\
  _read_order_file (Some ["Group: Classic"; "Classic/pencil"]%string) (mkBrushPicker [] [])
  = (Ok true,
     snd (read_lines ["Group: Classic"; "Classic/pencil"]%string (mkBrushPicker [] []))) /\
  _read_order_file
    (Some (["Group: Classic"; "Classic/pencil"]%string
           ++ "a/b/c"%string :: ["Classic/ink"]%string)%list)
    (mkBrushPicker [] [])
  = (Raise ValueError,
     snd (read_lines ["Group: Classic"; "Classic/pencil"]%string (mkBrushPicker [] []))).
Proof.
  assert (Hb : Forall (fun l => ~ unreadable l) ["Group: Classic"; "Classic/pencil"]%string).
  { repeat constructor; intros [Hg Ho]; vm_compute in Hg, Ho; try discriminate; lia. }
  destruct (read_order_file_raises_at ["Group: Classic"; "Classic/pencil"]%string
              ["Classic/ink"]%string "a/b/c"%string (mkBrushPicker [] []) Hb)
    as (H1 & H2 & H3).
  split; [exact H1 | split; [exact H2 |]].
  apply H3. split; [reflexivity | vm_compute; lia].
Defined.

(** The picker after those lines: one group, one brush; a comment with a
    slash would have made a group of its own. *)
Example order_file_run :
  snd (_read_order_file (Some ["Group: Classic"; "Classic/pencil"; "a/b/c"]%string)
         (mkBrushPicker [] []))
  = mkBrushPicker ["Classic"%string] [("Classic", ["pencil"])]%string /\
  snd (_read_order_file (Some ["# brushes by Ann/Bob"]%string) (mkBrushPicker [] []))
  = mkBrushPicker ["# brushes by Ann"%string] [("# brushes by Ann", ["Bob"])]%string.
Proof. split; reflexivity. Qed.

End OrderFacts.
